(** * models-web-app backend: SSE relay, watchers and namespace listing

    A shallow embedding of
      - [backend/apps/common/sse/manager.py]  (SSEConnectionManager),
      - [backend/apps/common/sse/watchers.py] (InferenceServiceWatcher, EventWatcher),
      - [backend/apps/common/sse/routes.py]   (the event_stream generators),
      - [backend/apps/v1beta1/routes/get.py]  (get_namespaces),
    followed by the properties established about them.

    Conventions.  A Python [str] is a Rocq [string], read as a sequence of
    code points below 256.  Python objects with identity (queues, watchers)
    live in a heap indexed by numbers, so that the manager and a session
    which hold the same queue really share it.  Calls that may block or
    raise return an [outcome].  Logging, thread starts and sleeps are
    recorded, in order, in a trace. *)

From Stdlib Require Import ZArith Ascii String List Bool Lia Permutation.
From stdpp Require Import base gmap strings list fin_maps pretty.

Set Warnings "-register-all".

Local Open Scope string_scope.
Local Open Scope list_scope.

(* ================================================================== *)
(** ** Python string primitives *)
(* ================================================================== *)

Module PyStr.

Definition code (c : ascii) : N := N_of_ascii c.

Definition in_range (lo hi : N) (c : ascii) : bool :=
  ((lo <=? code c) && (code c <=? hi))%N.

(** [str.lower] on one code point: A-Z and the upper-case letters of
    the Latin-1 block (U+00C0..U+00DE without U+00D7) move up by 32. *)
Definition lower_char (c : ascii) : ascii :=
  if in_range 65 90 c
     || (in_range 192 222 c && negb (code c =? 215)%N)
  then ascii_of_N (code c + 32)
  else c.

Fixpoint lower (s : string) : string :=
  match s with
  | EmptyString => EmptyString
  | String c r => String (lower_char c) (lower r)
  end.

(** [str.isspace] on one code point. *)
Definition is_space (c : ascii) : bool :=
  in_range 9 13 c || in_range 28 32 c
  || (code c =? 133)%N || (code c =? 160)%N.

Fixpoint lstrip (s : string) : string :=
  match s with
  | EmptyString => EmptyString
  | String c r => if is_space c then lstrip r else s
  end.

(** [rstrip]: a character is kept when it is not a space or when
    something survives to its right. *)
Fixpoint rstrip (s : string) : string :=
  match s with
  | EmptyString => EmptyString
  | String c r =>
      match rstrip r with
      | EmptyString => if is_space c then EmptyString else String c EmptyString
      | r' => String c r'
      end
  end.

Definition strip (s : string) : string := rstrip (lstrip s).

(** [s.split(sep)] for a one-character separator: never an empty list;
    adjacent separators give empty fields. *)
Fixpoint split (sep : ascii) (s : string) : list string :=
  match s with
  | EmptyString => [EmptyString]
  | String c r =>
      if Ascii.eqb c sep then EmptyString :: split sep r
      else match split sep r with
           | [] => [String c EmptyString]
           | h :: t => String c h :: t
           end
  end.

(** Truth value of a string: non-empty. *)
Definition truthy (s : string) : bool :=
  match s with EmptyString => false | _ => true end.

(** [s.startswith(p)]. *)
Definition startswith (p s : string) : bool := String.prefix p s.

(** [x in l] for a list of strings. *)
Definition mem (x : string) (l : list string) : bool :=
  existsb (String.eqb x) l.

End PyStr.

(* ================================================================== *)
(** ** JSON values and [json.dumps] *)
(* ================================================================== *)

(** The payloads that travel through the relay.  A dict keeps insertion
    order, as Python's does, hence an association list.  Floats do not
    occur in the modelled paths. *)
Inductive json : Type :=
| JNull
| JBool (b : bool)
| JInt (z : Z)
| JStr (s : string)
| JList (l : list json)
| JDict (kv : list (string * json)).

Module Json.

Definition hex_digit (n : N) : ascii :=
  if (n <? 10)%N then ascii_of_N (48 + n) else ascii_of_N (87 + n).

(** ["\\u{0:04x}".format(n)] for n below 256. *)
Definition u_escape (c : ascii) : string :=
  let n := N_of_ascii c in
  String "\" (String "u" (String "0" (String "0"
    (String (hex_digit (n / 16)) (String (hex_digit (n mod 16)) EmptyString))))).

(** One character of [json.encoder.py_encode_basestring_ascii]. *)
Definition escape_char (c : ascii) : string :=
  let n := N_of_ascii c in
  if (n =? 92)%N then String "\" (String "\" EmptyString)
  else if (n =? 34)%N then String "\" (String (ascii_of_N 34) EmptyString)
  else if (n =? 8)%N then String "\" (String "b" EmptyString)
  else if (n =? 12)%N then String "\" (String "f" EmptyString)
  else if (n =? 10)%N then String "\" (String "n" EmptyString)
  else if (n =? 13)%N then String "\" (String "r" EmptyString)
  else if (n =? 9)%N then String "\" (String "t" EmptyString)
  else if ((32 <=? n) && (n <=? 126))%N then String c EmptyString
  else u_escape c.

Fixpoint escape (s : string) : string :=
  match s with
  | EmptyString => EmptyString
  | String c r => escape_char c +:+ escape r
  end.

Definition quote : string := String (ascii_of_N 34) EmptyString.

Definition encode_str (s : string) : string := quote +:+ escape s +:+ quote.

(** [json.dumps] with its default separators [", "] and [": "]. *)
Fixpoint dumps (v : json) : string :=
  match v with
  | JNull => "null"
  | JBool true => "true"
  | JBool false => "false"
  | JInt z => pretty z
  | JStr s => encode_str s
  | JList l =>
      "[" +:+
      (fix items (l : list json) : string :=
         match l with
         | [] => EmptyString
         | [x] => dumps x
         | x :: r => dumps x +:+ ", " +:+ items r
         end) l
      +:+ "]"
  | JDict kv =>
      "{" +:+
      (fix members (kv : list (string * json)) : string :=
         match kv with
         | [] => EmptyString
         | [(k, x)] => encode_str k +:+ ": " +:+ dumps x
         | (k, x) :: r => encode_str k +:+ ": " +:+ dumps x +:+ ", " +:+ members r
         end) kv
      +:+ "}"
  end.

(** [d[k]] on a dict; [None] stands for the KeyError (or TypeError). *)
Fixpoint assoc (k : string) (kv : list (string * json)) : option json :=
  match kv with
  | [] => None
  | (k', v) :: r => if String.eqb k k' then Some v else assoc k r
  end.

Definition getitem (v : json) (k : string) : option json :=
  match v with
  | JDict kv => assoc k kv
  | _ => None
  end.

End Json.

(* ================================================================== *)
(** ** routes.py: wire format *)
(* ================================================================== *)

Definition nl : string := String (ascii_of_N 10) EmptyString.

(** [_format_sse_message(event_type, data)]:
    [f"event: {event_type.lower()}\ndata: {json.dumps(data)}\n\n"]. *)
Definition _format_sse_message (event_type : string) (data : json) : string :=
  "event: " +:+ PyStr.lower event_type +:+ nl +:+
  "data: " +:+ Json.dumps data +:+ nl +:+ nl.

(** [_send_heartbeat()]. *)
Definition _send_heartbeat : string := ": heartbeat" +:+ nl +:+ nl.


(* ================================================================== *)
(** ** Effects: the trace *)
(* ================================================================== *)

(** Arguments of a [%s] log format. *)
Inductive log_arg : Type :=
| ArgStr (s : string)
| ArgList (l : list string).

(** What a thread launched by the manager runs. *)
Inductive thread_target : Type :=
| WatchNamespace (namespace : string)
| WatchSingle (namespace name : string)
| WatchEvents (namespace isvc_name : string).

(** Observable effects, in the order they happen. *)
Inductive effect : Type :=
| LogInfo (msg : string)
| LogError (msg : string)
| LogDebug (msg : string)
| LogWarning (fmt : string) (args : list log_arg)
| LogErrorFmt (fmt : string) (args : list log_arg)
| Constructed (watcher : nat)
| ThreadStarted (watcher : nat) (target : thread_target) (watch_key : string)
| WatchStop (watcher : nat)
| Slept (seconds : Z).

(* ================================================================== *)
(** ** get.py: get_namespaces *)
(* ================================================================== *)

(** The two warnings of [get_namespaces]. *)
Definition none_exist_warning : effect :=
  LogWarning
    "None of the ALLOWED_NAMESPACES exist in cluster. Falling back to all namespaces."
    [].

Definition invalid_warning (invalid : list string) : effect :=
  LogWarning "Invalid namespaces in ALLOWED_NAMESPACES (ignored): %s"
             [ArgList invalid].

Module Get.

(** The two response builders of the crud backend. *)
Inductive response : Type :=
| success_response (key : string) (value : list string)
| failed_response (key : string) (msg : string) (status : nat).

(** [[ns.strip() for ns in env.split(",") if ns.strip()]]. *)
Definition parse_allowed (allowed_namespaces_env : string) : list string :=
  map PyStr.strip
      (List.filter (fun ns => PyStr.truthy (PyStr.strip ns))
                   (PyStr.split "," allowed_namespaces_env)).

(** [get_namespaces()].  [list_namespaces] is what [api.list_namespaces()]
    does: it raises ([inl], with the message) or returns the names of the
    cluster's namespaces ([inr]).  [environ] is the value of the variable
    ALLOWED_NAMESPACES, if set.  The result is the response together with
    what was logged. *)
Definition get_namespaces (list_namespaces : string + list string)
           (environ : option string) : response * list effect :=
  match list_namespaces with
  | inl e =>
      (failed_response "message" "Failed to retrieve namespaces" 500,
       [LogErrorFmt "Error retrieving namespaces: %s" [ArgStr e]])
  | inr all_namespace_names =>
      let allowed_namespaces_env :=
        PyStr.strip (match environ with Some v => v | None => EmptyString end) in
      if negb (PyStr.truthy allowed_namespaces_env) then
        (success_response "namespaces" all_namespace_names, [])
      else
        let allowed_namespaces := parse_allowed allowed_namespaces_env in
        match allowed_namespaces with
        | [] => (success_response "namespaces" all_namespace_names, [])
        | _ =>
            let valid_allowed_namespaces :=
              List.filter (fun ns => PyStr.mem ns all_namespace_names)
                          allowed_namespaces in
            match valid_allowed_namespaces with
            | [] =>
                (success_response "namespaces" all_namespace_names,
                 [none_exist_warning])
            | _ =>
                let invalid_namespaces :=
                  List.filter (fun ns => negb (PyStr.mem ns all_namespace_names))
                              allowed_namespaces in
                (success_response "namespaces" valid_allowed_namespaces,
                 match invalid_namespaces with
                 | [] => []
                 | _ => [invalid_warning invalid_namespaces]
                 end)
            end
        end
  end.

End Get.


(* ================================================================== *)
(** ** The heap: queues, watchers, and the manager's tables *)
(* ================================================================== *)

(** A [queue.Queue].  [maxsize <= 0] means unbounded.  A queue that was
    shut down raises on [put]. *)
Record Queue : Type := mkQueue {
  maxsize : Z;
  items : list json;
  is_shutdown : bool
}.

Inductive watcher_class : Type := InferenceServiceWatcher | EventWatcher.

(** A watcher object: its class and its [_stop_requested] flag. *)
Record Watcher : Type := mkWatcher {
  cls : watcher_class;
  _stop_requested : bool
}.

(** The process state.  The first five fields are the attributes of the
    one SSEConnectionManager; a lock maps to [true] while some thread is
    inside its [with] block.  [queues] and [watchers] hold the objects the
    tables refer to; a watcher's identity is its index in [watchers], so
    the length of that list counts the watcher objects ever constructed. *)
Record World : Type := mkWorld {
  _namespace_watchers : gmap string nat;
  _single_watchers : gmap string nat;
  _event_watchers : gmap string nat;
  _client_queues : gmap string (list nat);
  _locks : gmap string bool;
  queues : gmap nat Queue;
  watchers : list Watcher;
  clock : Z;
  trace : list effect
}.

(** [SSEConnectionManager.__init__], in a process that has no queue and no
    watcher yet. *)
Definition init : World :=
  mkWorld ∅ ∅ ∅ ∅ ∅ ∅ [] 0 [].

Definition emit (e : effect) (w : World) : World :=
  mkWorld (_namespace_watchers w) (_single_watchers w) (_event_watchers w)
          (_client_queues w) (_locks w) (queues w) (watchers w) (clock w)
          (trace w ++ [e]).

Definition advance (d : Z) (w : World) : World :=
  mkWorld (_namespace_watchers w) (_single_watchers w) (_event_watchers w)
          (_client_queues w) (_locks w) (queues w) (watchers w) (clock w + d)
          (trace w).

Definition set_lock (k : string) (held : bool) (w : World) : World :=
  mkWorld (_namespace_watchers w) (_single_watchers w) (_event_watchers w)
          (_client_queues w) (<[k := held]> (_locks w)) (queues w) (watchers w)
          (clock w) (trace w).

Definition set_client_queues (k : string) (l : list nat) (w : World) : World :=
  mkWorld (_namespace_watchers w) (_single_watchers w) (_event_watchers w)
          (<[k := l]> (_client_queues w)) (_locks w) (queues w) (watchers w)
          (clock w) (trace w).

Definition set_queue (q : nat) (Q : Queue) (w : World) : World :=
  mkWorld (_namespace_watchers w) (_single_watchers w) (_event_watchers w)
          (_client_queues w) (_locks w) (<[q := Q]> (queues w)) (watchers w)
          (clock w) (trace w).

Definition set_watchers (ws : list Watcher) (w : World) : World :=
  mkWorld (_namespace_watchers w) (_single_watchers w) (_event_watchers w)
          (_client_queues w) (_locks w) (queues w) ws (clock w) (trace w).

(** The three watcher tables, selected by the kind of subscription. *)
Inductive scope : Type := NamespaceList | SingleObject | EventList.

#[global] Instance scope_eq_dec : EqDecision scope.
Proof. solve_decision. Defined.

Definition table (s : scope) (w : World) : gmap string nat :=
  match s with
  | NamespaceList => _namespace_watchers w
  | SingleObject => _single_watchers w
  | EventList => _event_watchers w
  end.

Definition set_table (s : scope) (t : gmap string nat) (w : World) : World :=
  match s with
  | NamespaceList =>
      mkWorld t (_single_watchers w) (_event_watchers w) (_client_queues w)
              (_locks w) (queues w) (watchers w) (clock w) (trace w)
  | SingleObject =>
      mkWorld (_namespace_watchers w) t (_event_watchers w) (_client_queues w)
              (_locks w) (queues w) (watchers w) (clock w) (trace w)
  | EventList =>
      mkWorld (_namespace_watchers w) (_single_watchers w) t (_client_queues w)
              (_locks w) (queues w) (watchers w) (clock w) (trace w)
  end.

(** Reading [self._client_queues[k]]: the list stored under [k], and, the
    table being a [defaultdict(list)], a new empty list stored under [k]
    when there was none. *)
Definition queues_of (k : string) (w : World) : list nat :=
  match _client_queues w !! k with Some l => l | None => [] end.

Definition touch (k : string) (w : World) : World :=
  match _client_queues w !! k with
  | Some _ => w
  | None => set_client_queues k [] w
  end.

(** What a call does: it returns, it raises (the message of the
    exception), or it never comes back on its own because the thread waits
    for something.  Each carries the state reached. *)
Inductive wait_reason : Type :=
| WaitLock (k : string)
| WaitNotFull (q : nat).

Inductive outcome (A : Type) : Type :=
| Returns (a : A) (w : World)
| Raises (e : string) (w : World)
| Blocked (r : wait_reason) (w : World).

Arguments Returns {A} a w.
Arguments Raises {A} e w.
Arguments Blocked {A} r w.

Definition world_of {A : Type} (o : outcome A) : World :=
  match o with
  | Returns _ w => w
  | Raises _ w => w
  | Blocked _ w => w
  end.

Definition lock_held (k : string) (w : World) : bool :=
  match _locks w !! k with Some true => true | _ => false end.

(** [with self._locks[k]: body].  The lock is created on first use;
    acquiring a held lock waits; the lock is released when the body
    returns or raises, and stays held while the body is blocked. *)
Definition with_lock (k : string) (body : World -> outcome unit)
           (w : World) : outcome unit :=
  if lock_held k w then Blocked (WaitLock k) w
  else
    match body (set_lock k true w) with
    | Returns a w' => Returns a (set_lock k false w')
    | Raises e w' => Raises e (set_lock k false w')
    | Blocked r w' => Blocked r w'
    end.

(* ================================================================== *)
(** ** queue.Queue operations *)
(* ================================================================== *)

Definition is_full (Q : Queue) : bool :=
  (0 <? maxsize Q)%Z && (maxsize Q <=? Z.of_nat (length (items Q)))%Z.

(** [queue.Queue(maxsize=n)]: a new object at a fresh address. *)
Definition new_queue (n : Z) (w : World) : nat * World :=
  let q := fresh (dom (queues w)) in
  (q, set_queue q (mkQueue n [] false) w).

Inductive put_result : Type :=
| PutOk (w : World)
| PutRaises (e : string)
| PutBlocks.

(** [q.put(item)], blocking and without timeout.  An object that is not
    a queue has no [put]; a queue shut down raises; a full queue makes the
    caller wait for a free slot. *)
Definition queue_put (q : nat) (item : json) (w : World) : put_result :=
  match queues w !! q with
  | None => PutRaises "object has no attribute 'put'"
  | Some Q =>
      if is_shutdown Q then PutRaises "ShutDown"
      else if is_full Q then PutBlocks
      else PutOk (set_queue q (mkQueue (maxsize Q) (items Q ++ [item]) false) w)
  end.

Inductive get_result : Type :=
| GetItem (item : json) (w : World)
| GetEmpty (w : World)
| GetRaises (e : string).

(** [q.get(timeout=t)]: the oldest item if there is one; otherwise the
    caller waits [t] time units and gets [queue.Empty]. *)
Definition queue_get (q : nat) (timeout : Z) (w : World) : get_result :=
  match queues w !! q with
  | None => GetRaises "object has no attribute 'get'"
  | Some Q =>
      match items Q with
      | item :: rest =>
          GetItem item (set_queue q (mkQueue (maxsize Q) rest (is_shutdown Q)) w)
      | [] =>
          if is_shutdown Q then GetRaises "ShutDown"
          else GetEmpty (advance timeout w)
      end
  end.

(** [l.remove(x)]: drops the first occurrence; [None] is the ValueError
    raised when there is none. *)
Fixpoint list_remove (x : nat) (l : list nat) : option (list nat) :=
  match l with
  | [] => None
  | y :: r =>
      if Nat.eqb x y then Some r
      else match list_remove x r with
           | Some r' => Some (y :: r')
           | None => None
           end
  end.

(** [x in l]. *)
Definition list_mem (x : nat) (l : list nat) : bool := existsb (Nat.eqb x) l.

(* ================================================================== *)
(** ** watchers.py *)
(* ================================================================== *)

Definition stop_requested (self : nat) (w : World) : bool :=
  match watchers w !! self with
  | Some x => _stop_requested x
  | None => false
  end.

(** [InferenceServiceWatcher()] / [EventWatcher()]. *)
Definition new_watcher (c : watcher_class) (w : World) : nat * World :=
  let self := length (watchers w) in
  (self, emit (Constructed self) (set_watchers (watchers w ++ [mkWatcher c false]) w)).

(** [watcher.stop()]: sets the flag and stops the underlying watch. *)
Definition stop (self : nat) (w : World) : World :=
  match watchers w !! self with
  | Some x =>
      emit (WatchStop self)
           (set_watchers (<[self := mkWatcher (cls x) true]> (watchers w)) w)
  | None => w
  end.

(** [_reconnect_with_backoff(self, initial_delay=1, max_delay=32)].  The
    loop body ends in [break], so the loop runs at most once: the doubled
    [delay] is never used. *)
Definition _reconnect_with_backoff (self : nat) (initial_delay max_delay : Z)
           (w : World) : World :=
  let delay := initial_delay in
  if (delay <=? max_delay)%Z && negb (stop_requested self w) then
    let w := emit (LogInfo ("Reconnecting in " +:+ pretty delay +:+ " seconds...")) w in
    let w := advance delay (emit (Slept delay) w) in
    let delay := (delay * 2)%Z in
    w
  else w.

(** How one upstream stream finishes: it is exhausted (the server-side
    timeout), or advancing it raises. *)
Inductive stream_end : Type :=
| StreamEnds
| ApiException (e : string)
| OtherException (e : string).

(** One call of [self.watch.stream(...)]: the events it yields, then its
    end. *)
Record attempt : Type := mkAttempt {
  events : list (string * json);
  ending : stream_end
}.

Definition callback : Type := string -> json -> World -> outcome unit.

(** The [for event in self.watch.stream(...)] loop.  The result is [true]
    when the loop was left by [break]. *)
Fixpoint for_events (self : nat) (event_callback : callback)
         (evs : list (string * json)) (w : World) : outcome bool :=
  match evs with
  | [] => Returns false w
  | (event_type, obj) :: rest =>
      if stop_requested self w then Returns true w
      else
        match event_callback event_type obj w with
        | Returns _ w' => for_events self event_callback rest w'
        | Raises e w' =>
            for_events self event_callback rest
                       (emit (LogError ("Error in event callback: " +:+ e)) w')
        | Blocked r w' => Blocked r w'
        end
  end.

Definition starting_message (t : thread_target) : string :=
  match t with
  | WatchNamespace namespace =>
      "Starting watch for InferenceServices in namespace: " +:+ namespace
  | WatchSingle namespace name =>
      "Starting watch for InferenceService: " +:+ namespace +:+ "/" +:+ name
  | WatchEvents namespace _ =>
      "Starting watch for Events in namespace: " +:+ namespace
  end.

(** [watch_namespace], [watch_single] and [watch_events]: the three
    methods are the same loop around differently parameterised streams.
    [upstream] lists what the successive calls of [watch.stream] do.  The
    result is [true] when the method has returned and [false] when
    [upstream] is used up with the loop still running. *)
Fixpoint watch (t : thread_target) (self : nat) (event_callback : callback)
         (upstream : list attempt) (w : World) {struct upstream} : outcome bool :=
  if stop_requested self w then Returns true w
  else
    match upstream with
    | [] => Returns false w
    | a :: later =>
        let w := emit (LogInfo (starting_message t)) w in
        match for_events self event_callback (events a) w with
        | Blocked r w => Blocked r w
        | Raises e w => Raises e w
        | Returns true w => watch t self event_callback later w
        | Returns false w =>
            match ending a with
            | StreamEnds => watch t self event_callback later w
            | ApiException e =>
                if stop_requested self w then Returns true w
                else
                  let w := emit (LogError ("Watch stream error: " +:+ e)) w in
                  watch t self event_callback later
                        (_reconnect_with_backoff self 1 32 w)
            | OtherException e =>
                if stop_requested self w then Returns true w
                else
                  let w := emit (LogError ("Unexpected error in watch stream: " +:+ e)) w in
                  watch t self event_callback later
                        (_reconnect_with_backoff self 1 32 w)
            end
        end
    end.

Definition watch_namespace (namespace : string) : nat -> callback -> list attempt -> World -> outcome bool :=
  watch (WatchNamespace namespace).

Definition watch_single (namespace name : string) : nat -> callback -> list attempt -> World -> outcome bool :=
  watch (WatchSingle namespace name).

Definition watch_events (namespace isvc_name : string) : nat -> callback -> list attempt -> World -> outcome bool :=
  watch (WatchEvents namespace isvc_name).

(** The delays slept so far, oldest first. *)
Definition sleeps (tr : list effect) : list Z :=
  flat_map (fun e => match e with Slept d => [d] | _ => [] end) tr.

(* ================================================================== *)
(** ** manager.py: SSEConnectionManager *)
(* ================================================================== *)

Definition watch_key_of (t : thread_target) : string :=
  match t with
  | WatchNamespace namespace => "ns:" +:+ namespace
  | WatchSingle namespace name => "isvc:" +:+ namespace +:+ "/" +:+ name
  | WatchEvents namespace isvc_name => "events:" +:+ namespace +:+ "/" +:+ isvc_name
  end.

Definition scope_of (t : thread_target) : scope :=
  match t with
  | WatchNamespace _ => NamespaceList
  | WatchSingle _ _ => SingleObject
  | WatchEvents _ _ => EventList
  end.

Definition class_of (t : thread_target) : watcher_class :=
  match t with
  | WatchNamespace _ => InferenceServiceWatcher
  | WatchSingle _ _ => InferenceServiceWatcher
  | WatchEvents _ _ => EventWatcher
  end.

Definition started_message (t : thread_target) : string :=
  match t with
  | WatchNamespace namespace => "Started namespace watcher for: " +:+ namespace
  | WatchSingle namespace name =>
      "Started single watcher for: " +:+ namespace +:+ "/" +:+ name
  | WatchEvents namespace isvc_name =>
      "Started event watcher for: " +:+ namespace +:+ "/" +:+ isvc_name
  end.

(** The body shared by the three [register_*] methods: under the key's
    lock, append the queue; when the key has no watcher in its table,
    construct one, store it, start its thread and log. *)
Definition register (t : thread_target) (client_queue : nat)
           (w : World) : outcome unit :=
  let watch_key := watch_key_of t in
  with_lock watch_key
    (fun w =>
       let w := touch watch_key w in
       let w := set_client_queues watch_key
                  (queues_of watch_key w ++ [client_queue]) w in
       match table (scope_of t) w !! watch_key with
       | Some _ => Returns tt w
       | None =>
           let '(watcher, w) := new_watcher (class_of t) w in
           let w := set_table (scope_of t)
                      (<[watch_key := watcher]> (table (scope_of t) w)) w in
           let w := emit (ThreadStarted watcher t watch_key) w in
           let w := emit (LogInfo (started_message t)) w in
           Returns tt w
       end)
    w.

Definition register_namespace_watch (namespace : string) (client_queue : nat) : World -> outcome unit :=
  register (WatchNamespace namespace) client_queue.

Definition register_single_watch (namespace name : string) (client_queue : nat) : World -> outcome unit :=
  register (WatchSingle namespace name) client_queue.

Definition register_event_watch (namespace isvc_name : string) (client_queue : nat) : World -> outcome unit :=
  register (WatchEvents namespace isvc_name) client_queue.

(** [d.pop(k, None)] on one of the watcher tables. *)
Definition pop (s : scope) (k : string) (w : World) : option nat * World :=
  (table s w !! k, set_table s (delete k (table s w)) w).

(** [_stop_watcher(watch_key)]. *)
Definition _stop_watcher (watch_key : string) (w : World) : World :=
  let '(watcher, w) :=
    if PyStr.startswith "ns:" watch_key then pop NamespaceList watch_key w
    else if PyStr.startswith "isvc:" watch_key then pop SingleObject watch_key w
    else if PyStr.startswith "events:" watch_key then pop EventList watch_key w
    else (None, w) in
  match watcher with
  | Some watcher =>
      emit (LogInfo ("Stopped watcher: " +:+ watch_key)) (stop watcher w)
  | None => w
  end.

(** [unregister_client(watch_key, client_queue)]. *)
Definition unregister_client (watch_key : string) (client_queue : nat)
           (w : World) : outcome unit :=
  with_lock watch_key
    (fun w =>
       let w := touch watch_key w in
       let removed :=
         if list_mem client_queue (queues_of watch_key w) then
           match list_remove client_queue (queues_of watch_key w) with
           | Some l => Returns tt (set_client_queues watch_key l w)
           | None => Raises "ValueError" w
           end
         else Returns tt w in
       match removed with
       | Returns _ w =>
           if Nat.eqb (length (queues_of watch_key w)) 0
           then Returns tt (_stop_watcher watch_key w)
           else Returns tt w
       | other => other
       end)
    w.

(** The first loop of [_broadcast_event]: put the envelope on every queue
    of the list, collecting in [dead_queues] those whose [put] raises. *)
Fixpoint deliver (event_data : json) (qs : list nat) (dead_queues : list nat)
         (w : World) : outcome (list nat) :=
  match qs with
  | [] => Returns dead_queues w
  | queue :: rest =>
      match queue_put queue event_data w with
      | PutOk w' => deliver event_data rest dead_queues w'
      | PutRaises e =>
          deliver event_data rest (dead_queues ++ [queue])
                  (emit (LogError ("Error sending event to client: " +:+ e)) w)
      | PutBlocks => Blocked (WaitNotFull queue) w
      end
  end.

(** The second loop: remove every dead queue from the key's list. *)
Fixpoint evict (watch_key : string) (dead_queues : list nat)
         (w : World) : outcome unit :=
  match dead_queues with
  | [] => Returns tt w
  | queue :: rest =>
      match list_remove queue (queues_of watch_key w) with
      | Some l => evict watch_key rest (set_client_queues watch_key l w)
      | None => Raises "ValueError" w
      end
  end.

(** The envelope built by [_broadcast_event]. *)
Definition envelope (event_type : string) (obj : json) : json :=
  JDict [("type", JStr event_type); ("object", obj)].

(** [_broadcast_event(watch_key, event_type, obj)]. *)
Definition _broadcast_event (watch_key : string) (event_type : string)
           (obj : json) (w : World) : outcome unit :=
  let event_data := envelope event_type obj in
  with_lock watch_key
    (fun w =>
       let w := touch watch_key w in
       match deliver event_data (queues_of watch_key w) [] w with
       | Returns dead_queues w => evict watch_key dead_queues w
       | Raises e w => Raises e w
       | Blocked r w => Blocked r w
       end)
    w.

(** The closure handed to the watcher thread by [register_*]. *)
Definition event_callback (watch_key : string) : callback :=
  fun event_type obj => _broadcast_event watch_key event_type obj.

(* ================================================================== *)
(** ** routes.py: the event_stream generators *)
(* ================================================================== *)

(** The local variables of a running [event_stream()]. *)
Record Session : Type := mkSession {
  target : thread_target;
  client_queue : nat;
  last_heartbeat : Z
}.

Definition heartbeat_interval : Z := 30.

(** What one pass through the body of [while True] does: it yields a
    chunk, or passes without output (the [continue] after a timeout that
    is not yet due a heartbeat), or an exception leaves the loop. *)
Inductive iteration : Type :=
| Yielded (chunk : string) (s : Session) (w : World)
| Silent (s : Session) (w : World)
| Escaped (e : string) (w : World).

Definition loop_body (s : Session) (w : World) : iteration :=
  match queue_get (client_queue s) 1 w with
  | GetItem event_data w =>
      match Json.getitem event_data "type" with
      | Some (JStr ty) =>
          Yielded (_format_sse_message (PyStr.lower ty) event_data)
                  (mkSession (target s) (client_queue s) (clock w)) w
      | _ => Escaped "type" w
      end
  | GetEmpty w =>
      if (clock w - last_heartbeat s >? heartbeat_interval)%Z then
        Yielded _send_heartbeat
                (mkSession (target s) (client_queue s) (clock w)) w
      else Silent s w
  | GetRaises e => Escaped e w
  end.

(** The chunks yielded by [n] passes, each with the time of its emission;
    the run ends early when an exception leaves the loop. *)
Fixpoint run_loop (n : nat) (s : Session) (w : World) : list (Z * string) :=
  match n with
  | O => []
  | S n' =>
      match loop_body s w with
      | Yielded chunk s' w' => (clock w', chunk) :: run_loop n' s' w'
      | Silent s' w' => run_loop n' s' w'
      | Escaped _ _ => []
      end
  end.

(** As [run_loop], but with a pause of its own before each pass (the
    time the consumer of the stream takes, scheduling): the passes need
    not be exactly one time unit apart. *)
Fixpoint run_loop_paused (pauses : list Z) (s : Session) (w : World) : list (Z * string) :=
  match pauses with
  | [] => []
  | d :: rest =>
      match loop_body s (advance d w) with
      | Yielded chunk s' w' => (clock w', chunk) :: run_loop_paused rest s' w'
      | Silent s' w' => run_loop_paused rest s' w'
      | Escaped _ _ => []
      end
  end.

Definition error_message (e : string) : string :=
  _format_sse_message "error" (JDict [("type", JStr "ERROR"); ("message", JStr e)]).

(** The [except Exception as e] handler of [event_stream]: log,
    unregister, then yield the terminal error event. *)
Definition on_exception (t : thread_target) (q : nat) (e : string)
           (w : World) : outcome string :=
  let w := emit (LogError ("Error in SSE stream: " +:+ e)) w in
  match unregister_client (watch_key_of t) q w with
  | Returns _ w => Returns (error_message e) w
  | Raises e' w => Raises e' w
  | Blocked r w => Blocked r w
  end.

Definition disconnected_message (t : thread_target) : string :=
  match t with
  | WatchNamespace namespace =>
      "Client disconnected from namespace watch: " +:+ namespace
  | WatchSingle namespace name =>
      "Client disconnected from single watch: " +:+ namespace +:+ "/" +:+ name
  | WatchEvents namespace name =>
      "Client disconnected from event watch: " +:+ namespace +:+ "/" +:+ name
  end.

(** The [except GeneratorExit] handler. *)
Definition on_disconnect (t : thread_target) (q : nat) (w : World) : outcome unit :=
  unregister_client (watch_key_of t) q (emit (LogInfo (disconnected_message t)) w).

(** The first event of a stream: the snapshot, under ["items"] for the
    two list streams and under ["object"] for the single-object stream. *)
Definition initial_event (t : thread_target) (payload : json) : json :=
  match t with
  | WatchSingle _ _ => JDict [("type", JStr "INITIAL"); ("object", payload)]
  | _ => JDict [("type", JStr "INITIAL"); ("items", payload)]
  end.

(** The start of [event_stream()], up to the entry into the loop: create
    the queue, fetch the snapshot, yield it, register.  [snapshot] is what
    the fetch does: it raises ([inl]) or returns the payload of the INITIAL
    event ([inr]).  The result lists the chunks yielded and gives, when the
    session goes on, its local variables. *)
Definition open_stream (t : thread_target) (snapshot : string + json)
           (w : World) : outcome (list string * option Session) :=
  let '(client_queue, w) := new_queue 100 w in
  match snapshot with
  | inl e =>
      match on_exception t client_queue e w with
      | Returns chunk w => Returns ([chunk], None) w
      | Raises e' w => Raises e' w
      | Blocked r w => Blocked r w
      end
  | inr payload =>
      let chunk := _format_sse_message "initial" (initial_event t payload) in
      match register t client_queue w with
      | Returns _ w =>
          Returns ([chunk], Some (mkSession t client_queue (clock w))) w
      | Raises e w =>
          match on_exception t client_queue e w with
          | Returns chunk' w => Returns ([chunk; chunk'], None) w
          | Raises e' w => Raises e' w
          | Blocked r w => Blocked r w
          end
      | Blocked r w => Blocked r w
      end
  end.

(* ================================================================== *)
(** ** Sequences of calls, and predicates on states *)
(* ================================================================== *)

(** The calls one after the other, stopping at the first that does not
    return. *)
Fixpoint register_all (t : thread_target) (qs : list nat) (w : World) : outcome unit :=
  match qs with
  | [] => Returns tt w
  | q :: rest =>
      match register t q w with
      | Returns _ w' => register_all t rest w'
      | other => other
      end
  end.

Fixpoint unregister_all (watch_key : string) (qs : list nat) (w : World) : outcome unit :=
  match qs with
  | [] => Returns tt w
  | q :: rest =>
      match unregister_client watch_key q w with
      | Returns _ w' => unregister_all watch_key rest w'
      | other => other
      end
  end.

Fixpoint broadcast_all (watch_key : string) (evs : list (string * json)) (w : World) : outcome unit :=
  match evs with
  | [] => Returns tt w
  | (event_type, obj) :: rest =>
      match _broadcast_event watch_key event_type obj w with
      | Returns _ w' => broadcast_all watch_key rest w'
      | other => other
      end
  end.

(** The calls of the manager that are not a [register_*]. *)
Inductive call : Type :=
| Unregister (watch_key : string) (client_queue : nat)
| Broadcast (watch_key : string) (event_type : string) (obj : json).

Definition run_call (c : call) (w : World) : outcome unit :=
  match c with
  | Unregister k q => unregister_client k q w
  | Broadcast k ty obj => _broadcast_event k ty obj w
  end.

Fixpoint run_calls (cs : list call) (w : World) : outcome unit :=
  match cs with
  | [] => Returns tt w
  | c :: rest =>
      match run_call c w with
      | Returns _ w' => run_calls rest w'
      | other => other
      end
  end.

(** [put] on [q] would raise now. *)
Definition put_raises (w : World) (q : nat) : bool :=
  match queues w !! q with
  | Some Q => is_shutdown Q
  | None => true
  end.

(** The message of the exception [put] raises on [q]. *)
Definition put_error (w : World) (q : nat) : string :=
  match queues w !! q with
  | Some _ => "ShutDown"
  | None => "object has no attribute 'put'"
  end.

(** The line logged when the [put] on [q] raises. *)
Definition delivery_error (w : World) (q : nat) : effect :=
  LogError ("Error sending event to client: " +:+ put_error w q).

(** The items waiting in [q]. *)
Definition pending (w : World) (q : nat) : list json :=
  match queues w !! q with
  | Some Q => items Q
  | None => []
  end.

(** Nothing is attached to [k], no watcher is stored for it, and no thread
    is inside its lock. *)
Definition idle (k : string) (w : World) : Prop :=
  queues_of k w = [] /\ lock_held k w = false /\
  forall s, table s w !! k = None.

(** From [w] to [w'] no watcher object was constructed, no key without
    a stored watcher got one, and no stopped watcher runs again. *)
Definition steady (w w' : World) : Prop :=
  length (watchers w') = length (watchers w)
  /\ (forall s k, table s w !! k = None -> table s w' !! k = None)
  /\ (forall self, stop_requested self w = true -> stop_requested self w' = true).

(** An attempt that yields nothing and fails. *)
Definition failure (err : bool * string) : attempt :=
  mkAttempt [] (if fst err then ApiException (snd err) else OtherException (snd err)).

(** A callback that fails on events of type ["BAD"] and broadcasts the
    others under [k]. *)
Definition picky_callback (k : string) : callback :=
  fun event_type obj w =>
    if String.eqb event_type "BAD" then Raises "boom" w
    else _broadcast_event k event_type obj w.

(** A slow client: [a] is attached under the key of namespace [team-a]
    and receives one hundred events that its session does not consume;
    then [b] attaches. *)
Definition slow_client : nat * nat * World :=
  let '(a, w) := new_queue 100 init in
  let '(b, w) := new_queue 100 w in
  let w := world_of (register_namespace_watch "team-a" a w) in
  let w := world_of (broadcast_all "ns:team-a"
                       (repeat ("MODIFIED", JDict [("n", JInt 0)]) 100) w) in
  let w := world_of (register_namespace_watch "team-a" b w) in
  (a, b, w).

(** [q.shutdown()]. *)
Definition queue_shutdown (q : nat) (w : World) : World :=
  match queues w !! q with
  | Some Q => set_queue q (mkQueue (maxsize Q) (items Q) true) w
  | None => w
  end.

(** Two clients of namespace [team-a], the first of which has shut its
    queue down. *)
Definition one_dead_client : World :=
  let '(a, w) := new_queue 100 init in
  let '(b, w) := new_queue 100 w in
  let w := world_of (register_namespace_watch "team-a" a w) in
  let w := world_of (register_namespace_watch "team-a" b w) in
  queue_shutdown a w.

(** The payload and the bytes of the MODIFIED example. *)
Definition object_x : json := JDict [("metadata", JDict [("name", JStr "x")])].

Definition quoted (s : string) : string := Json.quote +:+ s +:+ Json.quote.

Definition modified_x_bytes : string :=
  "event: modified" +:+ nl +:+
  "data: {" +:+ quoted "type" +:+ ": " +:+ quoted "MODIFIED" +:+ ", " +:+
  quoted "object" +:+ ": {" +:+ quoted "metadata" +:+ ": {" +:+
  quoted "name" +:+ ": " +:+ quoted "x" +:+ "}}}" +:+ nl +:+ nl.

(* ================================================================== *)
(** ** Sequences of manager calls *)
(* ================================================================== *)

(** Any call of the manager's public and callback interface. *)
Inductive request : Type :=
| Attach (t : thread_target) (client_queue : nat)
| Detach (watch_key : string) (client_queue : nat)
| Publish (watch_key : string) (event_type : string) (obj : json).

Definition run_request (r : request) (w : World) : outcome unit :=
  match r with
  | Attach t q => register t q w
  | Detach k q => unregister_client k q w
  | Publish k ty obj => _broadcast_event k ty obj w
  end.

Fixpoint run_requests (rs : list request) (w : World) : outcome unit :=
  match rs with
  | [] => Returns tt w
  | r :: rest =>
      match run_request r w with
      | Returns _ w' => run_requests rest w'
      | other => other
      end
  end.

(** The key whose lock a call takes. *)
Definition key_of (r : request) : string :=
  match r with
  | Attach t _ => watch_key_of t
  | Detach k _ => k
  | Publish k _ _ => k
  end.

(** The envelopes of a sequence of upstream events. *)
Definition envelopes (evs : list (string * json)) : list json :=
  map (fun ev => envelope (fst ev) (snd ev)) evs.

(** The bytes on the wire for an upstream event: the event line carries
    the type in lower case, the data line the envelope. *)
Definition frame (ev : string * json) : string :=
  "event: " +:+ PyStr.lower (fst ev) +:+ nl +:+
  "data: " +:+ Json.dumps (envelope (fst ev) (snd ev)) +:+ nl +:+ nl.

(** All characters of a string satisfy [p]. *)
Fixpoint all_chars (p : ascii -> bool) (s : string) : bool :=
  match s with
  | EmptyString => true
  | String c r => p c && all_chars p r
  end.

(** Printable ASCII: space to tilde. *)
Definition printable (c : ascii) : bool := PyStr.in_range 32 126 c.

(** The elementary state changes of which every call and every session
    pass is made.  [may_attach w q] says which queues may be appended to a
    list in state [w]. *)
Inductive mutation (may_attach : World -> nat -> Prop) : World -> World -> Prop :=
| mut_lock (k : string) (held : bool) (w : World) :
    mutation may_attach w (set_lock k held w)
| mut_touch (k : string) (w : World) :
    _client_queues w !! k = None ->
    mutation may_attach w (set_client_queues k [] w)
| mut_attach (k : string) (q : nat) (w : World) :
    may_attach w q ->
    mutation may_attach w (set_client_queues k (queues_of k w ++ [q]) w)
| mut_detach (k : string) (q : nat) (l : list nat) (w : World) :
    list_remove q (queues_of k w) = Some l ->
    mutation may_attach w (set_client_queues k l w)
| mut_new_queue (q : nat) (w : World) :
    queues w !! q = None ->
    mutation may_attach w (set_queue q (mkQueue 100 [] false) w)
| mut_put (q : nat) (Q : Queue) (item : json) (w : World) :
    queues w !! q = Some Q -> is_shutdown Q = false -> is_full Q = false ->
    mutation may_attach w
             (set_queue q (mkQueue (maxsize Q) (items Q ++ [item]) false) w)
| mut_get (q : nat) (Q : Queue) (item : json) (rest : list json) (w : World) :
    queues w !! q = Some Q -> items Q = item :: rest ->
    mutation may_attach w
             (set_queue q (mkQueue (maxsize Q) rest (is_shutdown Q)) w)
| mut_emit (e : effect) (w : World) :
    mutation may_attach w (emit e w)
| mut_advance (d : Z) (w : World) :
    mutation may_attach w (advance d w)
| mut_watchers (ws : list Watcher) (w : World) :
    mutation may_attach w (set_watchers ws w)
| mut_table (s : scope) (t : gmap string nat) (w : World) :
    mutation may_attach w (set_table s t w).

(** Any queue. *)
Definition any_queue : World -> nat -> Prop := fun _ _ => True.

(** A queue that exists and is in no list. *)
Definition unattached : World -> nat -> Prop :=
  fun w q => is_Some (queues w !! q) /\ forall k, q ∉ queues_of k w.

(** What the threads of the process do: a call of the manager, the start
    of a stream, a pass of a session's loop, the end of a session. *)
Inductive action : Type :=
| Call (r : request)
| Open (t : thread_target) (snapshot : string + json)
| Pass (s : Session)
| Disconnect (t : thread_target) (client_queue : nat)
| Fail (t : thread_target) (client_queue : nat) (e : string).

(** The state an action leaves, whether it returned, raised or is
    waiting. *)
Definition run_action (a : action) (w : World) : World :=
  match a with
  | Call r => world_of (run_request r w)
  | Open t snapshot => world_of (open_stream t snapshot w)
  | Pass s =>
      match loop_body s w with
      | Yielded _ _ w' => w'
      | Silent _ w' => w'
      | Escaped _ w' => w'
      end
  | Disconnect t q => world_of (on_disconnect t q w)
  | Fail t q e => world_of (on_exception t q e w)
  end.

Definition run_actions (acts : list action) (w : World) : World :=
  fold_left (fun w a => run_action a w) acts w.

(** From [w] to [w'] no key was removed from the lock table or from the
    table of queue lists. *)
Definition grows (w w' : World) : Prop :=
  dom (_locks w) ⊆ dom (_locks w')
  /\ dom (_client_queues w) ⊆ dom (_client_queues w').

(** The actions that the routes and the watcher threads perform: streams
    are opened by [open_stream], which creates the queue it registers;
    nothing else registers a queue. *)
Definition from_routes (a : action) : Prop :=
  match a with
  | Call (Attach _ _) => False
  | _ => True
  end.

(** The shape of the states the routes can produce: every queue is a
    working [Queue(maxsize=100)] within its capacity; the lists hold
    existing queues, each once, and no queue is in the lists of two keys. *)
Definition well_formed (w : World) : Prop :=
  (forall q Q, queues w !! q = Some Q ->
               maxsize Q = 100%Z /\ is_shutdown Q = false /\ length (items Q) <= 100)
  /\ (forall k q, q ∈ queues_of k w -> is_Some (queues w !! q))
  /\ (forall k, NoDup (queues_of k w))
  /\ (forall k k' q, q ∈ queues_of k w -> q ∈ queues_of k' w -> k = k').

(** The events of all the streams of [upstream], in order of arrival. *)
Definition upstream_events (upstream : list attempt) : list (string * json) :=
  flat_map events upstream.

(** The attempt ends with an exception. *)
Definition failed (a : attempt) : bool :=
  match ending a with
  | StreamEnds => false
  | _ => true
  end.

(** Two streams: the first yields an event and breaks, the second yields
    an event and ends. *)
Definition two_streams : list attempt :=
  [mkAttempt [("ADDED", object_x)] (ApiException "gone");
   mkAttempt [("MODIFIED", object_x)] StreamEnds].

(* ================================================================== *)
(** ** Allow-lists *)
(* ================================================================== *)

(** [sep.join(l)]. *)
Fixpoint join (sep : string) (l : list string) : string :=
  match l with
  | [] => EmptyString
  | [x] => x
  | x :: r => x +:+ sep +:+ join sep r
  end.

(** [c in s]. *)
Fixpoint contains (c : ascii) (s : string) : bool :=
  match s with
  | EmptyString => false
  | String c' r => Ascii.eqb c' c || contains c r
  end.

(** A name as it comes out of the allow-list: not empty, without comma,
    without white space at either end. *)
Definition clean (ns : string) : Prop :=
  ns <> EmptyString /\ contains "," ns = false /\ PyStr.strip ns = ns.

(* ================================================================== *)
(** ** routes.py: the logs of an InferenceService *)
(* ================================================================== *)

(** What the cluster and the helpers of [utils] answer at one moment.  A
    call raises ([inl], with the message of the exception) or returns
    ([inr]).  A dict of pods per component is the list of its items, in
    the order of iteration. *)
Record Backend : Type := mkBackend {
  get_deployment_mode : json -> string + string;
  get_modelmesh_pods : json -> list string -> string + list (string * list string);
  get_standard_inference_service_pods :
    json -> list string -> string + list (string * list string);
  get_inference_service_pods : json -> list string -> string + list (string * list string);
  get_pod_logs : json -> string -> string + string
}.

(** [v[k]] with the message of the exception it raises: a KeyError on a
    dict without the key, a TypeError on a value that is not a dict. *)
Definition subscript (v : json) (k : string) : string + json :=
  match v with
  | JDict kv =>
      match Json.assoc k kv with
      | Some x => inr x
      | None => inl ("'" +:+ k +:+ "'")
      end
  | JNull => inl "'NoneType' object is not subscriptable"
  | JBool _ => inl "'bool' object is not subscriptable"
  | JInt _ => inl "'int' object is not subscriptable"
  | JStr _ => inl "string indices must be integers, not 'str'"
  | JList _ => inl "list indices must be integers or slices, not str"
  end.

Definition newline : ascii := ascii_of_N 10.

(** The dict [resp], as the list of its items. *)
Definition resp_dict : Type := list (string * list json).

(** [component in resp]. *)
Definition resp_mem (component : string) (resp : resp_dict) : bool :=
  existsb (fun item => String.eqb component (fst item)) resp.

(** [resp[component] = value]: an existing key keeps its place. *)
Fixpoint resp_set (component : string) (value : list json) (resp : resp_dict) : resp_dict :=
  match resp with
  | [] => [(component, value)]
  | (c, l) :: rest =>
      if String.eqb component c then (c, value) :: rest
      else (c, l) :: resp_set component value rest
  end.

(** [resp[component].append(x)], for a key that is present. *)
Fixpoint resp_append (component : string) (x : json) (resp : resp_dict) : resp_dict :=
  match resp with
  | [] => []
  | (c, l) :: rest =>
      if String.eqb component c then (c, l ++ [x]) :: rest
      else (c, l) :: resp_append component x rest
  end.

(** The two entries a pod can get. *)
Definition logs_entry (pod : string) (logs : string) : json :=
  JDict [("podName", JStr pod); ("logs", JList (map JStr (PyStr.split newline logs)))].

Definition error_entry (pod : string) (e : string) : json :=
  JDict [("podName", JStr pod); ("logs", JList [JStr ("Error retrieving logs: " +:+ e)])].

(** The inner loop, [for pod in pods]. *)
Fixpoint for_pods (B : Backend) (namespace : json) (component : string)
         (pods : list string) (resp : resp_dict) (w : World) : resp_dict * World :=
  match pods with
  | [] => (resp, w)
  | pod :: rest =>
      match get_pod_logs B namespace pod with
      | inr logs =>
          for_pods B namespace component rest
                   (resp_append component (logs_entry pod logs) resp) w
      | inl e =>
          let w := emit (LogError ("Error getting logs for pod " +:+ pod +:+ ": " +:+ e)) w in
          for_pods B namespace component rest
                   (resp_append component (error_entry pod e) resp) w
      end
  end.

(** The outer loop, [for component, pods in component_pods_dict.items()]. *)
Fixpoint for_components (B : Backend) (namespace : json)
         (component_pods_dict : list (string * list string))
         (resp : resp_dict) (w : World) : resp_dict * World :=
  match component_pods_dict with
  | [] => (resp, w)
  | (component, pods) :: rest =>
      let resp := if resp_mem component resp then resp else resp_set component [] resp in
      let '(resp, w) := for_pods B namespace component pods resp w in
      for_components B namespace rest resp w
  end.

(** The dict returned, as a JSON value. *)
Definition resp_json (resp : resp_dict) : json :=
  JDict (map (fun item => (fst item, JList (snd item))) resp).

(** The choice of the helper by deployment mode. *)
Definition pods_for (B : Backend) (deployment_mode : string) (svc : json)
           (components : list string) : string + list (string * list string) :=
  if String.eqb deployment_mode "ModelMesh"
  then get_modelmesh_pods B svc components
  else if String.eqb deployment_mode "Standard"
  then get_standard_inference_service_pods B svc components
  else get_inference_service_pods B svc components.

(** [_get_logs_for_service(svc, components)]: the exception that leaves
    it ([inl]) or the dict it returns ([inr]). *)
Definition _get_logs_for_service (B : Backend) (svc : json) (components : list string)
           (w : World) : (string + json) * World :=
  match subscript svc "metadata" with
  | inl e => (inl e, w)
  | inr metadata =>
      match subscript metadata "namespace" with
      | inl e => (inl e, w)
      | inr namespace =>
          match get_deployment_mode B svc with
          | inl e => (inl e, w)
          | inr deployment_mode =>
              match pods_for B deployment_mode svc components with
              | inl e => (inl e, w)
              | inr [] => (inr (JDict []), w)
              | inr component_pods_dict =>
                  let '(resp, w) := for_components B namespace component_pods_dict [] w in
                  (inr (resp_json resp), w)
              end
          end
      end
  end.

(** The entry of a pod and what is logged for it. *)
Definition pod_entry (B : Backend) (namespace : json) (pod : string) : json :=
  match get_pod_logs B namespace pod with
  | inr logs => logs_entry pod logs
  | inl e => error_entry pod e
  end.

Definition pod_errors (B : Backend) (namespace : json) (pod : string) : list effect :=
  match get_pod_logs B namespace pod with
  | inr _ => []
  | inl e => [LogError ("Error getting logs for pod " +:+ pod +:+ ": " +:+ e)]
  end.

Definition poll_interval : Z := 3.

(** One pass through the [while True] of the logs stream.  [duration] is
    the time the fetch takes.  The result is the chunk yielded, if any,
    the new value of [last_heartbeat], and the state after the sleep. *)
Definition logs_loop_body (B : Backend) (duration : Z) (svc : json)
           (components : list string) (last_heartbeat : Z) (w : World)
  : option string * Z * World :=
  match _get_logs_for_service B svc components (advance duration w) with
  | (inr logs_data, w) =>
      let chunk :=
        _format_sse_message "update" (JDict [("type", JStr "UPDATE"); ("logs", logs_data)]) in
      (Some chunk, clock w, advance poll_interval (emit (Slept poll_interval) w))
  | (inl e, w) =>
      let w := emit (LogError ("Error fetching logs: " +:+ e)) w in
      if (clock w - last_heartbeat >? heartbeat_interval)%Z then
        (Some _send_heartbeat, clock w, advance poll_interval (emit (Slept poll_interval) w))
      else
        (None, last_heartbeat, advance poll_interval (emit (Slept poll_interval) w))
  end.

(** The chunks yielded by the passes of the loop, each with the time of
    its emission; [polls] gives for each pass the duration of the fetch
    and the answers of the cluster at that time. *)
Fixpoint logs_loop (polls : list (Z * Backend)) (svc : json) (components : list string)
         (last_heartbeat : Z) (w : World) : list (Z * string) * World :=
  match polls with
  | [] => ([], w)
  | (duration, B) :: later =>
      let '(chunk, last_heartbeat', w') :=
        logs_loop_body B duration svc components last_heartbeat w in
      let '(chunks, w'') := logs_loop later svc components last_heartbeat' w' in
      (match chunk with
       | Some c => (last_heartbeat', c) :: chunks
       | None => chunks
       end, w'')
  end.

(** [event_stream()] of [stream_inference_service_logs]: fetch the
    InferenceService, then poll.  A failure of the first fetch is logged
    and ends the stream with an error event. *)
Definition logs_event_stream (get_custom_rsrc : string + json) (components : list string)
           (polls : list (Z * Backend)) (w : World) : list (Z * string) * World :=
  match get_custom_rsrc with
  | inl e =>
      let w := emit (LogError ("Error in logs SSE stream: " +:+ e)) w in
      ([(clock w, error_message e)], w)
  | inr svc => logs_loop polls svc components (clock w) w
  end.

(** What a poll answers, apart from what it logs. *)
Definition poll_result (B : Backend) (svc : json) (components : list string) : string + json :=
  fst (_get_logs_for_service B svc components init).

(** The chunk of a successful poll. *)
Definition update_frame (logs_data : json) : string :=
  _format_sse_message "update" (JDict [("type", JStr "UPDATE"); ("logs", logs_data)]).

Definition is_heartbeat (chunk : string) : bool := String.eqb chunk _send_heartbeat.

(** The time of the chunk before each chunk of a stream that started at
    [start]. *)
Fixpoint with_previous (start : Z) (chunks : list (Z * string)) : list (Z * (Z * string)) :=
  match chunks with
  | [] => []
  | (t, c) :: rest => (start, (t, c)) :: with_previous t rest
  end.

(** A service of namespace [team-a]. *)
Definition service_x : json :=
  JDict [("metadata", JDict [("name", JStr "x"); ("namespace", JStr "team-a")])].

(** A cluster in standard mode in which the predictor of a service has
    two pods; the logs of the first are two lines, those of the second
    cannot be read. *)
Definition flaky_backend : Backend :=
  mkBackend
    (fun _ => inr "Standard")
    (fun _ _ => inl "no modelmesh")
    (fun _ _ => inr [("predictor", ["p-0"; "p-1"])])
    (fun _ _ => inl "no knative")
    (fun _ pod =>
       if String.eqb pod "p-0" then inr ("loading" +:+ nl +:+ "ready")
       else inl "pod not found").

(** A cluster whose helpers all fail. *)
Definition broken_backend : Backend :=
  mkBackend (fun _ => inl "unreachable") (fun _ _ => inl "unreachable")
            (fun _ _ => inl "unreachable") (fun _ _ => inl "unreachable")
            (fun _ _ => inl "unreachable").

(** [w] after the lines [tr] were logged. *)
Definition logged (tr : list effect) (w : World) : World :=
  mkWorld (_namespace_watchers w) (_single_watchers w) (_event_watchers w)
          (_client_queues w) (_locks w) (queues w) (watchers w) (clock w)
          (trace w ++ tr).

(** The chunks of the successful polls. *)
Definition updates (polls : list (Z * Backend)) (svc : json) (components : list string)
  : list string :=
  flat_map (fun poll => match poll_result (snd poll) svc components with
                        | inr logs_data => [update_frame logs_data]
                        | inl _ => []
                        end) polls.

(** The time the fetches of [polls] take. *)
Definition fetch_time (polls : list (Z * Backend)) : Z :=
  fold_right Z.add 0%Z (map fst polls).

(* ================================================================== *)
(** ** manager.py: get_manager *)
(* ================================================================== *)

(** Where a thread is in [get_manager()].  A manager object is named by
    its number in the order of construction. *)
Inductive position : Type :=
| AtOuterCheck                       (* if _manager_instance is None: *)
| AtAcquire                          (*     with _manager_lock: *)
| AtInnerCheck                       (*         if _manager_instance is None: *)
| AtConstruct                        (*             SSEConnectionManager() *)
| AtAssign (manager : nat)           (*             _manager_instance = ... *)
| AtRelease                          (*     (end of the with block) *)
| AtReturn                           (* return _manager_instance *)
| Done (result : option nat).

(** The module's globals, the number of managers constructed so far, and
    the threads that have called [get_manager()]. *)
Record Process : Type := mkProcess {
  _manager_instance : option nat;
  _manager_lock : option nat;         (* the thread inside the lock *)
  constructed : nat;
  threads : list position
}.

(** [n] threads at the start of their call, in a module just imported. *)
Definition start (n : nat) : Process :=
  mkProcess None None 0 (repeat AtOuterCheck n).

Definition goto (i : nat) (p : position) (g : Process) : Process :=
  mkProcess (_manager_instance g) (_manager_lock g) (constructed g)
            (<[i := p]> (threads g)).

(** One step of thread [i]; [None] when the thread cannot move (it waits
    for the lock, has returned, or does not exist). *)
Definition step (i : nat) (g : Process) : option Process :=
  match threads g !! i with
  | Some AtOuterCheck =>
      Some (goto i (match _manager_instance g with
                    | None => AtAcquire
                    | Some _ => AtReturn
                    end) g)
  | Some AtAcquire =>
      match _manager_lock g with
      | None =>
          Some (mkProcess (_manager_instance g) (Some i) (constructed g)
                          (<[i := AtInnerCheck]> (threads g)))
      | Some _ => None
      end
  | Some AtInnerCheck =>
      Some (goto i (match _manager_instance g with
                    | None => AtConstruct
                    | Some _ => AtRelease
                    end) g)
  | Some AtConstruct =>
      Some (mkProcess (_manager_instance g) (_manager_lock g) (S (constructed g))
                      (<[i := AtAssign (constructed g)]> (threads g)))
  | Some (AtAssign manager) =>
      Some (mkProcess (Some manager) (_manager_lock g) (constructed g)
                      (<[i := AtRelease]> (threads g)))
  | Some AtRelease =>
      Some (mkProcess (_manager_instance g) None (constructed g)
                      (<[i := AtReturn]> (threads g)))
  | Some AtReturn => Some (goto i (Done (_manager_instance g)) g)
  | Some (Done _) => None
  | None => None
  end.

(** The threads move in the order of [schedule]; a thread that cannot
    move when its turn comes stays where it is. *)
Fixpoint run (schedule : list nat) (g : Process) : Process :=
  match schedule with
  | [] => g
  | i :: later => run later (match step i g with Some g' => g' | None => g end)
  end.

(** The thread is inside the [with] block. *)
Definition in_lock (p : position) : bool :=
  match p with
  | AtInnerCheck | AtConstruct | AtAssign _ | AtRelease => true
  | _ => false
  end.

Definition returned (p : position) : bool :=
  match p with Done _ => true | _ => false end.

(** What holds of the globals and the threads at every moment. *)
Definition singleton_invariant (g : Process) : Prop :=
  (forall i p, threads g !! i = Some p -> in_lock p = true -> _manager_lock g = Some i)
  /\ (forall i, _manager_lock g = Some i ->
                exists p, threads g !! i = Some p /\ in_lock p = true)
  /\ match _manager_instance g with
     | Some m => m = 0 /\ constructed g = 1
     | None => constructed g = 0
               \/ (constructed g = 1 /\ exists i, threads g !! i = Some (AtAssign 0))
     end
  /\ (forall i p, threads g !! i = Some p ->
        match p with
        | AtConstruct => _manager_instance g = None /\ constructed g = 0
        | AtAssign m => m = 0 /\ _manager_instance g = None /\ constructed g = 1
        | AtRelease | AtReturn => _manager_instance g = Some 0
        | Done r => r = Some 0 /\ _manager_instance g = Some 0
        | _ => True
        end).

(** The namespace of a subscription. *)
Definition namespace_of (t : thread_target) : string :=
  match t with
  | WatchNamespace namespace => namespace
  | WatchSingle namespace _ => namespace
  | WatchEvents namespace _ => namespace
  end.

(** Two threads that both find no manager before either takes the lock:
    the first constructs it while the second waits, then the second
    finds it inside the lock. *)
Definition racing_schedule : list nat := [0; 1; 0; 1; 0; 0; 0; 0; 0; 1; 1; 1; 1].

(* ================================================================== *)
(** * Properties *)
(* ================================================================== *)

(** ** Lists and strings *)

Lemma mem_true (x : string) (l : list string) :
  PyStr.mem x l = true <-> x ∈ l.
Proof.
  unfold PyStr.mem. rewrite existsb_exists, list_elem_of_In. split.
  - intros (y & Hy & Heq). apply String.eqb_eq in Heq. now subst.
  - intros H. exists x. split; [exact H | apply String.eqb_refl].
Qed.

Lemma mem_false (x : string) (l : list string) :
  PyStr.mem x l = false <-> x ∉ l.
Proof.
  rewrite <- mem_true. destruct (PyStr.mem x l); split; congruence.
Qed.

Lemma filter_elem (f : string -> bool) (l : list string) (x : string) :
  x ∈ List.filter f l <-> x ∈ l /\ f x = true.
Proof. rewrite !list_elem_of_In. apply filter_In. Qed.



(** ** get_namespaces *)

Lemma parse_allowed_empty : Get.parse_allowed EmptyString = [].
Proof. reflexivity. Qed.

(** C8.  With the allow-list [a, ghost] and the cluster namespaces a, b, c
    the answer is exactly [a] and one warning names ghost.  In general,
    for a non-empty allow-list: when none of its entries is a namespace of
    the cluster, the answer is the whole unfiltered list (and the fallback
    is logged); otherwise the answer consists of exactly the entries that
    exist in the cluster, and the entries that do not are exactly those
    named in the warning (no warning when there is none). *)
Theorem allow_list_filtering :
  Get.get_namespaces (inr ["a"; "b"; "c"]) (Some "a,ghost")
  = (Get.success_response "namespaces" ["a"], [invalid_warning ["ghost"]])
  /\
  forall (names : list string) (env : string) (allowed : list string),
    Get.parse_allowed (PyStr.strip env) = allowed ->
    allowed <> [] ->
    exists visible logged,
      Get.get_namespaces (inr names) (Some env)
      = (Get.success_response "namespaces" visible, logged)
      /\ ((forall ns, ns ∈ allowed -> ns ∉ names) ->
          visible = names /\ logged = [none_exist_warning])
      /\ ((exists ns, ns ∈ allowed /\ ns ∈ names) ->
          (forall ns, ns ∈ visible <-> ns ∈ allowed /\ ns ∈ names)
          /\ exists invalid,
              (forall ns, ns ∈ invalid <-> ns ∈ allowed /\ ns ∉ names)
              /\ logged = match invalid with
                          | [] => []
                          | _ => [invalid_warning invalid]
                          end).
Proof.
  split; [reflexivity|].
  intros names env allowed Hparse Hne.
  unfold Get.get_namespaces.
  destruct (PyStr.truthy (PyStr.strip env)) eqn:Htruthy; simpl.
  2:{ destruct (PyStr.strip env); [|discriminate].
      rewrite parse_allowed_empty in Hparse. congruence. }
  rewrite Hparse.
  destruct allowed as [|a0 rest] eqn:Hal; [congruence|]. rewrite <- Hal in *.
  set (valid := List.filter (fun ns => PyStr.mem ns names) allowed).
  set (invalid := List.filter (fun ns => negb (PyStr.mem ns names)) allowed).
  assert (Hvalid : forall ns, ns ∈ valid <-> ns ∈ allowed /\ ns ∈ names).
  { intros ns. unfold valid. rewrite filter_elem, mem_true. tauto. }
  assert (Hinvalid : forall ns, ns ∈ invalid <-> ns ∈ allowed /\ ns ∉ names).
  { intros ns. unfold invalid. rewrite filter_elem, negb_true_iff, mem_false. tauto. }
  destruct valid as [|v0 vs] eqn:Hv.
  - exists names, [none_exist_warning]. split; [reflexivity|]. split; [auto|].
    intros (ns & Ha & Hn).
    assert (Hin : ns ∈ @nil string) by (apply Hvalid; auto). inversion Hin.
  - rewrite <- Hv in *.
    exists valid, (match invalid with [] => [] | _ => [invalid_warning invalid] end).
    split.
    { rewrite Hv. reflexivity. }
    split.
    + intros Hnone. exfalso.
      assert (Hin : v0 ∈ valid) by (rewrite Hv; left).
      apply Hvalid in Hin as [Ha Hn]. exact (Hnone v0 Ha Hn).
    + intros _. split; [exact Hvalid|]. exists invalid. split; [exact Hinvalid|reflexivity].
Qed.

Lemma allow_list_filtering_witness :
  exists visible logged,
    Get.get_namespaces (inr ["a"; "b"; "c"]) (Some " a , ghost,,b ")
    = (Get.success_response "namespaces" visible, logged).
Proof.
  destruct allow_list_filtering as [_ H].
  destruct (H ["a"; "b"; "c"] " a , ghost,,b " ["a"; "ghost"; "b"]) as (v & l & Heq & _).
  - reflexivity.
  - discriminate.
  - exists v, l. exact Heq.
Defined.

(** ** The watcher loops *)

Lemma sleeps_app (l1 l2 : list effect) : sleeps (l1 ++ l2) = sleeps l1 ++ sleeps l2.
Proof. unfold sleeps. apply flat_map_app. Qed.

Lemma stop_requested_emit (self : nat) (e : effect) (w : World) :
  stop_requested self (emit e w) = stop_requested self w.
Proof. reflexivity. Qed.


(** One reconnect of a watcher that was not stopped sleeps exactly the
    initial delay, whatever happened before. *)
Lemma reconnect_sleeps_initial_delay (self : nat) (w : World) :
  stop_requested self w = false ->
  sleeps (trace (_reconnect_with_backoff self 1 32 w)) = sleeps (trace w) ++ [1%Z]
  /\ stop_requested self (_reconnect_with_backoff self 1 32 w) = false
  /\ watchers (_reconnect_with_backoff self 1 32 w) = watchers w.
Proof.
  intros Hs. unfold _reconnect_with_backoff. rewrite Hs. simpl.
  rewrite !sleeps_app. simpl. rewrite app_nil_r. auto.
Qed.

(** Any number of consecutive failures: one unit before each retry. *)
Lemma failures_sleep_one_each (errs : list (bool * string)) :
  forall (t : thread_target) (self : nat) (cb : callback) (w : World),
    stop_requested self w = false ->
    exists w',
      watch t self cb (map failure errs) w = Returns false w'
      /\ sleeps (trace w') = sleeps (trace w) ++ repeat 1%Z (length errs)
      /\ stop_requested self w' = false.
Proof.
  induction errs as [|[api e] errs IH]; intros t self cb w Hs.
  - exists w. simpl. rewrite Hs, app_nil_r. auto.
  - cbn [map watch failure events ending for_events fst snd].
    rewrite Hs. rewrite !stop_requested_emit, Hs.
    destruct api.
    + destruct (reconnect_sleeps_initial_delay self
                  (emit (LogError ("Watch stream error: " +:+ e))
                        (emit (LogInfo (starting_message t)) w)))
        as (Hsl & Hst & _); [exact Hs|].
      destruct (IH t self cb _ Hst) as (w' & Hw & Hsl' & Hst').
      exists w'. split; [exact Hw|]. split; [|exact Hst'].
      rewrite Hsl', Hsl. cbn [trace emit]. rewrite !sleeps_app. simpl.
      rewrite !app_nil_r, <- app_assoc. reflexivity.
    + destruct (reconnect_sleeps_initial_delay self
                  (emit (LogError ("Unexpected error in watch stream: " +:+ e))
                        (emit (LogInfo (starting_message t)) w)))
        as (Hsl & Hst & _); [exact Hs|].
      destruct (IH t self cb _ Hst) as (w' & Hw & Hsl' & Hst').
      exists w'. split; [exact Hw|]. split; [|exact Hst'].
      rewrite Hsl', Hsl. cbn [trace emit]. rewrite !sleeps_app. simpl.
      rewrite !app_nil_r, <- app_assoc. reflexivity.
Qed.

(** C1.  A watcher freshly constructed for any of the three loops, whose
    stream attempts fail [length errs] times in a row: the delays slept
    are 1, 1, 1, ... and not 1, 2, 4, ...: the second delay is already 1. *)
Theorem backoff_never_grows (t : thread_target) (cb : callback)
        (errs : list (bool * string)) :
  sleeps (trace (world_of
            (watch t 0 cb (map failure errs)
                   (snd (new_watcher (class_of t) init)))))
  = repeat 1%Z (length errs).
Proof.
  destruct (failures_sleep_one_each errs t 0 cb
              (snd (new_watcher (class_of t) init)))
    as (w' & Hw & Hsl & _); [reflexivity|].
  rewrite Hw. simpl. rewrite Hsl. reflexivity.
Qed.

(** The second of two consecutive failures is followed by a sleep of 1,
    where doubling would give 2. *)
Lemma backoff_two_failures :
  sleeps (trace (world_of
            (watch_namespace "a" 0 (event_callback "ns:a")
                   [failure (true, "gone"); failure (true, "gone")]
                   (snd (new_watcher InferenceServiceWatcher init)))))
  = [1%Z; 1%Z].
Proof. reflexivity. Qed.

(** ** The session loop and its heartbeat *)

Lemma clock_iter_advance (n : nat) (w : World) :
  clock (Nat.iter n (advance 1) w) = (clock w + Z.of_nat n)%Z.
Proof.
  induction n as [|n IH]; [simpl; lia|].
  change (Nat.iter (S n) (advance 1) w) with (advance 1 (Nat.iter n (advance 1) w)).
  cbn [clock advance]. rewrite IH. lia.
Qed.

Lemma queues_iter_advance (n : nat) (w : World) :
  queues (Nat.iter n (advance 1) w) = queues w.
Proof.
  induction n as [|n IH]; [reflexivity|].
  change (Nat.iter (S n) (advance 1) w) with (advance 1 (Nat.iter n (advance 1) w)).
  exact IH.
Qed.

(** A pass over an empty mailbox: the timeout takes one time unit, then a
    heartbeat is emitted if and only if strictly more than thirty units
    have gone by since the last emission. *)
Lemma loop_body_empty (s : Session) (w : World) (Q : Queue) :
  queues w !! client_queue s = Some Q -> items Q = [] -> is_shutdown Q = false ->
  loop_body s w =
  if (clock w + 1 - last_heartbeat s >? heartbeat_interval)%Z
  then Yielded _send_heartbeat
               (mkSession (target s) (client_queue s) (clock w + 1)) (advance 1 w)
  else Silent s (advance 1 w).
Proof.
  intros HQ Hi Hs. unfold loop_body, queue_get. rewrite HQ, Hi, Hs. reflexivity.
Qed.

Lemma silent_passes (n : nat) :
  forall (m : nat) (s : Session) (w : World) (Q : Queue),
    queues w !! client_queue s = Some Q -> items Q = [] -> is_shutdown Q = false ->
    (clock w + Z.of_nat n - last_heartbeat s <= heartbeat_interval)%Z ->
    run_loop (n + m) s w = run_loop m s (Nat.iter n (advance 1) w).
Proof.
  induction n as [|n IH]; intros m s w Q HQ Hi Hs Hle; [reflexivity|].
  cbn [Nat.add run_loop].
  rewrite (loop_body_empty s w Q HQ Hi Hs).
  destruct (clock w + 1 - last_heartbeat s >? heartbeat_interval)%Z eqn:E.
  { apply Z.gtb_lt in E. lia. }
  rewrite (IH m s (advance 1 w) Q); [| exact HQ | exact Hi | exact Hs |].
  - f_equal. symmetry. apply Nat.iter_succ_r.
  - cbn [clock advance]. lia.
Qed.

(** Whatever the timing of the passes over an empty mailbox, every chunk
    emitted is a heartbeat and comes strictly later than thirty units
    after the emission before it. *)
Lemma heartbeats_only_after_thirty (pauses : list Z) :
  forall (s : Session) (w : World) (Q : Queue),
    queues w !! client_queue s = Some Q -> items Q = [] -> is_shutdown Q = false ->
    Forall (fun e => snd e = _send_heartbeat /\ (last_heartbeat s + 30 < fst e)%Z)
           (run_loop_paused pauses s w).
Proof.
  induction pauses as [|d rest IH]; intros s w Q HQ Hi Hs; [constructor|].
  cbn [run_loop_paused].
  rewrite (loop_body_empty s (advance d w) Q HQ Hi Hs).
  destruct (clock (advance d w) + 1 - last_heartbeat s >? heartbeat_interval)%Z eqn:E.
  - apply Z.gtb_lt in E. unfold heartbeat_interval in E.
    constructor.
    + cbn [fst snd clock advance] in *. split; [reflexivity|lia].
    + pose proof (IH (mkSession (target s) (client_queue s) (clock (advance d w) + 1))
                     (advance 1 (advance d w)) Q HQ Hi Hs) as Hrest.
      apply (List.Forall_impl _ (P := fun e => snd e = _send_heartbeat
                 /\ (last_heartbeat (mkSession (target s) (client_queue s)
                                               (clock (advance d w) + 1)) + 30 < fst e)%Z));
        [|exact Hrest].
      intros [t c] [Hc Ht]. cbn [fst snd last_heartbeat clock advance] in *.
      split; [exact Hc|lia].
  - exact (IH s (advance 1 (advance d w)) Q HQ Hi Hs).
Qed.




(** ** Exceptions of the per-event callback *)

Lemma for_events_app (self : nat) (cb : callback) (evs1 evs2 : list (string * json)) :
  forall w,
    for_events self cb (evs1 ++ evs2) w =
    match for_events self cb evs1 w with
    | Returns false w1 => for_events self cb evs2 w1
    | other => other
    end.
Proof.
  induction evs1 as [|[ty obj] evs1 IH]; intros w; [reflexivity|].
  cbn [app for_events].
  destruct (stop_requested self w); [reflexivity|].
  destruct (cb ty obj w) as [[] w'|e w'|r w']; [apply IH | apply IH | reflexivity].
Qed.

Lemma for_events_never_raises (self : nat) (cb : callback) (evs : list (string * json)) :
  forall w e w', for_events self cb evs w <> Raises e w'.
Proof.
  induction evs as [|[ty obj] evs IH]; intros w e w'; [discriminate|].
  cbn [for_events].
  destruct (stop_requested self w); [discriminate|].
  destruct (cb ty obj w) as [[] w1|e1 w1|r w1]; [apply IH | apply IH | discriminate].
Qed.

Lemma watch_never_raises (t : thread_target) (self : nat) (cb : callback)
      (upstream : list attempt) :
  forall w e w', watch t self cb upstream w <> Raises e w'.
Proof.
  induction upstream as [|a later IH]; intros w e w'.
  - cbn [watch]. destruct (stop_requested self w); discriminate.
  - cbn [watch]. destruct (stop_requested self w); [discriminate|].
    destruct (for_events self cb (events a) (emit (LogInfo (starting_message t)) w))
      as [[|] w1|e1 w1|r w1] eqn:E.
    + apply IH.
    + destruct (ending a) as [|e2|e2].
      * apply IH.
      * destruct (stop_requested self w1); [discriminate|apply IH].
      * destruct (stop_requested self w1); [discriminate|apply IH].
    + exfalso. exact (for_events_never_raises _ _ _ _ _ _ E).
    + discriminate.
Qed.



(** ** The manager: frame lemmas *)

Lemma queues_of_touch (k k' : string) (w : World) :
  queues_of k' (touch k w) = queues_of k' w.
Proof.
  unfold touch, queues_of.
  destruct (_client_queues w !! k) eqn:E; [reflexivity|].
  cbn [_client_queues set_client_queues].
  destruct (decide (k = k')) as [->|Hne].
  - rewrite lookup_insert_eq, E. reflexivity.
  - rewrite lookup_insert_ne by exact Hne. reflexivity.
Qed.

Lemma queues_of_set_lock (k k' : string) (b : bool) (w : World) :
  queues_of k' (set_lock k b w) = queues_of k' w.
Proof. reflexivity. Qed.

Lemma touch_fields (k : string) (w : World) :
  queues (touch k w) = queues w
  /\ watchers (touch k w) = watchers w
  /\ trace (touch k w) = trace w
  /\ _locks (touch k w) = _locks w
  /\ clock (touch k w) = clock w
  /\ forall s, table s (touch k w) = table s w.
Proof.
  unfold touch. destruct (_client_queues w !! k).
  - repeat split.
  - repeat split.
Qed.


Lemma lock_held_set (k : string) (b : bool) (w : World) :
  lock_held k (set_lock k b w) = b.
Proof.
  unfold lock_held, set_lock. cbn [_locks]. rewrite lookup_insert_eq. now destruct b.
Qed.

Lemma table_set_lock (s : scope) (k : string) (b : bool) (w : World) :
  table s (set_lock k b w) = table s w.
Proof. destruct s; reflexivity. Qed.

Lemma queues_of_set_same (k : string) (l : list nat) (w : World) :
  queues_of k (set_client_queues k l w) = l.
Proof. unfold queues_of, set_client_queues. cbn [_client_queues]. now rewrite lookup_insert_eq. Qed.

Lemma queues_of_set_other (k k' : string) (l : list nat) (w : World) :
  k <> k' -> queues_of k' (set_client_queues k l w) = queues_of k' w.
Proof.
  intros Hne. unfold queues_of, set_client_queues. cbn [_client_queues].
  now rewrite lookup_insert_ne.
Qed.

Lemma table_set_client_queues (s : scope) (k : string) (l : list nat) (w : World) :
  table s (set_client_queues k l w) = table s w.
Proof. destruct s; reflexivity. Qed.

Lemma table_emit (s : scope) (e : effect) (w : World) :
  table s (emit e w) = table s w.
Proof. destruct s; reflexivity. Qed.

Lemma table_set_table (s s' : scope) (m : gmap string nat) (w : World) :
  table s' (set_table s m w) = if decide (s = s') then m else table s' w.
Proof. destruct s, s'; reflexivity. Qed.

Lemma set_table_fields (s : scope) (m : gmap string nat) (w : World) :
  queues (set_table s m w) = queues w
  /\ watchers (set_table s m w) = watchers w
  /\ trace (set_table s m w) = trace w
  /\ _locks (set_table s m w) = _locks w
  /\ _client_queues (set_table s m w) = _client_queues w
  /\ clock (set_table s m w) = clock w.
Proof. destruct s; repeat split. Qed.


Lemma prefix_empty (s : string) : String.prefix EmptyString s = true.
Proof. destruct s; reflexivity. Qed.

(** The prefix tests of [_stop_watcher] pick, for a key built by
    [register_*], the table that [register_*] used. *)
Lemma startswith_key (t : thread_target) :
  (if PyStr.startswith "ns:" (watch_key_of t) then NamespaceList
   else if PyStr.startswith "isvc:" (watch_key_of t) then SingleObject
   else EventList) = scope_of t
  /\ (PyStr.startswith "ns:" (watch_key_of t)
      || PyStr.startswith "isvc:" (watch_key_of t)
      || PyStr.startswith "events:" (watch_key_of t)) = true.
Proof.
  unfold PyStr.startswith.
  destruct t; cbn [watch_key_of scope_of]; simpl; rewrite prefix_empty; split; reflexivity.
Qed.

Lemma stop_watcher_key (t : thread_target) (w : World) :
  _stop_watcher (watch_key_of t) w =
  match table (scope_of t) w !! watch_key_of t with
  | Some watcher =>
      emit (LogInfo ("Stopped watcher: " +:+ watch_key_of t))
           (stop watcher
                 (set_table (scope_of t)
                            (delete (watch_key_of t) (table (scope_of t) w)) w))
  | None =>
      set_table (scope_of t) (delete (watch_key_of t) (table (scope_of t) w)) w
  end.
Proof.
  destruct (startswith_key t) as [Hs Ht].
  unfold _stop_watcher, pop. rewrite <- Hs.
  destruct (PyStr.startswith "ns:" (watch_key_of t)).
  { destruct (table NamespaceList w !! watch_key_of t); reflexivity. }
  destruct (PyStr.startswith "isvc:" (watch_key_of t)).
  { destruct (table SingleObject w !! watch_key_of t); reflexivity. }
  destruct (PyStr.startswith "events:" (watch_key_of t)); [|discriminate].
  destruct (table EventList w !! watch_key_of t); reflexivity.
Qed.

Lemma set_table_same (s : scope) (w : World) : set_table s (table s w) w = w.
Proof. destruct w, s; reflexivity. Qed.

(** [_stop_watcher] on a key that has no watcher changes nothing. *)
Lemma stop_watcher_absent (k : string) (w : World) :
  (forall s, table s w !! k = None) -> _stop_watcher k w = w.
Proof.
  intros Hnone. unfold _stop_watcher, pop.
  destruct (PyStr.startswith "ns:" k).
  { rewrite Hnone, delete_id by apply Hnone. apply set_table_same. }
  destruct (PyStr.startswith "isvc:" k).
  { rewrite Hnone, delete_id by apply Hnone. apply set_table_same. }
  destruct (PyStr.startswith "events:" k).
  { rewrite Hnone, delete_id by apply Hnone. apply set_table_same. }
  reflexivity.
Qed.

Lemma list_mem_true (x : nat) (l : list nat) : list_mem x l = true <-> x ∈ l.
Proof.
  unfold list_mem. rewrite existsb_exists, list_elem_of_In. split.
  - intros (y & Hy & Heq). apply Nat.eqb_eq in Heq. now subst.
  - intros H. exists x. split; [exact H | apply Nat.eqb_refl].
Qed.

Lemma list_mem_false (x : nat) (l : list nat) : list_mem x l = false <-> x ∉ l.
Proof. rewrite <- list_mem_true. destruct (list_mem x l); split; congruence. Qed.

(** ** Broadcast against a full queue *)

(** Puts on other queues leave a full queue full. *)
Lemma deliver_stops_at_full_queue (event_data : json) (qs : list nat) :
  forall (dead : list nat) (w : World) (q : nat) (Q : Queue),
    q ∈ qs ->
    queues w !! q = Some Q -> is_shutdown Q = false -> is_full Q = true ->
    exists q' w',
      deliver event_data qs dead w = Blocked (WaitNotFull q') w'
      /\ _locks w' = _locks w
      /\ _client_queues w' = _client_queues w.
Proof.
  induction qs as [|x rest IH]; intros dead w q Q Hin HQ Hs Hf; [inversion Hin|].
  cbn [deliver].
  destruct (decide (x = q)) as [->|Hne].
  { unfold queue_put. rewrite HQ, Hs, Hf. eauto. }
  apply elem_of_cons in Hin as [->|Hin]; [congruence|].
  unfold queue_put.
  destruct (queues w !! x) as [X|] eqn:HX.
  - destruct (is_shutdown X).
    + destruct (IH (dead ++ [x])
                   (emit (LogError ("Error sending event to client: " +:+ "ShutDown")) w)
                   q Q Hin HQ Hs Hf) as (q' & w' & -> & Hl & Hc).
      eauto.
    + destruct (is_full X); [eauto|].
      destruct (IH dead (set_queue x (mkQueue (maxsize X) (items X ++ [event_data]) false) w)
                   q Q Hin) as (q' & w' & -> & Hl & Hc); [|exact Hs|exact Hf|eauto].
      cbn [queues set_queue]. rewrite lookup_insert_ne by exact Hne. exact HQ.
  - destruct (IH (dead ++ [x])
                 (emit (LogError ("Error sending event to client: "
                                  +:+ "object has no attribute 'put'")) w)
                 q Q Hin HQ Hs Hf) as (q' & w' & -> & Hl & Hc).
    eauto.
Qed.

(** Whenever a queue attached to a key is full and not shut down, a
    broadcast under that key does not return: it stops at a full queue,
    inside the lock, and evicts nobody. *)
Lemma full_queue_stalls_broadcast (k ty : string) (obj : json) (w : World)
      (q : nat) (Q : Queue) :
  lock_held k w = false ->
  q ∈ queues_of k w ->
  queues w !! q = Some Q -> is_shutdown Q = false -> is_full Q = true ->
  exists q' w',
    _broadcast_event k ty obj w = Blocked (WaitNotFull q') w'
    /\ lock_held k w' = true
    /\ queues_of k w' = queues_of k w.
Proof.
  intros Hl Hq HQ Hs Hf.
  unfold _broadcast_event, with_lock. rewrite Hl.
  rewrite queues_of_touch, queues_of_set_lock.
  destruct (touch_fields k (set_lock k true w)) as (Hqs & _ & _ & Hlk & _).
  destruct (deliver_stops_at_full_queue (envelope ty obj) (queues_of k w) []
              (touch k (set_lock k true w)) q Q Hq)
    as (q' & w' & -> & Hl' & Hc'); [rewrite Hqs; exact HQ|exact Hs|exact Hf|].
  exists q', w'. split; [reflexivity|]. split.
  - unfold lock_held. rewrite Hl', Hlk. cbn [_locks set_lock].
    now rewrite lookup_insert_eq.
  - unfold queues_of at 1. rewrite Hc'. fold (queues_of k (touch k (set_lock k true w))).
    rewrite queues_of_touch. reflexivity.
Qed.

(** C2.  In the state [slow_client], where the first attached queue [a]
    holds its hundred items, a broadcast does not return: it waits for a
    free slot in [a] with the key's lock held, [a] stays attached, [b]
    behind it has received nothing, and no client of the key can detach
    (nor can another broadcast start) because the lock is taken. *)
Theorem broadcast_blocks_on_full_queue :
  exists w',
    _broadcast_event "ns:team-a" "ADDED" object_x (snd slow_client)
    = Blocked (WaitNotFull 0) w'
    /\ fst slow_client = (0, 1)
    /\ length (pending (snd slow_client) 0) = 100
    /\ lock_held "ns:team-a" w' = true
    /\ queues_of "ns:team-a" w' = [0; 1]
    /\ pending w' 1 = []
    /\ unregister_client "ns:team-a" 0 w' = Blocked (WaitLock "ns:team-a") w'
    /\ unregister_client "ns:team-a" 1 w' = Blocked (WaitLock "ns:team-a") w'
    /\ _broadcast_event "ns:team-a" "ADDED" object_x w'
       = Blocked (WaitLock "ns:team-a") w'.
Proof.
  eexists. split; [vm_compute; reflexivity|].
  repeat split; vm_compute; reflexivity.
Qed.

(** ** Broadcast to a key without clients *)

Lemma broadcast_no_clients (k ty : string) (obj : json) (w : World) :
  queues_of k w = [] -> lock_held k w = false ->
  _broadcast_event k ty obj w
  = Returns tt (set_lock k false (touch k (set_lock k true w))).
Proof.
  intros Hq Hl. unfold _broadcast_event, with_lock. rewrite Hl.
  rewrite queues_of_touch, queues_of_set_lock, Hq. reflexivity.
Qed.

(** C9.  A broadcast under a key to which no queue is attached never
    raises; it returns as soon as it gets the key's lock; and in the state
    it leaves no queue has received anything, the list of every key (this
    one and the others) is what it was, no watcher table, watcher or log
    line has changed. *)
Theorem broadcast_without_clients (k ty : string) (obj : json) (w : World) :
  queues_of k w = [] ->
  (forall e w', _broadcast_event k ty obj w <> Raises e w')
  /\ (lock_held k w = false -> exists w', _broadcast_event k ty obj w = Returns tt w')
  /\ queues (world_of (_broadcast_event k ty obj w)) = queues w
  /\ (forall k', queues_of k' (world_of (_broadcast_event k ty obj w)) = queues_of k' w)
  /\ (forall s, table s (world_of (_broadcast_event k ty obj w)) = table s w)
  /\ watchers (world_of (_broadcast_event k ty obj w)) = watchers w
  /\ trace (world_of (_broadcast_event k ty obj w)) = trace w.
Proof.
  intros Hq.
  destruct (lock_held k w) eqn:Hl.
  - assert (E : _broadcast_event k ty obj w = Blocked (WaitLock k) w)
      by (unfold _broadcast_event, with_lock; rewrite Hl; reflexivity).
    rewrite E. cbn [world_of]. repeat split; try discriminate.
  - rewrite (broadcast_no_clients k ty obj w Hq Hl). cbn [world_of].
    destruct (touch_fields k (set_lock k true w)) as (Hqs & Hws & Htr & _ & _ & Htab).
    split; [discriminate|]. split; [eauto|].
    split; [exact Hqs|]. split.
    { intros k'. rewrite queues_of_set_lock, queues_of_touch. reflexivity. }
    split.
    { intros s. rewrite table_set_lock, Htab, table_set_lock. reflexivity. }
    split; [exact Hws | exact Htr].
Qed.

Lemma broadcast_without_clients_witness :
  exists w', _broadcast_event "ns:a" "ADDED" object_x init = Returns tt w'.
Proof.
  destruct (broadcast_without_clients "ns:a" "ADDED" object_x init) as (_ & H & _).
  - reflexivity.
  - apply H. reflexivity.
Defined.

(** ** Detaching a queue that is not attached *)

Lemma unregister_absent (k : string) (q : nat) (w : World) :
  list_mem q (queues_of k w) = false -> lock_held k w = false ->
  unregister_client k q w
  = Returns tt
      (set_lock k false
         (if Nat.eqb (length (queues_of k w)) 0
          then _stop_watcher k (touch k (set_lock k true w))
          else touch k (set_lock k true w))).
Proof.
  intros Hm Hl. unfold unregister_client, with_lock. rewrite Hl.
  rewrite queues_of_touch, queues_of_set_lock, Hm. cbv beta iota.
  rewrite queues_of_touch, queues_of_set_lock.
  destruct (Nat.eqb (length (queues_of k w)) 0); reflexivity.
Qed.

Lemma stop_fields (self : nat) (w : World) :
  queues (stop self w) = queues w
  /\ _client_queues (stop self w) = _client_queues w
  /\ _locks (stop self w) = _locks w
  /\ (forall s, table s (stop self w) = table s w)
  /\ length (watchers (stop self w)) = length (watchers w).
Proof.
  unfold stop. destruct (watchers w !! self); [|repeat split].
  repeat split.
  cbn [watchers emit set_watchers]. apply length_insert.
Qed.

(** [_stop_watcher] touches neither a queue nor a list of queues. *)
Lemma stop_watcher_fields (k : string) (w : World) :
  queues (_stop_watcher k w) = queues w
  /\ _client_queues (_stop_watcher k w) = _client_queues w
  /\ _locks (_stop_watcher k w) = _locks w
  /\ length (watchers (_stop_watcher k w)) = length (watchers w).
Proof.
  assert (Hpop : forall s,
    let r := pop s k w in
    queues (match fst r with
            | Some x => emit (LogInfo ("Stopped watcher: " +:+ k)) (stop x (snd r))
            | None => snd r end) = queues w
    /\ _client_queues (match fst r with
            | Some x => emit (LogInfo ("Stopped watcher: " +:+ k)) (stop x (snd r))
            | None => snd r end) = _client_queues w
    /\ _locks (match fst r with
            | Some x => emit (LogInfo ("Stopped watcher: " +:+ k)) (stop x (snd r))
            | None => snd r end) = _locks w
    /\ length (watchers (match fst r with
            | Some x => emit (LogInfo ("Stopped watcher: " +:+ k)) (stop x (snd r))
            | None => snd r end)) = length (watchers w)).
  { intros s. unfold pop. cbn [fst snd].
    destruct (set_table_fields s (delete k (table s w)) w) as (H1 & H2 & H3 & H4 & H5 & H6).
    destruct (table s w !! k) as [x|].
    - destruct (stop_fields x (set_table s (delete k (table s w)) w))
        as (G1 & G2 & G3 & G4 & G5).
      cbn [queues _client_queues _locks watchers emit].
      rewrite G1, G2, G3, G5, H1, H2, H4, H5. auto.
    - rewrite H1, H2, H4, H5. auto. }
  unfold _stop_watcher.
  destruct (PyStr.startswith "ns:" k).
  { specialize (Hpop NamespaceList). destruct (pop NamespaceList k w) as [[x|] w1]; exact Hpop. }
  destruct (PyStr.startswith "isvc:" k).
  { specialize (Hpop SingleObject). destruct (pop SingleObject k w) as [[x|] w1]; exact Hpop. }
  destruct (PyStr.startswith "events:" k).
  { specialize (Hpop EventList). destruct (pop EventList k w) as [[x|] w1]; exact Hpop. }
  auto.
Qed.

Lemma queues_of_stop_watcher (k k' : string) (w : World) :
  queues_of k' (_stop_watcher k w) = queues_of k' w.
Proof.
  unfold queues_of. destruct (stop_watcher_fields k w) as (_ & -> & _). reflexivity.
Qed.

(** C10.  Detaching a queue that is not in the key's list never raises
    and returns as soon as the key's lock is obtained; afterwards the list
    of every key holds the queues it held and no queue has changed.  When
    moreover the key's list is empty and none of the watcher tables has an
    entry for the key (or when the list is not empty, so that the stop
    path is not taken), the watcher tables, the watchers and the log are
    what they were. *)
Theorem unregister_unknown_queue (k : string) (q : nat) (w : World) :
  q ∉ queues_of k w ->
  (forall e w', unregister_client k q w <> Raises e w')
  /\ (lock_held k w = false -> exists w', unregister_client k q w = Returns tt w')
  /\ (forall k', queues_of k' (world_of (unregister_client k q w)) = queues_of k' w)
  /\ queues (world_of (unregister_client k q w)) = queues w
  /\ ((queues_of k w = [] /\ forall s, table s w !! k = None) \/ queues_of k w <> [] ->
      (forall s, table s (world_of (unregister_client k q w)) = table s w)
      /\ watchers (world_of (unregister_client k q w)) = watchers w
      /\ trace (world_of (unregister_client k q w)) = trace w).
Proof.
  intros Hnotin. apply list_mem_false in Hnotin.
  destruct (lock_held k w) eqn:Hl.
  - assert (E : unregister_client k q w = Blocked (WaitLock k) w)
      by (unfold unregister_client, with_lock; rewrite Hl; reflexivity).
    rewrite E. cbn [world_of]. repeat split; try discriminate.
  - rewrite (unregister_absent k q w Hnotin Hl). cbn [world_of].
    destruct (touch_fields k (set_lock k true w)) as (Hqs & Hws & Htr & _ & _ & Htab).
    split; [discriminate|]. split; [eauto|].
    destruct (queues_of k w) as [|q0 l] eqn:Hlist; cbn [length Nat.eqb].
    + split.
      { intros k'. rewrite queues_of_set_lock, queues_of_stop_watcher, queues_of_touch.
        apply queues_of_set_lock. }
      split.
      { cbn [queues set_lock].
        destruct (stop_watcher_fields k (touch k (set_lock k true w))) as (-> & _).
        exact Hqs. }
      intros [[_ Hnone]|Hne]; [|congruence].
      rewrite stop_watcher_absent.
      2:{ intros s. rewrite Htab, table_set_lock. apply Hnone. }
      split; [|split].
      * intros s. rewrite table_set_lock, Htab, table_set_lock. reflexivity.
      * exact Hws.
      * exact Htr.
    + split.
      { intros k'. rewrite queues_of_set_lock, queues_of_touch. apply queues_of_set_lock. }
      split; [exact Hqs|].
      intros _. split; [|split].
      * intros s. rewrite table_set_lock, Htab, table_set_lock. reflexivity.
      * exact Hws.
      * exact Htr.
Qed.

(** The error path of a stream whose snapshot fetch fails: the queue
    created for the stream was never registered, and is unregistered. *)
Lemma unregister_unknown_queue_witness :
  exists w',
    unregister_client "ns:a" (fst (new_queue 100 init))
                      (emit (LogError "Error in SSE stream: unreachable")
                            (snd (new_queue 100 init)))
    = Returns tt w'.
Proof.
  destruct (unregister_unknown_queue "ns:a" (fst (new_queue 100 init))
              (emit (LogError "Error in SSE stream: unreachable")
                    (snd (new_queue 100 init)))) as (_ & H & _).
  - vm_compute. intros H. inversion H.
  - apply H. reflexivity.
Defined.

(** ** Delivery and eviction *)

Lemma put_raises_same_queues (w1 w2 : World) (q : nat) :
  queues w1 = queues w2 ->
  put_raises w1 q = put_raises w2 q /\ put_error w1 q = put_error w2 q.
Proof. unfold put_raises, put_error. intros ->. auto. Qed.

(** What [put] does is decided by the state of the queue. *)
Lemma queue_put_cases (q : nat) (item : json) (w : World) :
  match queue_put q item w with
  | PutOk w' =>
      put_raises w q = false
      /\ exists Q, queues w !! q = Some Q
                   /\ w' = set_queue q (mkQueue (maxsize Q) (items Q ++ [item]) false) w
  | PutRaises e => put_raises w q = true /\ e = put_error w q
  | PutBlocks =>
      put_raises w q = false
      /\ exists Q, queues w !! q = Some Q /\ is_full Q = true
  end.
Proof.
  unfold queue_put, put_raises, put_error.
  destruct (queues w !! q) as [Q|]; [|auto].
  destruct (is_shutdown Q) eqn:Hs; [auto|].
  destruct (is_full Q) eqn:Hf; eauto.
Qed.

Lemma set_queue_append (q : nat) (Q : Queue) (item : json) (w : World) :
  queues w !! q = Some Q -> is_shutdown Q = false ->
  let w1 := set_queue q (mkQueue (maxsize Q) (items Q ++ [item]) false) w in
  (forall q', put_raises w1 q' = put_raises w q')
  /\ (forall q', put_error w1 q' = put_error w q')
  /\ pending w1 q = pending w q ++ [item]
  /\ (forall q', q' <> q -> pending w1 q' = pending w q').
Proof.
  intros HQ Hs w1. unfold w1, put_raises, put_error, pending, set_queue. cbn [queues].
  repeat split.
  - intros q'. destruct (decide (q = q')) as [<-|Hne].
    + rewrite lookup_insert_eq, HQ. now rewrite Hs.
    + now rewrite lookup_insert_ne.
  - intros q'. destruct (decide (q = q')) as [<-|Hne].
    + now rewrite lookup_insert_eq, HQ.
    + now rewrite lookup_insert_ne.
  - now rewrite lookup_insert_eq, HQ.
  - intros q' Hne. now rewrite lookup_insert_ne.
Qed.

(** The envelopes a delivery loop over [qs] adds to queue [q]: one for
    each occurrence of [q] in [qs], none if its [put] raises. *)
Lemma deliver_returns (event_data : json) (qs : list nat) :
  forall (dead : list nat) (w : World) (dead' : list nat) (w' : World),
    deliver event_data qs dead w = Returns dead' w' ->
    dead' = dead ++ List.filter (put_raises w) qs
    /\ (forall q, pending w' q
                  = pending w q ++ (if put_raises w q then []
                                    else repeat event_data (count_occ Nat.eq_dec qs q)))
    /\ trace w' = trace w ++ map (delivery_error w) (List.filter (put_raises w) qs)
    /\ _client_queues w' = _client_queues w
    /\ (forall s, table s w' = table s w)
    /\ watchers w' = watchers w
    /\ _locks w' = _locks w.
Proof.
  induction qs as [|q rest IH]; intros dead w dead' w' Hd.
  - cbn [deliver] in Hd. injection Hd as <- <-. cbn [List.filter map count_occ repeat].
    rewrite !app_nil_r. repeat split; auto.
    intros q. destruct (put_raises w q); now rewrite app_nil_r.
  - cbn [deliver] in Hd. pose proof (queue_put_cases q event_data w) as Hput.
    destruct (queue_put q event_data w) as [w1|e|]; [| |discriminate].
    + destruct Hput as (Hnr & Q & HQ & ->).
      assert (Hs : is_shutdown Q = false)
        by (unfold put_raises in Hnr; now rewrite HQ in Hnr).
      destruct (set_queue_append q Q event_data w HQ Hs) as (Hr1 & He1 & Hp1 & Hp1').
      destruct (IH _ _ _ _ Hd) as (-> & Hpend & Htr & Hcq & Htab & Hws & Hlk).
      cbn [List.filter]. rewrite Hnr.
      assert (Hf : List.filter (put_raises (set_queue q
                     (mkQueue (maxsize Q) (items Q ++ [event_data]) false) w)) rest
                   = List.filter (put_raises w) rest)
        by (apply filter_ext; exact Hr1).
      rewrite Hf in *.
      split; [reflexivity|]. split.
      { intros q'. rewrite Hpend, Hr1. cbn [count_occ].
        destruct (Nat.eq_dec q q') as [<-|Hne].
        - rewrite Hp1, Hnr. cbn [repeat]. now rewrite <- app_assoc.
        - rewrite Hp1' by congruence. reflexivity. }
      split.
      { rewrite Htr. cbn [trace set_queue]. f_equal. apply map_ext. intros q'.
        unfold delivery_error. now rewrite He1. }
      split; [exact Hcq|]. split; [|split; assumption].
      intros s. rewrite Htab. destruct s; reflexivity.
    + destruct Hput as (Hr & ->).
      destruct (IH _ _ _ _ Hd) as (-> & Hpend & Htr & Hcq & Htab & Hws & Hlk).
      cbn [List.filter]. rewrite Hr.
      split; [now rewrite <- app_assoc|]. split.
      { intros q'. rewrite Hpend. cbn [count_occ].
        change (put_raises (emit (LogError ("Error sending event to client: " +:+ put_error w q)) w) q')
          with (put_raises w q').
        change (pending (emit (LogError ("Error sending event to client: " +:+ put_error w q)) w) q')
          with (pending w q').
        destruct (Nat.eq_dec q q') as [<-|Hne]; [|reflexivity].
        now rewrite Hr. }
      split.
      { rewrite Htr. cbn [trace emit map]. now rewrite <- app_assoc. }
      split; [exact Hcq|]. split; [|split; assumption].
      intros s. rewrite Htab. apply table_emit.
Qed.

Lemma deliver_never_raises (event_data : json) (qs : list nat) :
  forall dead w e w', deliver event_data qs dead w <> Raises e w'.
Proof.
  induction qs as [|q rest IH]; intros dead w e w'; [discriminate|].
  cbn [deliver]. destruct (queue_put q event_data w); [apply IH|apply IH|discriminate].
Qed.

Lemma list_remove_middle (x : nat) (A B : list nat) :
  x ∉ A -> list_remove x (A ++ x :: B) = Some (A ++ B).
Proof.
  induction A as [|a A IH]; intros Hnin; cbn [app list_remove].
  - now rewrite Nat.eqb_refl.
  - destruct (Nat.eqb x a) eqn:E.
    + apply Nat.eqb_eq in E. subst a. exfalso. apply Hnin. left.
    + rewrite IH; [reflexivity|]. intros Hin. apply Hnin. now right.
Qed.

(** Removing, one by one, the queues of [L2] that satisfy [p] from a
    list that ends in [L2] and has none of them before. *)
Lemma evict_filter (k : string) (p : nat -> bool) (L2 : list nat) :
  forall (L1 : list nat) (w : World),
    queues_of k w = List.filter (fun q => negb (p q)) L1 ++ L2 ->
    exists w',
      evict k (List.filter p L2) w = Returns tt w'
      /\ queues_of k w' = List.filter (fun q => negb (p q)) (L1 ++ L2)
      /\ (forall k', k' <> k -> queues_of k' w' = queues_of k' w)
      /\ queues w' = queues w
      /\ trace w' = trace w
      /\ (forall s, table s w' = table s w)
      /\ watchers w' = watchers w
      /\ _locks w' = _locks w.
Proof.
  induction L2 as [|x L2 IH]; intros L1 w Hq.
  - exists w. cbn [List.filter evict]. rewrite app_nil_r in *. repeat split; auto.
  - cbn [List.filter]. destruct (p x) eqn:Hp.
    + cbn [evict]. rewrite Hq, list_remove_middle.
      2:{ intros Hin. apply list_elem_of_In, filter_In in Hin as [_ Hn].
          rewrite Hp in Hn. discriminate. }
      destruct (IH L1 (set_client_queues k (List.filter (fun q => negb (p q)) L1 ++ L2) w))
        as (w' & He & Hl & Hother & Hqs & Htr & Htab & Hws & Hlk).
      { apply queues_of_set_same. }
      exists w'. split; [exact He|]. split.
      { rewrite Hl, !List.filter_app. cbn [List.filter]. now rewrite Hp. }
      split.
      { intros k' Hk'. rewrite Hother by exact Hk'. apply queues_of_set_other. congruence. }
      split; [exact Hqs|]. split; [exact Htr|]. split; [|split; assumption].
      intros s. rewrite Htab. apply table_set_client_queues.
    + destruct (IH (L1 ++ [x]) w) as (w' & He & Hl & Hrest).
      { rewrite Hq, List.filter_app. cbn [List.filter]. rewrite Hp. cbn [negb].
        now rewrite <- app_assoc. }
      exists w'. split; [exact He|]. split; [|exact Hrest].
      rewrite Hl, <- app_assoc. reflexivity.
Qed.

(** A broadcast either waits (for the key's lock, or for a slot in a
    full queue) or returns; it never raises.  When it returns, the queues
    whose [put] raised have been logged, in order, and are no longer in
    the key's list, each other queue of the list holds one more envelope
    per occurrence in the list, and nothing else has changed. *)
Lemma broadcast_outcome (k ty : string) (obj : json) (w : World) :
  (exists r w', _broadcast_event k ty obj w = Blocked r w')
  \/ exists w',
      _broadcast_event k ty obj w = Returns tt w'
      /\ lock_held k w = false
      /\ queues_of k w' = List.filter (fun q => negb (put_raises w q)) (queues_of k w)
      /\ trace w' = trace w ++ map (delivery_error w)
                                   (List.filter (put_raises w) (queues_of k w))
      /\ (forall q, pending w' q
                    = pending w q ++ (if put_raises w q then []
                                      else repeat (envelope ty obj)
                                                  (count_occ Nat.eq_dec (queues_of k w) q)))
      /\ (forall s, table s w' = table s w)
      /\ watchers w' = watchers w
      /\ (forall k', k' <> k -> queues_of k' w' = queues_of k' w)
      /\ lock_held k w' = false.
Proof.
  unfold _broadcast_event, with_lock.
  destruct (lock_held k w) eqn:Hl; [left; eauto|].
  set (w0 := touch k (set_lock k true w)).
  destruct (touch_fields k (set_lock k true w)) as (Hq0 & Hw0 & Ht0 & _ & _ & Htab0).
  fold w0 in Hq0, Hw0, Ht0, Htab0. cbn [queues watchers trace set_lock] in Hq0, Hw0, Ht0.
  assert (HL0 : queues_of k w0 = queues_of k w)
    by (unfold w0; rewrite queues_of_touch; apply queues_of_set_lock).
  assert (Hsame : forall q, put_raises w0 q = put_raises w q
                            /\ put_error w0 q = put_error w q)
    by (intros q; apply put_raises_same_queues; exact Hq0).
  assert (Hf : List.filter (put_raises w0) (queues_of k w)
               = List.filter (put_raises w) (queues_of k w))
    by (apply filter_ext; intros q; apply Hsame).
  rewrite HL0.
  destruct (deliver (envelope ty obj) (queues_of k w) [] w0) as [dead w1|e w1|r w1] eqn:Hd.
  2:{ exfalso. exact (deliver_never_raises _ _ _ _ _ _ Hd). }
  2:{ left. eauto. }
  right.
  destruct (deliver_returns _ _ _ _ _ _ Hd) as (-> & Hpend & Htr & Hcq & Htab & Hws & Hlk).
  cbn [app].
  assert (HL1 : queues_of k w1 = queues_of k w)
    by (unfold queues_of; rewrite Hcq; exact HL0).
  destruct (evict_filter k (put_raises w0) (queues_of k w) [] w1)
    as (w2 & He & Hl2 & Hother & Hqs2 & Htr2 & Htab2 & Hws2 & Hlk2).
  { exact HL1. }
  rewrite He. eexists. split; [reflexivity|]. split; [reflexivity|].
  split.
  { rewrite queues_of_set_lock, Hl2. cbn [app]. apply filter_ext. intros q.
    destruct (Hsame q) as (-> & _). reflexivity. }
  split.
  { cbn [trace set_lock]. rewrite Htr2, Htr, Ht0, Hf. f_equal.
    apply map_ext. intros q. unfold delivery_error. destruct (Hsame q) as (_ & ->).
    reflexivity. }
  split.
  { intros q. unfold pending at 1. cbn [queues set_lock]. rewrite Hqs2.
    fold (pending w1 q). rewrite Hpend. destruct (Hsame q) as (-> & _).
    unfold pending. now rewrite Hq0. }
  split.
  { intros s. rewrite table_set_lock, Htab2, Htab, Htab0. apply table_set_lock. }
  split.
  { cbn [watchers set_lock]. rewrite Hws2, Hws, Hw0. reflexivity. }
  split.
  { intros k' Hk'. rewrite queues_of_set_lock, Hother by exact Hk'.
    unfold queues_of at 1. rewrite Hcq. fold (queues_of k' w0).
    unfold w0. rewrite queues_of_touch. apply queues_of_set_lock. }
  apply lock_held_set.
Qed.



(** ** The bytes of an event *)

Lemma lower_char_idempotent (c : ascii) :
  PyStr.lower_char (PyStr.lower_char c) = PyStr.lower_char c.
Proof. destruct c as [[] [] [] [] [] [] [] []]; vm_compute; reflexivity. Qed.

Lemma lower_idempotent (s : string) : PyStr.lower (PyStr.lower s) = PyStr.lower s.
Proof.
  induction s as [|c s IH]; [reflexivity|].
  cbn [PyStr.lower]. now rewrite lower_char_idempotent, IH.
Qed.

(** C4.  An event broadcast (in a call that is not left waiting) to a key
    to which the queue of a session is attached, that queue being in
    working order and empty: the next pass of the session's loop yields
    [event: ] followed by the lower-cased type, a newline, [data: ], the
    JSON text of the envelope with its [type] and [object], and two
    newlines.  For the type MODIFIED and the object with metadata name x
    those are the bytes [modified_x_bytes]. *)
Theorem modified_event_bytes :
  (forall (t : thread_target) (q : nat) (last : Z) (ty : string) (obj : json)
          (w : World),
      (forall r w', _broadcast_event (watch_key_of t) ty obj w <> Blocked r w') ->
      q ∈ queues_of (watch_key_of t) w ->
      put_raises w q = false ->
      pending w q = [] ->
      exists w' s' w'',
        _broadcast_event (watch_key_of t) ty obj w = Returns tt w'
        /\ loop_body (mkSession t q last) w'
           = Yielded ("event: " +:+ PyStr.lower ty +:+ nl +:+
                      "data: " +:+
                      Json.dumps (JDict [("type", JStr ty); ("object", obj)])
                      +:+ nl +:+ nl)
                     s' w'')
  /\ "event: " +:+ PyStr.lower "MODIFIED" +:+ nl +:+
     "data: " +:+ Json.dumps (JDict [("type", JStr "MODIFIED"); ("object", object_x)])
     +:+ nl +:+ nl
     = modified_x_bytes.
Proof.
  split; [|reflexivity].
  intros t q last ty obj w Hnb Hq Hnr Hempty.
  destruct (broadcast_outcome (watch_key_of t) ty obj w)
    as [(r & w' & Hb)|(w' & Hb & _ & _ & _ & Hpend & _)].
  { exfalso. exact (Hnb r w' Hb). }
  specialize (Hpend q). rewrite Hnr, Hempty in Hpend. cbn [app] in Hpend.
  apply list_elem_of_In in Hq. apply (count_occ_In Nat.eq_dec) in Hq.
  destruct (count_occ Nat.eq_dec (queues_of (watch_key_of t) w) q) as [|n]; [lia|].
  cbn [repeat] in Hpend. unfold pending in Hpend.
  destruct (queues w' !! q) as [Q'|] eqn:HQ'; [|discriminate].
  exists w'. eexists. eexists. split; [exact Hb|].
  unfold loop_body, queue_get. cbn [client_queue]. rewrite HQ', Hpend.
  assert (Hget : Json.getitem (envelope ty obj) "type" = Some (JStr ty)) by reflexivity.
  rewrite Hget. unfold _format_sse_message. rewrite lower_idempotent. reflexivity.
Qed.

(** One session attached under the key of namespace [team-a]. *)
Lemma modified_event_bytes_witness :
  exists s w w' s' w'',
    open_stream (WatchNamespace "team-a") (inr (JList [])) init
    = Returns ([_format_sse_message "initial"
                  (initial_event (WatchNamespace "team-a") (JList []))], Some s) w
    /\ _broadcast_event "ns:team-a" "MODIFIED" object_x w = Returns tt w'
    /\ loop_body s w' = Yielded modified_x_bytes s' w''.
Proof.
  exists (mkSession (WatchNamespace "team-a") 0 0).
  eexists.
  destruct modified_event_bytes as [H Hbytes].
  destruct (H (WatchNamespace "team-a") 0 0%Z "MODIFIED" object_x
              (world_of (open_stream (WatchNamespace "team-a") (inr (JList [])) init)))
    as (w' & s' & w'' & Hb & Hloop).
  - intros r w'. vm_compute. discriminate.
  - replace (queues_of _ _) with [0] by (vm_compute; reflexivity). left.
  - vm_compute. reflexivity.
  - vm_compute. reflexivity.
  - exists w', s', w''. split; [vm_compute; reflexivity|].
    split; [exact Hb|]. rewrite Hloop, Hbytes. reflexivity.
Defined.

(** ** Attaching: one watcher per key *)

Lemma register_first (t : thread_target) (q : nat) (w : World) :
  lock_held (watch_key_of t) w = false ->
  table (scope_of t) w !! watch_key_of t = None ->
  exists w',
    register t q w = Returns tt w'
    /\ queues_of (watch_key_of t) w' = queues_of (watch_key_of t) w ++ [q]
    /\ table (scope_of t) w' !! watch_key_of t = Some (length (watchers w))
    /\ (forall s, s <> scope_of t -> table s w' = table s w)
    /\ watchers w' = watchers w ++ [mkWatcher (class_of t) false]
    /\ trace w' = trace w ++ [Constructed (length (watchers w));
                              ThreadStarted (length (watchers w)) t (watch_key_of t);
                              LogInfo (started_message t)]
    /\ lock_held (watch_key_of t) w' = false.
Proof.
  intros Hl Hnone. unfold register, with_lock. rewrite Hl.
  destruct (touch_fields (watch_key_of t) (set_lock (watch_key_of t) true w))
    as (_ & Hws & Htr & _ & _ & Htab).
  rewrite table_set_client_queues, Htab, table_set_lock, Hnone.
  unfold new_watcher. cbn [watchers set_client_queues]. rewrite Hws. cbn [watchers set_lock].
  eexists. split; [reflexivity|].
  rewrite queues_of_touch, queues_of_set_lock.
  split.
  { unfold queues_of at 1. destruct (scope_of t); cbn; rewrite lookup_insert_eq; reflexivity. }
  split.
  { rewrite table_set_lock, !table_emit, table_set_table.
    destruct (decide (scope_of t = scope_of t)); [|congruence].
    apply lookup_insert_eq. }
  split.
  { intros s Hs.
    destruct s, (scope_of t); try congruence;
      first [exact (Htab NamespaceList) | exact (Htab SingleObject) | exact (Htab EventList)]. }
  split.
  { destruct (scope_of t); reflexivity. }
  split.
  { destruct (scope_of t); cbn [trace set_lock emit set_table set_watchers set_client_queues];
      rewrite Htr; cbn [trace set_lock]; rewrite <- !app_assoc; reflexivity. }
  apply lock_held_set.
Qed.

Lemma register_next (t : thread_target) (q : nat) (w : World) (self : nat) :
  lock_held (watch_key_of t) w = false ->
  table (scope_of t) w !! watch_key_of t = Some self ->
  exists w',
    register t q w = Returns tt w'
    /\ queues_of (watch_key_of t) w' = queues_of (watch_key_of t) w ++ [q]
    /\ (forall s, table s w' = table s w)
    /\ watchers w' = watchers w
    /\ trace w' = trace w
    /\ lock_held (watch_key_of t) w' = false.
Proof.
  intros Hl Hsome. unfold register, with_lock. rewrite Hl.
  destruct (touch_fields (watch_key_of t) (set_lock (watch_key_of t) true w))
    as (_ & Hws & Htr & _ & _ & Htab).
  rewrite table_set_client_queues, Htab, table_set_lock, Hsome.
  eexists. split; [reflexivity|].
  split.
  { rewrite queues_of_set_lock, queues_of_set_same, queues_of_touch. reflexivity. }
  split.
  { intros s. rewrite table_set_lock, table_set_client_queues, Htab. apply table_set_lock. }
  split; [exact Hws|]. split; [exact Htr|]. apply lock_held_set.
Qed.

Lemma register_all_next (t : thread_target) (qs : list nat) :
  forall (w : World) (self : nat),
    lock_held (watch_key_of t) w = false ->
    table (scope_of t) w !! watch_key_of t = Some self ->
    exists w',
      register_all t qs w = Returns tt w'
      /\ queues_of (watch_key_of t) w' = queues_of (watch_key_of t) w ++ qs
      /\ (forall s, table s w' = table s w)
      /\ watchers w' = watchers w
      /\ trace w' = trace w
      /\ lock_held (watch_key_of t) w' = false.
Proof.
  induction qs as [|q qs IH]; intros w self Hl Hsome.
  - exists w. cbn [register_all]. rewrite app_nil_r. repeat split; auto.
  - cbn [register_all].
    destruct (register_next t q w self Hl Hsome) as (w1 & -> & Hq1 & Htab1 & Hws1 & Htr1 & Hl1).
    destruct (IH w1 self Hl1) as (w' & Hr & Hq & Htab & Hws & Htr & Hl').
    { rewrite Htab1. exact Hsome. }
    exists w'. split; [exact Hr|]. split.
    { rewrite Hq, Hq1, <- app_assoc. reflexivity. }
    split; [intros s; rewrite Htab; apply Htab1|].
    split; [congruence|]. split; [congruence|exact Hl'].
Qed.

(** Any non-empty sequence of registrations under an idle key constructs
    one watcher, at the first of them. *)
Lemma register_all_idle (t : thread_target) (qs : list nat) (w : World) :
  qs <> [] -> idle (watch_key_of t) w ->
  exists w',
    register_all t qs w = Returns tt w'
    /\ queues_of (watch_key_of t) w' = qs
    /\ table (scope_of t) w' !! watch_key_of t = Some (length (watchers w))
    /\ (forall s, s <> scope_of t -> table s w' = table s w)
    /\ watchers w' = watchers w ++ [mkWatcher (class_of t) false]
    /\ trace w' = trace w ++ [Constructed (length (watchers w));
                              ThreadStarted (length (watchers w)) t (watch_key_of t);
                              LogInfo (started_message t)]
    /\ lock_held (watch_key_of t) w' = false.
Proof.
  intros Hne (Hempty & Hl & Hnone).
  destruct qs as [|q qs]; [congruence|]. cbn [register_all].
  destruct (register_first t q w Hl (Hnone _))
    as (w1 & -> & Hq1 & Htab1 & Hoth1 & Hws1 & Htr1 & Hl1).
  destruct (register_all_next t qs w1 _ Hl1 Htab1) as (w' & Hr & Hq & Htab & Hws & Htr & Hl').
  exists w'. split; [exact Hr|]. split.
  { rewrite Hq, Hq1, Hempty. reflexivity. }
  split; [rewrite Htab; exact Htab1|].
  split; [intros s Hs; rewrite Htab; apply Hoth1, Hs|].
  split; [congruence|]. split; [congruence|exact Hl'].
Qed.

(** ** Calls that never start a watcher *)

#[global] Instance steady_preorder : PreOrder steady.
Proof.
  split.
  - intros w. repeat split; auto.
  - intros w1 w2 w3 (H1 & H2 & H3) (G1 & G2 & G3). repeat split.
    + congruence.
    + auto.
    + auto.
Qed.

(** A step that leaves the watchers and the three tables as they are. *)
Lemma steady_same (w w' : World) :
  watchers w' = watchers w -> (forall s, table s w' = table s w) -> steady w w'.
Proof.
  intros Hw Ht. repeat split.
  - now rewrite Hw.
  - intros s k. now rewrite Ht.
  - intros self. unfold stop_requested. now rewrite Hw.
Qed.

(** Closes [steady w (f w)] for the setters that touch neither a table
    nor a watcher. *)
Ltac steady_frame :=
  apply steady_same;
  [ reflexivity
  | intros ?s;
    first [ apply table_set_lock | apply table_set_client_queues | apply table_emit
          | destruct s; reflexivity ] ].

(** Goes through [w1] on the way from [w] to [w2]. *)
Ltac steady_via H :=
  match type of H with steady _ ?w1 => transitivity w1; [exact H|] end.

Lemma steady_stop (x : nat) (w : World) : steady w (stop x w).
Proof.
  destruct (stop_fields x w) as (_ & _ & _ & Htab & Hlen).
  repeat split.
  - exact Hlen.
  - intros s k. now rewrite Htab.
  - intros self. unfold stop, stop_requested.
    destruct (watchers w !! x) as [wx|] eqn:Hx; [|auto].
    cbn [watchers emit set_watchers].
    destruct (decide (x = self)) as [->|Hne].
    + rewrite list_lookup_insert_eq by (eapply lookup_lt_Some; exact Hx). reflexivity.
    + rewrite list_lookup_insert_ne by exact Hne. auto.
Qed.

Lemma steady_set_table_delete (s : scope) (k : string) (w : World) :
  steady w (set_table s (delete k (table s w)) w).
Proof.
  destruct (set_table_fields s (delete k (table s w)) w) as (_ & Hws & _).
  repeat split.
  - now rewrite Hws.
  - intros s' k' Hnone. rewrite table_set_table.
    destruct (decide (s = s')) as [->|]; [|exact Hnone].
    apply lookup_delete_None. now right.
  - intros self. unfold stop_requested. now rewrite Hws.
Qed.

Lemma steady_stop_watcher (k : string) (w : World) : steady w (_stop_watcher k w).
Proof.
  assert (Hpop : forall s,
    steady w (match fst (pop s k w) with
              | Some x => emit (LogInfo ("Stopped watcher: " +:+ k)) (stop x (snd (pop s k w)))
              | None => snd (pop s k w)
              end)).
  { intros s. unfold pop. cbn [fst snd].
    destruct (table s w !! k) as [x|]; [|apply steady_set_table_delete].
    etransitivity; [apply steady_set_table_delete|].
    etransitivity; [apply steady_stop|]. steady_frame. }
  unfold _stop_watcher.
  destruct (PyStr.startswith "ns:" k).
  { specialize (Hpop NamespaceList). destruct (pop NamespaceList k w) as [[x|] w1]; exact Hpop. }
  destruct (PyStr.startswith "isvc:" k).
  { specialize (Hpop SingleObject). destruct (pop SingleObject k w) as [[x|] w1]; exact Hpop. }
  destruct (PyStr.startswith "events:" k).
  { specialize (Hpop EventList). destruct (pop EventList k w) as [[x|] w1]; exact Hpop. }
  reflexivity.
Qed.

Lemma steady_touch (k : string) (w : World) : steady w (touch k w).
Proof.
  destruct (touch_fields k w) as (_ & Hws & _ & _ & _ & Htab). now apply steady_same.
Qed.

Create HintDb steady.

#[local] Hint Resolve steady_touch steady_stop steady_stop_watcher : steady.

Lemma steady_with_lock (k : string) (body : World -> outcome unit) (w : World) :
  (forall w0, steady w0 (world_of (body w0))) ->
  steady w (world_of (with_lock k body w)).
Proof.
  intros Hbody. unfold with_lock.
  destruct (lock_held k w); [reflexivity|].
  specialize (Hbody (set_lock k true w)).
  assert (H0 : steady w (set_lock k true w)) by steady_frame.
  destruct (body (set_lock k true w)) as [a w'|e w'|r w']; cbn [world_of] in *.
  - steady_via H0. steady_via Hbody. steady_frame.
  - steady_via H0. steady_via Hbody. steady_frame.
  - steady_via H0. exact Hbody.
Qed.

Lemma steady_unregister (k : string) (q : nat) (w : World) :
  steady w (world_of (unregister_client k q w)).
Proof.
  unfold unregister_client. apply steady_with_lock. intros w0.
  pose proof (steady_touch k w0) as Ht.
  destruct (list_mem q (queues_of k (touch k w0))).
  - destruct (list_remove q (queues_of k (touch k w0))) as [l|]; [|exact Ht].
    assert (Hs : steady w0 (set_client_queues k l (touch k w0)))
      by (steady_via Ht; steady_frame).
    destruct (Nat.eqb (length (queues_of k (set_client_queues k l (touch k w0)))) 0);
      cbn [world_of]; [|exact Hs].
    steady_via Hs. auto with steady.
  - destruct (Nat.eqb (length (queues_of k (touch k w0))) 0); cbn [world_of]; [|exact Ht].
    steady_via Ht. auto with steady.
Qed.

Lemma steady_deliver (event_data : json) (qs : list nat) :
  forall dead w, steady w (world_of (deliver event_data qs dead w)).
Proof.
  induction qs as [|q rest IH]; intros dead w; [reflexivity|].
  cbn [deliver]. unfold queue_put.
  destruct (queues w !! q) as [Q|].
  - destruct (is_shutdown Q).
    + etransitivity; [|apply IH]. steady_frame.
    + destruct (is_full Q); [reflexivity|].
      etransitivity; [|apply IH]. steady_frame.
  - etransitivity; [|apply IH]. steady_frame.
Qed.

Lemma steady_evict (k : string) (dead : list nat) :
  forall w, steady w (world_of (evict k dead w)).
Proof.
  induction dead as [|d rest IH]; intros w; [reflexivity|].
  cbn [evict]. destruct (list_remove d (queues_of k w)) as [l|]; [|reflexivity].
  etransitivity; [|apply IH]. steady_frame.
Qed.

Lemma steady_broadcast (k ty : string) (obj : json) (w : World) :
  steady w (world_of (_broadcast_event k ty obj w)).
Proof.
  unfold _broadcast_event. apply steady_with_lock. intros w0.
  pose proof (steady_touch k w0) as Ht.
  pose proof (steady_deliver (envelope ty obj) (queues_of k (touch k w0)) [] (touch k w0)) as Hd.
  destruct (deliver (envelope ty obj) (queues_of k (touch k w0)) [] (touch k w0))
    as [dead w1|e w1|r w1]; cbn [world_of] in *.
  - steady_via Ht. steady_via Hd. apply steady_evict.
  - steady_via Ht. exact Hd.
  - steady_via Ht. exact Hd.
Qed.

(** Neither detaching nor broadcasting, however often and under whatever
    keys, constructs a watcher, stores one, or revives a stopped one. *)
Lemma steady_run_calls (cs : list call) :
  forall w, steady w (world_of (run_calls cs w)).
Proof.
  induction cs as [|c cs IH]; intros w; [reflexivity|].
  cbn [run_calls].
  assert (Hc : steady w (world_of (run_call c w))).
  { destruct c; [apply steady_unregister|apply steady_broadcast]. }
  destruct (run_call c w) as [a w1|e w1|r w1]; cbn [world_of] in *; [|exact Hc|exact Hc].
  steady_via Hc. apply IH.
Qed.

(** A watcher that was stopped does nothing more: its loop returns
    without calling the callback, whatever the stream would yield. *)
Lemma stopped_watcher_is_inert (t : thread_target) (self : nat) (cb : callback)
      (upstream : list attempt) (w : World) :
  stop_requested self w = true -> watch t self cb upstream w = Returns true w.
Proof. intros Hs. destruct upstream; cbn [watch]; now rewrite Hs. Qed.

(** ** Detaching: the watcher goes with the last client *)

Lemma list_remove_elem (q : nat) (l : list nat) :
  q ∈ l -> exists l', list_remove q l = Some l' /\ Permutation l (q :: l').
Proof.
  induction l as [|y l IH]; intros Hin; [inversion Hin|].
  cbn [list_remove]. destruct (Nat.eqb q y) eqn:E.
  - apply Nat.eqb_eq in E. subst y. exists l. split; reflexivity.
  - apply Nat.eqb_neq in E. apply elem_of_cons in Hin as [->|Hin]; [congruence|].
    destruct (IH Hin) as (l' & -> & Hp). exists (y :: l'). split; [reflexivity|].
    rewrite Hp. apply perm_swap.
Qed.

Lemma unregister_present (k : string) (q : nat) (w : World) (l' : list nat) :
  lock_held k w = false ->
  q ∈ queues_of k w ->
  list_remove q (queues_of k w) = Some l' ->
  unregister_client k q w
  = Returns tt
      (set_lock k false
         (if Nat.eqb (length l') 0
          then _stop_watcher k (set_client_queues k l' (touch k (set_lock k true w)))
          else set_client_queues k l' (touch k (set_lock k true w)))).
Proof.
  intros Hl Hin Hrem. apply list_mem_true in Hin.
  unfold unregister_client, with_lock. rewrite Hl.
  rewrite queues_of_touch, queues_of_set_lock, Hin, Hrem. cbv beta iota.
  rewrite queues_of_set_same.
  destruct (Nat.eqb (length l') 0); reflexivity.
Qed.

(** Detaching one of several clients leaves the watcher alone. *)
Lemma unregister_not_last (t : thread_target) (q : nat) (w : World) (l' : list nat) :
  lock_held (watch_key_of t) w = false ->
  q ∈ queues_of (watch_key_of t) w ->
  list_remove q (queues_of (watch_key_of t) w) = Some l' ->
  l' <> [] ->
  exists w',
    unregister_client (watch_key_of t) q w = Returns tt w'
    /\ queues_of (watch_key_of t) w' = l'
    /\ (forall s, table s w' = table s w)
    /\ watchers w' = watchers w
    /\ trace w' = trace w
    /\ lock_held (watch_key_of t) w' = false.
Proof.
  intros Hl Hin Hrem Hne.
  rewrite (unregister_present _ q w l' Hl Hin Hrem).
  destruct l' as [|x l']; [congruence|]. cbn [length Nat.eqb].
  destruct (touch_fields (watch_key_of t) (set_lock (watch_key_of t) true w))
    as (_ & Hws & Htr & _ & _ & Htab).
  eexists. split; [reflexivity|]. split.
  { rewrite queues_of_set_lock. apply queues_of_set_same. }
  split.
  { intros s. rewrite table_set_lock, table_set_client_queues, Htab. apply table_set_lock. }
  split; [exact Hws|]. split; [exact Htr|]. apply lock_held_set.
Qed.

(** Detaching the only client removes the watcher from its table and
    stops it. *)
Lemma unregister_last (t : thread_target) (q : nat) (w : World) (self : nat) :
  lock_held (watch_key_of t) w = false ->
  queues_of (watch_key_of t) w = [q] ->
  table (scope_of t) w !! watch_key_of t = Some self ->
  self < length (watchers w) ->
  exists w',
    unregister_client (watch_key_of t) q w = Returns tt w'
    /\ queues_of (watch_key_of t) w' = []
    /\ table (scope_of t) w' !! watch_key_of t = None
    /\ (forall s, s <> scope_of t -> table s w' = table s w)
    /\ stop_requested self w' = true
    /\ length (watchers w') = length (watchers w)
    /\ trace w' = trace w ++ [WatchStop self;
                              LogInfo ("Stopped watcher: " +:+ watch_key_of t)]
    /\ lock_held (watch_key_of t) w' = false.
Proof.
  intros Hl Hq Hsome Hlt.
  rewrite (unregister_present _ q w [] Hl).
  2:{ rewrite Hq. left. }
  2:{ rewrite Hq. cbn [list_remove]. now rewrite Nat.eqb_refl. }
  cbn [length Nat.eqb].
  destruct (touch_fields (watch_key_of t) (set_lock (watch_key_of t) true w))
    as (_ & Hws & Htr & _ & _ & Htab).
  set (w1 := set_client_queues (watch_key_of t) [] (touch (watch_key_of t)
               (set_lock (watch_key_of t) true w))).
  assert (Htab1 : forall s, table s w1 = table s w).
  { intros s. unfold w1. rewrite table_set_client_queues, Htab. apply table_set_lock. }
  assert (Hws1 : watchers w1 = watchers w) by exact Hws.
  assert (Htr1 : trace w1 = trace w) by exact Htr.
  rewrite stop_watcher_key, Htab1, Hsome.
  destruct (lookup_lt_is_Some_2 (watchers w) self Hlt) as (x & Hx).
  set (w2 := set_table (scope_of t) (delete (watch_key_of t) (table (scope_of t) w)) w1).
  destruct (set_table_fields (scope_of t) (delete (watch_key_of t) (table (scope_of t) w)) w1)
    as (_ & Hws2 & Htr2 & _ & Hcq2 & _). fold w2 in Hws2, Htr2, Hcq2.
  assert (Hstop : stop self w2
                  = emit (WatchStop self)
                         (set_watchers (<[self := mkWatcher (cls x) true]> (watchers w2)) w2)).
  { unfold stop. rewrite Hws2, Hws1, Hx. reflexivity. }
  rewrite Hstop.
  eexists. split; [reflexivity|]. split.
  { rewrite queues_of_set_lock. unfold queues_of. cbn [_client_queues emit set_watchers].
    rewrite Hcq2. unfold w1. cbn [_client_queues set_client_queues].
    now rewrite lookup_insert_eq. }
  split.
  { rewrite table_set_lock, !table_emit.
    replace (table (scope_of t) (set_watchers (<[self:=mkWatcher (cls x) true]> (watchers w2)) w2))
      with (table (scope_of t) w2) by (destruct (scope_of t); reflexivity).
    unfold w2. rewrite table_set_table.
    destruct (decide (scope_of t = scope_of t)); [|congruence].
    apply lookup_delete_eq. }
  split.
  { intros s Hs. rewrite table_set_lock, !table_emit.
    replace (table s (set_watchers (<[self:=mkWatcher (cls x) true]> (watchers w2)) w2))
      with (table s w2) by (destruct s; reflexivity).
    unfold w2. rewrite table_set_table.
    destruct (decide (scope_of t = s)); [congruence|apply Htab1]. }
  split.
  { unfold stop_requested. cbn [watchers set_lock emit set_watchers].
    rewrite list_lookup_insert_eq; [reflexivity|]. rewrite Hws2, Hws1. exact Hlt. }
  split.
  { cbn [watchers set_lock emit set_watchers]. rewrite length_insert, Hws2, Hws1. reflexivity. }
  split.
  { cbn [trace set_lock emit set_watchers]. rewrite Htr2, Htr1, <- app_assoc. reflexivity. }
  apply lock_held_set.
Qed.

Lemma unregister_all_app (k : string) (qs1 qs2 : list nat) :
  forall w,
    unregister_all k (qs1 ++ qs2) w =
    match unregister_all k qs1 w with
    | Returns _ w' => unregister_all k qs2 w'
    | other => other
    end.
Proof.
  induction qs1 as [|q qs1 IH]; intros w; [reflexivity|].
  cbn [app unregister_all].
  destruct (unregister_client k q w) as [[] w'|e w'|r w']; [apply IH|reflexivity|reflexivity].
Qed.

(** While clients remain, detaching the others keeps the watcher stored
    and running. *)
Lemma unregister_some (t : thread_target) (self : nat) (done : list nat) :
  forall (rest : list nat) (w : World),
    Permutation (queues_of (watch_key_of t) w) (done ++ rest) ->
    rest <> [] ->
    lock_held (watch_key_of t) w = false ->
    exists w',
      unregister_all (watch_key_of t) done w = Returns tt w'
      /\ Permutation (queues_of (watch_key_of t) w') rest
      /\ (forall s, table s w' = table s w)
      /\ watchers w' = watchers w
      /\ trace w' = trace w
      /\ lock_held (watch_key_of t) w' = false.
Proof.
  induction done as [|q done IH]; intros rest w Hperm Hrest Hl.
  - exists w. cbn [unregister_all]. repeat split; auto.
  - cbn [unregister_all].
    assert (Hin : q ∈ queues_of (watch_key_of t) w).
    { rewrite Hperm. left. }
    destruct (list_remove_elem q _ Hin) as (l' & Hrem & Hp).
    assert (Hp' : Permutation l' (done ++ rest)).
    { apply (Permutation_cons_inv (a := q)). rewrite <- Hp. exact Hperm. }
    assert (Hne : l' <> []).
    { intros ->. apply Permutation_nil in Hp'. apply app_eq_nil in Hp' as [_ ?]. auto. }
    destruct (unregister_not_last t q w l' Hl Hin Hrem Hne)
      as (w1 & -> & Hq1 & Htab1 & Hws1 & Htr1 & Hl1).
    destruct (IH rest w1) as (w' & Hu & Hq' & Htab' & Hws' & Htr' & Hl').
    { rewrite Hq1. exact Hp'. }
    { exact Hrest. }
    { exact Hl1. }
    exists w'. split; [exact Hu|]. split; [exact Hq'|].
    split; [intros s; rewrite Htab'; apply Htab1|].
    split; [congruence|]. split; [congruence|exact Hl'].
Qed.

(** When all of them detach, in any order, the watcher is stopped by the
    last call, and by that one only. *)
Lemma unregister_everyone (t : thread_target) (self : nat) (qs : list nat) (w : World) :
  qs <> [] ->
  Permutation (queues_of (watch_key_of t) w) qs ->
  lock_held (watch_key_of t) w = false ->
  table (scope_of t) w !! watch_key_of t = Some self ->
  self < length (watchers w) ->
  exists w',
    unregister_all (watch_key_of t) qs w = Returns tt w'
    /\ queues_of (watch_key_of t) w' = []
    /\ table (scope_of t) w' !! watch_key_of t = None
    /\ (forall s, s <> scope_of t -> table s w' = table s w)
    /\ stop_requested self w' = true
    /\ length (watchers w') = length (watchers w)
    /\ trace w' = trace w ++ [WatchStop self;
                              LogInfo ("Stopped watcher: " +:+ watch_key_of t)]
    /\ lock_held (watch_key_of t) w' = false.
Proof.
  intros Hne Hperm Hl Hsome Hlt.
  destruct (exists_last Hne) as (done & q & ->).
  destruct (unregister_some t self done [q] w Hperm) as (w1 & Hu & Hq1 & Htab1 & Hws1 & Htr1 & Hl1);
    [discriminate|exact Hl|].
  symmetry in Hq1. apply Permutation_length_1_inv in Hq1.
  destruct (unregister_last t q w1 self Hl1 Hq1) as (w' & Hu' & H1 & H2 & H3 & H4 & H5 & H6 & H7).
  { rewrite Htab1. exact Hsome. }
  { rewrite Hws1. exact Hlt. }
  exists w'. rewrite unregister_all_app, Hu. cbn [unregister_all]. rewrite Hu'.
  split; [reflexivity|]. split; [exact H1|]. split; [exact H2|].
  split; [intros s Hs; rewrite H3 by exact Hs; apply Htab1|].
  split; [exact H4|]. split; [congruence|]. split; [congruence|exact H7].
Qed.



(** ** Whole sessions *)

(** A stream whose snapshot fetch fails: the queue it created is new, so
    it is in no list; the error path unregisters it all the same, yields
    the terminal error event, and leaves every list as it was. *)
Lemma failed_snapshot_detaches_nothing (t : thread_target) (e : string) (w : World) :
  lock_held (watch_key_of t) w = false ->
  (forall q, q ∈ queues_of (watch_key_of t) w -> is_Some (queues w !! q)) ->
  exists w',
    open_stream t (inl e) w = Returns ([error_message e], None) w'
    /\ forall k', queues_of k' w' = queues_of k' w.
Proof.
  intros Hl Halloc. unfold open_stream, new_queue, on_exception.
  set (q := fresh (dom (queues w))).
  set (w1 := emit (LogError ("Error in SSE stream: " +:+ e))
                  (set_queue q (mkQueue 100 [] false) w)).
  assert (Hq : list_mem q (queues_of (watch_key_of t) w1) = false).
  { apply list_mem_false. intros Hin. apply Halloc in Hin.
    apply elem_of_dom in Hin. exact (is_fresh (dom (queues w)) Hin). }
  rewrite (unregister_absent (watch_key_of t) q w1 Hq Hl).
  eexists. split; [reflexivity|].
  intros k'. rewrite queues_of_set_lock.
  destruct (Nat.eqb (length (queues_of (watch_key_of t) w1)) 0).
  - rewrite queues_of_stop_watcher, queues_of_touch. reflexivity.
  - rewrite queues_of_touch. reflexivity.
Qed.

(** The scenario of two clients of one namespace: A attaches, B attaches,
    an ADDED event reaches both, A detaches, a MODIFIED event reaches B
    only, B detaches and the watcher of the namespace is stopped. *)
Example two_clients_scenario :
  let '(a, w) := new_queue 100 init in
  let '(b, w) := new_queue 100 w in
  let w1 := world_of (register_namespace_watch "team-a" a w) in
  let w2 := world_of (register_namespace_watch "team-a" b w1) in
  let w3 := world_of (_broadcast_event "ns:team-a" "ADDED" object_x w2) in
  let w4 := world_of (unregister_client "ns:team-a" a w3) in
  let w5 := world_of (_broadcast_event "ns:team-a" "MODIFIED" object_x w4) in
  let w6 := world_of (unregister_client "ns:team-a" b w5) in
  length (watchers w2) = 1
  /\ pending w3 a = [envelope "ADDED" object_x]
  /\ pending w3 b = [envelope "ADDED" object_x]
  /\ pending w5 a = [envelope "ADDED" object_x]
  /\ pending w5 b = [envelope "ADDED" object_x; envelope "MODIFIED" object_x]
  /\ stop_requested 0 w5 = false
  /\ _namespace_watchers w6 !! "ns:team-a" = None
  /\ stop_requested 0 w6 = true
  /\ length (watchers w6) = 1.
Proof. vm_compute. repeat split. Qed.

(* ================================================================== *)
(** * Further properties of the manager *)
(* ================================================================== *)

(** ** No call raises *)

Lemma register_never_raises (t : thread_target) (q : nat) (w : World) :
  forall e w', register t q w <> Raises e w'.
Proof.
  intros e w'. unfold register, with_lock.
  destruct (lock_held (watch_key_of t) w); [discriminate|].
  match goal with |- context [table ?s ?x !! ?k] => destruct (table s x !! k) end;
    discriminate.
Qed.

Lemma unregister_never_raises (k : string) (q : nat) (w : World) :
  forall e w', unregister_client k q w <> Raises e w'.
Proof.
  intros e w'. unfold unregister_client, with_lock.
  destruct (lock_held k w); [discriminate|].
  set (w0 := touch k (set_lock k true w)).
  destruct (list_mem q (queues_of k w0)) eqn:Hm.
  - apply list_mem_true in Hm. destruct (list_remove_elem q _ Hm) as (l & -> & _).
    cbv beta iota.
    destruct (Nat.eqb (length (queues_of k (set_client_queues k l w0))) 0); discriminate.
  - destruct (Nat.eqb (length (queues_of k w0)) 0); discriminate.
Qed.

Lemma broadcast_never_raises (k ty : string) (obj : json) (w : World) :
  forall e w', _broadcast_event k ty obj w <> Raises e w'.
Proof.
  intros e w' H.
  destruct (broadcast_outcome k ty obj w) as [(r & w1 & Hb)|(w1 & Hb & _)];
    rewrite Hb in H; discriminate.
Qed.

(** X1.  No sequence of register, unregister and broadcast calls, from
    any state, ends in an exception: the [remove] of unregister is guarded
    by the membership test, and every queue a broadcast evicts is in the
    list it is removed from. *)
Theorem manager_calls_never_raise (rs : list request) :
  forall (w : World) (e : string) (w' : World), run_requests rs w <> Raises e w'.
Proof.
  induction rs as [|r rs IH]; intros w e w'; [discriminate|].
  cbn [run_requests].
  destruct (run_request r w) as [[] w1|e1 w1|r1 w1] eqn:E; [apply IH| |discriminate].
  exfalso. destruct r; cbn [run_request] in E.
  - exact (register_never_raises _ _ _ _ _ E).
  - exact (unregister_never_raises _ _ _ _ _ E).
  - exact (broadcast_never_raises _ _ _ _ _ _ E).
Qed.

(** ** Every action is a sequence of elementary changes *)

Section Steps.

Variable may_attach : World -> nat -> Prop.

Local Abbreviation steps := (rtc (mutation may_attach)).

Lemma steps_one (w w' : World) : mutation may_attach w w' -> steps w w'.
Proof. apply rtc_once. Qed.

Ltac step_with c := eapply rtc_l; [apply c|].
Ltac step_back_with c := eapply rtc_r; [|apply c].

Lemma steps_touch (k : string) (w : World) : steps w (touch k w).
Proof.
  unfold touch. destruct (_client_queues w !! k) eqn:E; [reflexivity|].
  apply steps_one, mut_touch, E.
Qed.

Lemma steps_stop (x : nat) (w : World) : steps w (stop x w).
Proof.
  unfold stop. destruct (watchers w !! x); [|reflexivity].
  step_with mut_watchers. apply steps_one, mut_emit.
Qed.

Lemma steps_stop_watcher (k : string) (w : World) : steps w (_stop_watcher k w).
Proof.
  assert (Hpop : forall s,
    steps w (match fst (pop s k w) with
             | Some x => emit (LogInfo ("Stopped watcher: " +:+ k)) (stop x (snd (pop s k w)))
             | None => snd (pop s k w)
             end)).
  { intros s. unfold pop. cbn [fst snd].
    destruct (table s w !! k) as [x|]; [|apply steps_one, mut_table].
    step_with mut_table. etransitivity; [apply steps_stop|]. apply steps_one, mut_emit. }
  unfold _stop_watcher.
  destruct (PyStr.startswith "ns:" k).
  { specialize (Hpop NamespaceList). destruct (pop NamespaceList k w) as [[x|] w1]; exact Hpop. }
  destruct (PyStr.startswith "isvc:" k).
  { specialize (Hpop SingleObject). destruct (pop SingleObject k w) as [[x|] w1]; exact Hpop. }
  destruct (PyStr.startswith "events:" k).
  { specialize (Hpop EventList). destruct (pop EventList k w) as [[x|] w1]; exact Hpop. }
  reflexivity.
Qed.

Lemma steps_with_lock (k : string) (body : World -> outcome unit) (w : World) :
  (forall w0, steps w0 (world_of (body w0))) ->
  steps w (world_of (with_lock k body w)).
Proof.
  intros Hbody. unfold with_lock.
  destruct (lock_held k w); [reflexivity|].
  specialize (Hbody (set_lock k true w)).
  step_with mut_lock.
  destruct (body (set_lock k true w)) as [a w'|e w'|r w']; cbn [world_of] in *.
  - step_back_with mut_lock. exact Hbody.
  - step_back_with mut_lock. exact Hbody.
  - exact Hbody.
Qed.

Lemma steps_register (t : thread_target) (q : nat) (w : World) :
  may_attach (touch (watch_key_of t) (set_lock (watch_key_of t) true w)) q ->
  steps w (world_of (register t q w)).
Proof.
  intros Hok. unfold register, with_lock.
  destruct (lock_held (watch_key_of t) w); [reflexivity|].
  set (w0 := set_lock (watch_key_of t) true w) in *.
  assert (H0 : steps w (set_client_queues (watch_key_of t)
                  (queues_of (watch_key_of t) (touch (watch_key_of t) w0) ++ [q])
                  (touch (watch_key_of t) w0))).
  { transitivity w0; [apply steps_one, mut_lock|].
    transitivity (touch (watch_key_of t) w0); [apply steps_touch|].
    apply steps_one, mut_attach, Hok. }
  match goal with |- context [table ?s ?x !! ?k] => destruct (table s x !! k) end.
  - cbn [world_of]. step_back_with mut_lock. exact H0.
  - unfold new_watcher. cbn [world_of]. step_back_with mut_lock.
    etransitivity; [exact H0|].
    step_with mut_watchers. step_with mut_emit. step_with mut_table.
    step_with mut_emit. apply steps_one, mut_emit.
Qed.

Lemma steps_unregister (k : string) (q : nat) (w : World) :
  steps w (world_of (unregister_client k q w)).
Proof.
  unfold unregister_client. apply steps_with_lock. intros w0.
  transitivity (touch k w0); [apply steps_touch|].
  destruct (list_mem q (queues_of k (touch k w0))).
  - destruct (list_remove q (queues_of k (touch k w0))) as [l|] eqn:Hr; [|reflexivity].
    transitivity (set_client_queues k l (touch k w0));
      [apply steps_one, (mut_detach _ k q l _ Hr)|].
    destruct (Nat.eqb (length (queues_of k (set_client_queues k l (touch k w0)))) 0);
      cbn [world_of]; [apply steps_stop_watcher|reflexivity].
  - destruct (Nat.eqb (length (queues_of k (touch k w0))) 0); cbn [world_of];
      [apply steps_stop_watcher|reflexivity].
Qed.

Lemma steps_deliver (event_data : json) (qs : list nat) :
  forall dead w, steps w (world_of (deliver event_data qs dead w)).
Proof.
  induction qs as [|q rest IH]; intros dead w; [reflexivity|].
  cbn [deliver]. unfold queue_put.
  destruct (queues w !! q) as [Q|] eqn:HQ.
  - destruct (is_shutdown Q) eqn:Hs.
    + step_with mut_emit. apply IH.
    + destruct (is_full Q) eqn:Hf; [reflexivity|].
      etransitivity; [apply steps_one, (mut_put _ q Q event_data w HQ Hs Hf)|apply IH].
  - step_with mut_emit. apply IH.
Qed.

Lemma steps_evict (k : string) (dead : list nat) :
  forall w, steps w (world_of (evict k dead w)).
Proof.
  induction dead as [|d rest IH]; intros w; [reflexivity|].
  cbn [evict]. destruct (list_remove d (queues_of k w)) as [l|] eqn:Hr; [|reflexivity].
  etransitivity; [apply steps_one, (mut_detach _ k d l _ Hr)|apply IH].
Qed.

Lemma steps_broadcast (k ty : string) (obj : json) (w : World) :
  steps w (world_of (_broadcast_event k ty obj w)).
Proof.
  unfold _broadcast_event. apply steps_with_lock. intros w0.
  transitivity (touch k w0); [apply steps_touch|].
  pose proof (steps_deliver (envelope ty obj) (queues_of k (touch k w0)) [] (touch k w0)) as Hd.
  destruct (deliver (envelope ty obj) (queues_of k (touch k w0)) [] (touch k w0))
    as [dead w1|e w1|r w1]; cbn [world_of] in *; [|exact Hd|exact Hd].
  etransitivity; [exact Hd|apply steps_evict].
Qed.

Lemma steps_on_exception (t : thread_target) (q : nat) (e : string) (w : World) :
  steps w (world_of (on_exception t q e w)).
Proof.
  unfold on_exception. step_with mut_emit.
  pose proof (steps_unregister (watch_key_of t) q
                (emit (LogError ("Error in SSE stream: " +:+ e)) w)) as H.
  destruct (unregister_client (watch_key_of t) q
              (emit (LogError ("Error in SSE stream: " +:+ e)) w)); exact H.
Qed.

Lemma steps_open_stream (t : thread_target) (snapshot : string + json) (w : World) :
  (forall w1, queues w1 = <[fresh (dom (queues w)) := mkQueue 100 [] false]> (queues w) ->
              (forall k, queues_of k w1 = queues_of k w) ->
              may_attach w1 (fresh (dom (queues w)))) ->
  steps w (world_of (open_stream t snapshot w)).
Proof.
  intros Hok. unfold open_stream, new_queue.
  set (q := fresh (dom (queues w))) in *.
  assert (Hq : queues w !! q = None) by (apply not_elem_of_dom, is_fresh).
  set (w1 := set_queue q (mkQueue 100 [] false) w).
  assert (H1 : steps w w1) by (apply steps_one, mut_new_queue, Hq).
  destruct snapshot as [e|payload].
  - pose proof (steps_on_exception t q e w1) as H.
    destruct (on_exception t q e w1); (etransitivity; [exact H1|exact H]).
  - assert (H : steps w1 (world_of (register t q w1))).
    { apply steps_register. apply Hok.
      - destruct (touch_fields (watch_key_of t) (set_lock (watch_key_of t) true w1))
          as (-> & _). reflexivity.
      - intros k. rewrite queues_of_touch. reflexivity. }
    destruct (register t q w1) as [[] w2|e w2|r w2]; cbn [world_of] in *.
    + etransitivity; [exact H1|exact H].
    + pose proof (steps_on_exception t q e w2) as H'.
      destruct (on_exception t q e w2);
        (etransitivity; [exact H1|]; etransitivity; [exact H|exact H']).
    + etransitivity; [exact H1|exact H].
Qed.

Lemma steps_loop_body (s : Session) (w : World) :
  steps w (run_action (Pass s) w).
Proof.
  cbn [run_action]. unfold loop_body, queue_get.
  destruct (queues w !! client_queue s) as [Q|] eqn:HQ; [|reflexivity].
  destruct (items Q) as [|item rest] eqn:Hi.
  - destruct (is_shutdown Q); [reflexivity|].
    destruct (clock (advance 1 w) - last_heartbeat s >? heartbeat_interval)%Z;
      apply steps_one, mut_advance.
  - destruct (Json.getitem item "type") as [[]|];
      apply steps_one, (mut_get _ _ _ _ _ _ HQ Hi).
Qed.

Lemma steps_on_disconnect (t : thread_target) (q : nat) (w : World) :
  steps w (world_of (on_disconnect t q w)).
Proof. unfold on_disconnect. step_with mut_emit. apply steps_unregister. Qed.

End Steps.

(** Every action, whatever its outcome, is a sequence of elementary
    changes. *)
Lemma steps_action (a : action) (w : World) :
  rtc (mutation any_queue) w (run_action a w).
Proof.
  destruct a as [[t q|k q|k ty obj]|t snapshot|s|t q|t q e]; cbn [run_action run_request].
  - apply steps_register. exact I.
  - apply steps_unregister.
  - apply steps_broadcast.
  - apply steps_open_stream. intros; exact I.
  - apply steps_loop_body.
  - apply steps_on_disconnect.
  - apply steps_on_exception.
Qed.

Lemma steps_actions (acts : list action) :
  forall w, rtc (mutation any_queue) w (run_actions acts w).
Proof.
  induction acts as [|a acts IH]; intros w; [reflexivity|].
  cbn [run_actions fold_left]. etransitivity; [apply steps_action|apply IH].
Qed.

(** ** Keys are never removed *)

#[global] Instance grows_preorder : PreOrder grows.
Proof.
  split.
  - intros w. split; reflexivity.
  - intros w1 w2 w3 [H1 H2] [G1 G2]. split; etransitivity; eassumption.
Qed.

Lemma mutation_grows (A : World -> nat -> Prop) (w w' : World) :
  mutation A w w' -> grows w w'.
Proof.
  intros H. destruct H; unfold grows;
    cbn [_locks _client_queues set_lock set_client_queues set_queue emit advance set_watchers];
    try (split; [reflexivity|reflexivity]).
  - split; [|reflexivity]. rewrite dom_insert_L. set_solver.
  - split; [reflexivity|]. rewrite dom_insert_L. set_solver.
  - split; [reflexivity|]. rewrite dom_insert_L. set_solver.
  - split; [reflexivity|]. rewrite dom_insert_L. set_solver.
  - destruct s; split; reflexivity.
Qed.

Lemma steps_grow (A : World -> nat -> Prop) (w w' : World) :
  rtc (mutation A) w w' -> grows w w'.
Proof.
  induction 1 as [|w1 w2 w3 H _ IH]; [reflexivity|].
  etransitivity; [eapply mutation_grows; exact H|exact IH].
Qed.

Lemma with_lock_creates_lock (k : string) (body : World -> outcome unit) (w : World) :
  (forall w0, grows w0 (world_of (body w0))) ->
  lock_held k w = false ->
  k ∈ dom (_locks (world_of (with_lock k body w))).
Proof.
  intros Hbody Hl. unfold with_lock. rewrite Hl.
  destruct (Hbody (set_lock k true w)) as [Hg _].
  assert (Hdom : k ∈ dom (_locks (set_lock k true w))).
  { cbn [_locks set_lock]. apply elem_of_dom. rewrite lookup_insert_eq. eauto. }
  destruct (body (set_lock k true w)) as [a w'|e w'|r w']; cbn [world_of] in *.
  - cbn [_locks set_lock]. apply elem_of_dom. rewrite lookup_insert_eq. eauto.
  - cbn [_locks set_lock]. apply elem_of_dom. rewrite lookup_insert_eq. eauto.
  - apply Hg, Hdom.
Qed.

(** X2.  The lock table and the table of queue lists only grow: whatever
    the threads do afterwards, a key that has an entry in [_locks] or in
    [_client_queues] keeps it (no call deletes from either table, not
    even the unregistration of a key's last client); and every call that
    gets its key's lock leaves an entry for that key in both tables. *)
Theorem table_keys_are_never_removed :
  (forall (acts : list action) (w : World) (k : string),
      (k ∈ dom (_locks w) -> k ∈ dom (_locks (run_actions acts w)))
      /\ (k ∈ dom (_client_queues w) -> k ∈ dom (_client_queues (run_actions acts w))))
  /\ (forall (r : request) (w : World),
         lock_held (key_of r) w = false ->
         key_of r ∈ dom (_locks (world_of (run_request r w)))
         /\ key_of r ∈ dom (_client_queues (world_of (run_request r w)))).
Proof.
  split.
  - intros acts w k. destruct (steps_grow _ _ _ (steps_actions acts w)) as [H1 H2].
    split; intros Hin; [apply H1, Hin|apply H2, Hin].
  - intros r w Hl.
    assert (Htouch : forall k w0, k ∈ dom (_client_queues (touch k w0))).
    { intros k w0. unfold touch. destruct (_client_queues w0 !! k) eqn:E.
      - apply elem_of_dom. rewrite E. eauto.
      - cbn [_client_queues set_client_queues]. rewrite dom_insert_L. set_solver. }
    assert (Hwl : forall k body,
               lock_held k w = false ->
               (forall w0, rtc (mutation any_queue) (touch k w0) (world_of (body w0))) ->
               k ∈ dom (_locks (world_of (with_lock k body w)))
               /\ k ∈ dom (_client_queues (world_of (with_lock k body w)))).
    { intros k body Hk Hbody. split.
      - apply with_lock_creates_lock; [|exact Hk]. intros w0.
        transitivity (touch k w0);
          [exact (steps_grow any_queue _ _ (steps_touch any_queue k w0))
          |exact (steps_grow any_queue _ _ (Hbody w0))].
      - unfold with_lock. rewrite Hk.
        destruct (steps_grow _ _ _ (Hbody (set_lock k true w))) as [_ Hg].
        specialize (Hg k (Htouch k _)).
        destruct (body (set_lock k true w)); exact Hg. }
    destruct r as [t q|k q|k ty obj]; cbn [key_of run_request] in *.
    + unfold register. apply Hwl; [exact Hl|]. intros w0.
      eapply rtc_l; [apply (mut_attach any_queue (watch_key_of t) q); exact I|].
      match goal with |- context [table ?s ?x !! ?k] => destruct (table s x !! k) end;
        [reflexivity|].
      unfold new_watcher. cbn [world_of].
      eapply rtc_l; [apply mut_watchers|]. eapply rtc_l; [apply mut_emit|].
      eapply rtc_l; [apply mut_table|]. eapply rtc_l; [apply mut_emit|].
      apply rtc_once, mut_emit.
    + unfold unregister_client. apply Hwl; [exact Hl|]. intros w0.
      destruct (list_mem q (queues_of k (touch k w0))).
      * destruct (list_remove q (queues_of k (touch k w0))) as [l|] eqn:Hr; [|reflexivity].
        eapply rtc_l; [apply (mut_detach _ k q l _ Hr)|].
        destruct (Nat.eqb (length (queues_of k (set_client_queues k l (touch k w0)))) 0);
          cbn [world_of]; [apply steps_stop_watcher|reflexivity].
      * destruct (Nat.eqb (length (queues_of k (touch k w0))) 0); cbn [world_of];
          [apply steps_stop_watcher|reflexivity].
    + unfold _broadcast_event. apply Hwl; [exact Hl|]. intros w0.
      pose proof (steps_deliver any_queue (envelope ty obj)
                    (queues_of k (touch k w0)) [] (touch k w0)) as Hd.
      destruct (deliver (envelope ty obj) (queues_of k (touch k w0)) [] (touch k w0))
        as [dead w1|e w1|r w1]; cbn [world_of] in *; [|exact Hd|exact Hd].
      etransitivity; [exact Hd|apply steps_evict].
Qed.

(** ** The states the routes can reach *)

Lemma well_formed_same (w w' : World) :
  queues w' = queues w -> (forall k, queues_of k w' = queues_of k w) ->
  well_formed w -> well_formed w'.
Proof.
  intros Hq Hl (H1 & H2 & H3 & H4). unfold well_formed.
  rewrite Hq. split; [exact H1|]. split; [|split].
  - intros k q. rewrite Hl. apply H2.
  - intros k. rewrite Hl. apply H3.
  - intros k k' q. rewrite !Hl. apply H4.
Qed.

Lemma list_remove_facts (q : nat) (l l' : list nat) :
  list_remove q l = Some l' ->
  (forall x, x ∈ l' -> x ∈ l) /\ (NoDup l -> NoDup l').
Proof.
  revert l'. induction l as [|y l IH]; intros l' H; [discriminate|].
  cbn [list_remove] in H. destruct (Nat.eqb q y) eqn:E.
  - injection H as <-. split.
    + intros x Hx. now right.
    + intros Hnd. now apply NoDup_cons in Hnd as [_ ?].
  - destruct (list_remove q l) as [r|] eqn:Hr; [|discriminate].
    injection H as <-. destruct (IH r eq_refl) as [Hsub Hnd]. split.
    + intros x Hx. apply elem_of_cons in Hx as [->|Hx]; [left|right; auto].
    + intros Hnd'. apply NoDup_cons in Hnd' as [Hy Hl]. apply NoDup_cons. split; auto.
Qed.

Lemma queues_of_set (k k' : string) (l : list nat) (w : World) :
  queues_of k' (set_client_queues k l w) = if decide (k = k') then l else queues_of k' w.
Proof.
  destruct (decide (k = k')) as [->|Hne];
    [apply queues_of_set_same|now apply queues_of_set_other].
Qed.

Lemma mutation_well_formed (w w' : World) :
  mutation unattached w w' -> well_formed w -> well_formed w'.
Proof.
  intros H Hwf. destruct H as [k held w|k w Hnone|k q w Hok|k q l w Hrem|q w Hnone
                              |q Q item w HQ Hs Hf|q Q item rest w HQ Hi
                              |e w|d w|ws w|s t w].
  - now apply (well_formed_same w).
  - apply (well_formed_same w); [reflexivity| |exact Hwf].
    intros k'. rewrite queues_of_set. destruct (decide (k = k')) as [<-|]; [|reflexivity].
    unfold queues_of. now rewrite Hnone.
  - destruct Hwf as (H1 & H2 & H3 & H4). destruct Hok as [Halloc Hfree].
    unfold well_formed. cbn [queues set_client_queues].
    split; [exact H1|]. split; [|split].
    + intros k' x. rewrite queues_of_set. destruct (decide (k = k')) as [<-|]; [|apply H2].
      rewrite elem_of_app, list_elem_of_singleton. intros [Hx| ->]; [eapply H2, Hx|exact Halloc].
    + intros k'. rewrite queues_of_set. destruct (decide (k = k')) as [<-|]; [|apply H3].
      apply NoDup_app. split; [apply H3|]. split; [|apply NoDup_singleton].
      intros x Hx Hx'. apply list_elem_of_singleton in Hx' as ->. exact (Hfree k Hx).
    + intros k1 k2 x. rewrite !queues_of_set.
      destruct (decide (k = k1)) as [<-|], (decide (k = k2)) as [<-|]; try congruence.
      * rewrite elem_of_app, list_elem_of_singleton.
        intros [Hx| ->] Hx'; [eapply H4; eassumption|exfalso; exact (Hfree _ Hx')].
      * rewrite elem_of_app, list_elem_of_singleton.
        intros Hx' [Hx| ->]; [eapply H4; eassumption|exfalso; exact (Hfree _ Hx')].
      * apply H4.
  - destruct Hwf as (H1 & H2 & H3 & H4). destruct (list_remove_facts _ _ _ Hrem) as [Hsub Hnd].
    unfold well_formed. cbn [queues set_client_queues].
    split; [exact H1|]. split; [|split].
    + intros k' x. rewrite queues_of_set. destruct (decide (k = k')) as [<-|]; [|apply H2].
      intros Hx. eapply H2, Hsub, Hx.
    + intros k'. rewrite queues_of_set. destruct (decide (k = k')) as [<-|]; [|apply H3].
      apply Hnd, H3.
    + intros k1 k2 x. rewrite !queues_of_set.
      destruct (decide (k = k1)) as [<-|], (decide (k = k2)) as [<-|]; try congruence.
      * intros Hx Hx'. eapply H4; [apply Hsub, Hx|exact Hx'].
      * intros Hx Hx'. eapply H4; [exact Hx|apply Hsub, Hx'].
      * apply H4.
  - destruct Hwf as (H1 & H2 & H3 & H4).
    unfold well_formed. cbn [queues set_queue].
    split; [|split; [|split; assumption]].
    + intros x X. destruct (decide (q = x)) as [<-|Hne].
      * rewrite lookup_insert_eq. intros [= <-]. cbn. repeat split; lia.
      * rewrite lookup_insert_ne by exact Hne. apply H1.
    + intros k x Hx. destruct (decide (q = x)) as [<-|Hne].
      * rewrite lookup_insert_eq. eauto.
      * rewrite lookup_insert_ne by exact Hne. eapply H2, Hx.
  - destruct Hwf as (H1 & H2 & H3 & H4). destruct (H1 q Q HQ) as (Hm & _ & Hlen).
    unfold well_formed. cbn [queues set_queue].
    split; [|split; [|split; assumption]].
    + intros x X. destruct (decide (q = x)) as [<-|Hne].
      * rewrite lookup_insert_eq. intros [= <-]. cbn [maxsize is_shutdown items].
        split; [exact Hm|]. split; [reflexivity|].
        unfold is_full in Hf. rewrite Hm in Hf. cbn in Hf.
        apply Z.leb_gt in Hf. rewrite length_app. cbn [length]. lia.
      * rewrite lookup_insert_ne by exact Hne. apply H1.
    + intros k x Hx. destruct (decide (q = x)) as [<-|Hne].
      * rewrite lookup_insert_eq. eauto.
      * rewrite lookup_insert_ne by exact Hne. eapply H2, Hx.
  - destruct Hwf as (H1 & H2 & H3 & H4). destruct (H1 q Q HQ) as (Hm & Hsd & Hlen).
    unfold well_formed. cbn [queues set_queue].
    split; [|split; [|split; assumption]].
    + intros x X. destruct (decide (q = x)) as [<-|Hne].
      * rewrite lookup_insert_eq. intros [= <-]. cbn [maxsize is_shutdown items].
        split; [exact Hm|]. split; [exact Hsd|].
        rewrite Hi in Hlen. cbn [length] in Hlen. lia.
      * rewrite lookup_insert_ne by exact Hne. apply H1.
    + intros k x Hx. destruct (decide (q = x)) as [<-|Hne].
      * rewrite lookup_insert_eq. eauto.
      * rewrite lookup_insert_ne by exact Hne. eapply H2, Hx.
  - now apply (well_formed_same w).
  - now apply (well_formed_same w).
  - now apply (well_formed_same w).
  - apply (well_formed_same w); [destruct s; reflexivity| |exact Hwf].
    intros k. destruct s; reflexivity.
Qed.

Lemma steps_well_formed (w w' : World) :
  rtc (mutation unattached) w w' -> well_formed w -> well_formed w'.
Proof.
  induction 1 as [|w1 w2 w3 H _ IH]; [auto|].
  intros Hwf. apply IH. eapply mutation_well_formed; eassumption.
Qed.

(** An action of the routes, started in a well-formed state, attaches
    only a queue that it has just created. *)
Lemma route_action_steps (a : action) (w : World) :
  from_routes a -> well_formed w -> rtc (mutation unattached) w (run_action a w).
Proof.
  intros Hr Hwf.
  destruct a as [[t q|k q|k ty obj]|t snapshot|s|t q|t q e]; cbn [run_action run_request].
  - destruct Hr.
  - apply steps_unregister.
  - apply steps_broadcast.
  - apply steps_open_stream. intros w1 Hq Hl. split.
    + rewrite Hq, lookup_insert_eq. eauto.
    + intros k Hin. rewrite Hl in Hin. destruct Hwf as (_ & H2 & _).
      apply H2 in Hin. apply elem_of_dom in Hin. exact (is_fresh _ Hin).
  - apply steps_loop_body.
  - apply steps_on_disconnect.
  - apply steps_on_exception.
Qed.

Lemma well_formed_init : well_formed init.
Proof.
  unfold well_formed, init, queues_of. cbn [queues _client_queues].
  split; [|split; [|split]].
  - intros q Q H. rewrite lookup_empty in H. discriminate.
  - intros k q. rewrite lookup_empty. intros H. inversion H.
  - intros k. rewrite lookup_empty. constructor.
  - intros k k' q. rewrite lookup_empty. intros H. inversion H.
Qed.

Lemma run_actions_well_formed (acts : list action) :
  forall w, Forall from_routes acts -> well_formed w -> well_formed (run_actions acts w).
Proof.
  induction acts as [|a acts IH]; intros w Hall Hwf; [exact Hwf|].
  apply Forall_cons in Hall as [Ha Hall]. cbn [run_actions fold_left].
  apply IH; [exact Hall|].
  eapply steps_well_formed; [apply route_action_steps; assumption|exact Hwf].
Qed.

(** X3.  In every state that the routes and the watcher threads can
    produce from the initial one (streams opened with a queue of their
    own, loop passes, disconnections, stream errors, unregistrations and
    broadcasts, in any number and order): every queue is a working queue
    of capacity 100 that holds at most 100 envelopes, every list holds
    existing queues without repetition, and no queue is attached under
    two keys. *)
Theorem reachable_states_are_well_formed (acts : list action) :
  Forall from_routes acts -> well_formed (run_actions acts init).
Proof.
  intros Hall. apply run_actions_well_formed; [exact Hall|apply well_formed_init].
Qed.

Lemma reachable_states_are_well_formed_witness :
  well_formed
    (run_actions [Open (WatchNamespace "team-a") (inr (JList []));
                  Call (Publish "ns:team-a" "ADDED" object_x);
                  Pass (mkSession (WatchNamespace "team-a") 0 0);
                  Open (WatchSingle "team-a" "m") (inl "not found");
                  Disconnect (WatchNamespace "team-a") 0]
                 init).
Proof.
  apply reachable_states_are_well_formed. repeat constructor.
Defined.

(** ** Broadcasts in well-formed states *)

Lemma deliver_without_full_queue (event_data : json) (qs : list nat) :
  forall (dead : list nat) (w : World),
    NoDup qs ->
    (forall q, q ∈ qs -> exists Q, queues w !! q = Some Q
                                   /\ is_shutdown Q = false /\ is_full Q = false) ->
    exists dead' w', deliver event_data qs dead w = Returns dead' w'.
Proof.
  induction qs as [|q rest IH]; intros dead w Hnd Hok; [cbn; eauto|].
  apply NoDup_cons in Hnd as [Hq Hnd]. cbn [deliver]. unfold queue_put.
  destruct (Hok q) as (Q & -> & -> & ->); [left|].
  apply IH; [exact Hnd|].
  intros q' Hq'. cbn [queues set_queue].
  rewrite lookup_insert_ne by (intros ->; exact (Hq Hq')).
  apply Hok. now right.
Qed.

Lemma evict_never_blocks (k : string) (dead : list nat) :
  forall w r w', evict k dead w <> Blocked r w'.
Proof.
  induction dead as [|d dead IH]; intros w r w'; [discriminate|].
  cbn [evict]. destruct (list_remove d (queues_of k w)); [apply IH|discriminate].
Qed.

Lemma filter_none (p : nat -> bool) (l : list nat) :
  (forall x, x ∈ l -> p x = false) -> List.filter p l = [].
Proof.
  induction l as [|x l IH]; intros H; [reflexivity|].
  cbn [List.filter]. rewrite (H x) by left. apply IH. intros y Hy. apply H. now right.
Qed.

Lemma well_formed_attached (w : World) (k : string) (q : nat) :
  well_formed w -> q ∈ queues_of k w ->
  put_raises w q = false
  /\ count_occ Nat.eq_dec (queues_of k w) q = 1
  /\ exists Q, queues w !! q = Some Q /\ maxsize Q = 100%Z /\ is_shutdown Q = false.
Proof.
  intros (H1 & H2 & H3 & _) Hq.
  destruct (H2 k q Hq) as (Q & HQ). destruct (H1 q Q HQ) as (Hm & Hs & _).
  split; [unfold put_raises; now rewrite HQ|]. split; [|eauto].
  apply NoDup_count_occ'; [apply NoDup_ListNoDup, H3|now apply list_elem_of_In].
Qed.

Lemma well_formed_broadcast (k ty : string) (obj : json) (w w' : World) :
  well_formed w ->
  _broadcast_event k ty obj w = Returns tt w' ->
  well_formed w'
  /\ (forall k', queues_of k' w' = queues_of k' w)
  /\ trace w' = trace w
  /\ (forall q, q ∈ queues_of k w -> pending w' q = pending w q ++ [envelope ty obj])
  /\ (forall q, q ∉ queues_of k w -> pending w' q = pending w q)
  /\ (forall s, table s w' = table s w)
  /\ watchers w' = watchers w.
Proof.
  intros Hwf Hb.
  assert (Hwf' : well_formed w').
  { apply (steps_well_formed w); [|exact Hwf].
    replace w' with (world_of (_broadcast_event k ty obj w)) by now rewrite Hb.
    apply steps_broadcast. }
  destruct (broadcast_outcome k ty obj w)
    as [(r & w2 & Hb2)|(w2 & Hb2 & _ & Hlist & Htr & Hpend & Htab & Hws & Hother & _)];
    [congruence|].
  assert (w2 = w') as -> by congruence.
  assert (Hnone : forall q, q ∈ queues_of k w -> put_raises w q = false)
    by (intros q Hq; apply (well_formed_attached w k q Hwf Hq)).
  assert (Hsame : queues_of k w' = queues_of k w).
  { rewrite Hlist. apply forallb_filter_id, forallb_forall. intros q Hq.
    apply list_elem_of_In in Hq. now rewrite (Hnone q Hq). }
  split; [exact Hwf'|]. split.
  { intros k'. destruct (decide (k' = k)) as [->|Hne]; [exact Hsame|now apply Hother]. }
  split.
  { rewrite Htr, (filter_none _ _ Hnone). apply app_nil_r. }
  split.
  { intros q Hq. rewrite Hpend.
    destruct (well_formed_attached w k q Hwf Hq) as (-> & -> & _). reflexivity. }
  split; [|split; [exact Htab|exact Hws]].
  intros q Hq. rewrite Hpend. destruct (put_raises w q); [apply app_nil_r|].
  rewrite (proj1 (count_occ_not_In Nat.eq_dec _ _)); [apply app_nil_r|].
  intros Hin. apply Hq. now apply list_elem_of_In.
Qed.

(** X4.  In a well-formed state the eviction path of a broadcast is never
    taken.  If the key's lock is free and no attached queue holds its 100
    items, the broadcast returns: every attached queue has received the
    envelope exactly once, at the end of its items; no queue was removed
    from the list, nothing was logged, and the queues that are not
    attached under the key hold what they held.  If the lock is taken or
    some attached queue is full, the broadcast does not return. *)
Theorem broadcast_delivers_or_blocks (k ty : string) (obj : json) (w : World) :
  well_formed w ->
  (lock_held k w = false ->
   (forall q, q ∈ queues_of k w -> length (pending w q) < 100) ->
   exists w',
     _broadcast_event k ty obj w = Returns tt w'
     /\ queues_of k w' = queues_of k w
     /\ trace w' = trace w
     /\ (forall q, q ∈ queues_of k w -> pending w' q = pending w q ++ [envelope ty obj])
     /\ (forall q, q ∉ queues_of k w -> pending w' q = pending w q))
  /\ (lock_held k w = true \/ (exists q, q ∈ queues_of k w /\ length (pending w q) = 100) ->
      exists r w', _broadcast_event k ty obj w = Blocked r w').
Proof.
  intros Hwf. split.
  - intros Hl Hroom.
    destruct (broadcast_outcome k ty obj w)
      as [(r & w' & Hb)|(w' & Hb & _)].
    { exfalso. revert Hb. unfold _broadcast_event, with_lock. rewrite Hl.
      rewrite queues_of_touch, queues_of_set_lock.
      destruct (deliver_without_full_queue (envelope ty obj) (queues_of k w) []
                  (touch k (set_lock k true w))) as (dead' & w1 & ->).
      - destruct Hwf as (_ & _ & H3 & _). apply H3.
      - intros q Hq. destruct (well_formed_attached w k q Hwf Hq) as (_ & _ & Q & HQ & Hm & Hs).
        exists Q. destruct (touch_fields k (set_lock k true w)) as (-> & _).
        cbn [queues set_lock]. split; [exact HQ|]. split; [exact Hs|].
        specialize (Hroom q Hq). unfold pending in Hroom. rewrite HQ in Hroom.
        unfold is_full. rewrite Hm. apply andb_false_iff. right. apply Z.leb_gt. lia.
      - cbn [app]. destruct (evict k dead' w1) eqn:E; intros Hb; try discriminate Hb.
        now apply evict_never_blocks in E. }
    destruct (well_formed_broadcast k ty obj w w' Hwf Hb) as (_ & Hk & Htr' & Hin & Hout & _).
    exists w'. repeat split; auto.
  - intros [Hl|(q & Hq & Hfull)].
    + exists (WaitLock k), w. unfold _broadcast_event, with_lock. now rewrite Hl.
    + destruct (lock_held k w) eqn:Hl.
      { exists (WaitLock k), w. unfold _broadcast_event, with_lock. now rewrite Hl. }
      destruct (well_formed_attached w k q Hwf Hq) as (_ & _ & Q & HQ & Hm & Hs).
      destruct (full_queue_stalls_broadcast k ty obj w q Q Hl Hq HQ Hs)
        as (q' & w' & Hb & _); [|eauto].
      unfold pending in Hfull. rewrite HQ in Hfull.
      unfold is_full. rewrite Hm, Hfull. reflexivity.
Qed.

Lemma broadcast_delivers_or_blocks_witness :
  exists w',
    _broadcast_event "ns:team-a" "ADDED" object_x
      (run_actions [Open (WatchNamespace "team-a") (inr (JList []))] init)
    = Returns tt w'
    /\ pending w' 0 = [envelope "ADDED" object_x].
Proof.
  destruct (broadcast_delivers_or_blocks "ns:team-a" "ADDED" object_x
              (run_actions [Open (WatchNamespace "team-a") (inr (JList []))] init))
    as [H _].
  - apply run_actions_well_formed; [repeat constructor|apply well_formed_init].
  - destruct H as (w' & Hb & _ & _ & Hpend & _).
    + vm_compute. reflexivity.
    + intros q Hq.
      replace (queues_of "ns:team-a" _) with [0] in Hq by (vm_compute; reflexivity).
      apply list_elem_of_singleton in Hq as ->. vm_compute. lia.
    + exists w'. split; [exact Hb|]. rewrite (Hpend 0).
      * vm_compute. reflexivity.
      * replace (queues_of "ns:team-a" _) with [0] by (vm_compute; reflexivity). left.
Defined.

(* ================================================================== *)
(** ** Lock discipline *)
(* ================================================================== *)

Lemma with_lock_returns (k : string) (body : World -> outcome unit) (w w' : World) :
  with_lock k body w = Returns tt w' ->
  lock_held k w = false
  /\ exists w1, body (set_lock k true w) = Returns tt w1 /\ w' = set_lock k false w1.
Proof.
  unfold with_lock. destruct (lock_held k w); [discriminate|].
  destruct (body (set_lock k true w)) as [[] w1|e w1|r w1] eqn:E; try discriminate.
  intros [= <-]. eauto.
Qed.

Lemma evict_locks (k : string) (dead : list nat) :
  forall w w', evict k dead w = Returns tt w' -> _locks w' = _locks w.
Proof.
  induction dead as [|d dead IH]; intros w w'; cbn [evict].
  - now intros [= <-].
  - destruct (list_remove d (queues_of k w)); [|discriminate].
    intros H. now rewrite (IH _ _ H).
Qed.

Lemma returning_call_locks (r : request) (w w' : World) :
  run_request r w = Returns tt w' ->
  lock_held (key_of r) w = false
  /\ _locks w' = <[key_of r := false]> (<[key_of r := true]> (_locks w)).
Proof.
  destruct r as [t q|k q|k ty obj]; cbn [run_request key_of]; intros H.
  - apply with_lock_returns in H as (Hl & w1 & Hb & ->). split; [exact Hl|].
    cbn [_locks set_lock]. f_equal. revert Hb.
    destruct (touch_fields (watch_key_of t) (set_lock (watch_key_of t) true w))
      as (_ & _ & _ & Ht & _).
    cbv beta zeta.
    match goal with |- context [table ?s ?x !! ?k] => destruct (table s x !! k) end.
    + intros [= <-]. exact Ht.
    + intros [= <-]. destruct (scope_of t); exact Ht.
  - apply with_lock_returns in H as (Hl & w1 & Hb & ->). split; [exact Hl|].
    cbn [_locks set_lock]. f_equal. revert Hb.
    destruct (touch_fields k (set_lock k true w)) as (_ & _ & _ & Ht & _).
    cbv beta zeta.
    destruct (list_mem q (queues_of k (touch k (set_lock k true w)))).
    + destruct (list_remove q (queues_of k (touch k (set_lock k true w)))) as [l|];
        [|discriminate].
      destruct (Nat.eqb _ 0); intros [= <-].
      * destruct (stop_watcher_fields k (set_client_queues k l (touch k (set_lock k true w))))
          as (_ & _ & -> & _). exact Ht.
      * exact Ht.
    + destruct (Nat.eqb _ 0); intros [= <-].
      * destruct (stop_watcher_fields k (touch k (set_lock k true w))) as (_ & _ & -> & _).
        exact Ht.
      * exact Ht.
  - apply with_lock_returns in H as (Hl & w1 & Hb & ->). split; [exact Hl|].
    cbn [_locks set_lock]. f_equal. revert Hb.
    destruct (touch_fields k (set_lock k true w)) as (_ & _ & _ & Ht & _).
    cbv beta zeta.
    match goal with |- context [deliver ?a ?b ?c ?d] =>
      destruct (deliver a b c d) as [dead w2|e w2|r w2] eqn:Hd end; try discriminate.
    intros He. apply evict_locks in He. rewrite He.
    apply deliver_returns in Hd as (_ & _ & _ & _ & _ & _ & ->). exact Ht.
Qed.

Lemma lock_held_after (k k' : string) (w w' : World) :
  lock_held k w = false ->
  _locks w' = <[k := false]> (<[k := true]> (_locks w)) ->
  lock_held k' w' = lock_held k' w.
Proof.
  unfold lock_held. intros Hl ->. destruct (decide (k' = k)) as [->|Hne].
  - rewrite lookup_insert_eq. now rewrite Hl.
  - now rewrite !lookup_insert_ne by congruence.
Qed.

Lemma attach_returns (t : thread_target) (q : nat) (w : World) :
  lock_held (watch_key_of t) w = false -> exists w', register t q w = Returns tt w'.
Proof.
  intros Hl. destruct (table (scope_of t) w !! watch_key_of t) as [self|] eqn:E.
  - destruct (register_next t q w self Hl E) as (w' & H & _). eauto.
  - destruct (register_first t q w Hl E) as (w' & H & _). eauto.
Qed.

Lemma detach_returns (k : string) (q : nat) (w : World) :
  lock_held k w = false -> exists w', unregister_client k q w = Returns tt w'.
Proof.
  intros Hl. destruct (list_mem q (queues_of k w)) eqn:E.
  - apply list_mem_true in E.
    destruct (list_remove_elem q _ E) as (l' & Hr & _).
    rewrite (unregister_present k q w l' Hl E Hr). eauto.
  - rewrite (unregister_absent k q w E Hl). eauto.
Qed.

(** X5.  Every call of the manager takes the lock of its key and of no
    other key.  A call that returns found the lock free and leaves every
    lock as it found it; a call on a key whose lock is taken waits for
    that lock, having changed nothing; and a register or unregister call
    that finds the lock free always returns (a broadcast may still wait
    for room in a client's queue). *)
Theorem locks_are_released (r : request) (w : World) :
  (forall w', run_request r w = Returns tt w' ->
              lock_held (key_of r) w = false
              /\ forall k, lock_held k w' = lock_held k w)
  /\ (lock_held (key_of r) w = true ->
      run_request r w = Blocked (WaitLock (key_of r)) w)
  /\ (lock_held (key_of r) w = false ->
      (forall k ty obj, r <> Publish k ty obj) ->
      exists w', run_request r w = Returns tt w').
Proof.
  split; [|split].
  - intros w' H. apply returning_call_locks in H as (Hl & Hlocks).
    split; [exact Hl|]. intros k. exact (lock_held_after (key_of r) k w w' Hl Hlocks).
  - intros Hl. destruct r; cbn [run_request key_of] in *;
      unfold register, unregister_client, _broadcast_event, with_lock; now rewrite Hl.
  - intros Hl Hr. destruct r as [t q|k q|k ty obj]; cbn [run_request key_of] in *.
    + now apply attach_returns.
    + now apply detach_returns.
    + now destruct (Hr k ty obj).
Qed.

Lemma locks_are_released_witness :
  exists w',
    run_request (Attach (WatchSingle "team-a" "m") 7) (set_lock "ns:other" true init)
    = Returns tt w'
    /\ lock_held "isvc:team-a/m" w' = false
    /\ lock_held "ns:other" w' = true.
Proof.
  destruct (locks_are_released (Attach (WatchSingle "team-a" "m") 7)
              (set_lock "ns:other" true init)) as (Hret & _ & Hprog).
  destruct Hprog as (w' & H); [reflexivity|discriminate|].
  exists w'. split; [exact H|].
  destruct (Hret w' H) as (_ & Hk).
  split; rewrite Hk; reflexivity.
Defined.

(* ================================================================== *)
(** ** From a broadcast to the bytes of a stream *)
(* ================================================================== *)

Lemma well_formed_broadcast_all (k : string) (evs : list (string * json)) :
  forall w w',
    well_formed w ->
    broadcast_all k evs w = Returns tt w' ->
    well_formed w'
    /\ (forall k', queues_of k' w' = queues_of k' w)
    /\ trace w' = trace w
    /\ (forall q, q ∈ queues_of k w -> pending w' q = pending w q ++ envelopes evs)
    /\ (forall q, q ∉ queues_of k w -> pending w' q = pending w q)
    /\ (forall s, table s w' = table s w)
    /\ watchers w' = watchers w.
Proof.
  induction evs as [|[ty obj] evs IH]; intros w w' Hwf; cbn [broadcast_all envelopes map].
  - intros [= <-]. split; [exact Hwf|]. split; [reflexivity|]. split; [reflexivity|].
    split; [intros; symmetry; apply app_nil_r|]. repeat split; reflexivity.
  - destruct (_broadcast_event k ty obj w) as [[] w1|e w1|r w1] eqn:Hb; try discriminate.
    intros Hrest.
    destruct (well_formed_broadcast k ty obj w w1 Hwf Hb)
      as (Hwf1 & Hk1 & Htr1 & Hin1 & Hout1 & Htab1 & Hws1).
    destruct (IH w1 w' Hwf1 Hrest) as (Hwf' & Hk' & Htr' & Hin' & Hout' & Htab' & Hws').
    split; [exact Hwf'|]. split; [intros k'; now rewrite Hk', Hk1|].
    split; [congruence|]. split; [|split; [|split]].
    + intros q Hq. rewrite Hin' by now rewrite Hk1. rewrite Hin1 by exact Hq.
      now rewrite <- app_assoc.
    + intros q Hq. rewrite Hout' by now rewrite Hk1. now apply Hout1.
    + intros s. now rewrite Htab', Htab1.
    + congruence.
Qed.

Lemma frame_of_envelope (ty : string) (obj : json) :
  _format_sse_message (PyStr.lower ty) (envelope ty obj) = frame (ty, obj).
Proof. unfold _format_sse_message, frame. now rewrite lower_idempotent. Qed.

(** A session whose queue starts with the envelopes of [evs] yields their
    frames in as many passes, without waiting. *)
Lemma session_drains_queue (evs : list (string * json)) :
  forall (s : Session) (w : World) (rest : list json),
    is_Some (queues w !! client_queue s) ->
    pending w (client_queue s) = envelopes evs ++ rest ->
    run_loop (length evs) s w = map (fun ev => (clock w, frame ev)) evs.
Proof.
  induction evs as [|[ty obj] evs IH]; intros s w rest [Q HQ] Hp; [reflexivity|].
  unfold pending in Hp. rewrite HQ in Hp. cbn [envelopes map app fst snd] in Hp.
  set (w1 := set_queue (client_queue s)
               (mkQueue (maxsize Q) (envelopes evs ++ rest) (is_shutdown Q)) w).
  set (s1 := mkSession (target s) (client_queue s) (clock w1)).
  assert (Hbody : loop_body s w = Yielded (frame (ty, obj)) s1 w1).
  { unfold loop_body, queue_get. rewrite HQ, Hp. cbn [Json.getitem envelope Json.assoc].
    cbn [String.eqb Ascii.eqb Bool.eqb]. now rewrite frame_of_envelope. }
  cbn [length run_loop map]. rewrite Hbody. f_equal.
  apply (IH s1 w1 rest).
  - cbn [client_queue s1 w1 queues set_queue]. rewrite lookup_insert_eq. eauto.
  - unfold pending. cbn [client_queue s1 w1 queues set_queue].
    now rewrite lookup_insert_eq.
Qed.

(** X6.  What is published under a key comes out of every stream attached
    to it, in the order of publication and once each.  In a well-formed
    state, when the broadcasts of [evs] under [k] have all returned, a
    session attached under [k] whose queue held the envelopes of [old]
    yields, in its next passes and without waiting, the frames of [old]
    and then those of [evs]: for each event one chunk whose event line is
    the type in lower case and whose data line is the envelope. *)
Theorem published_events_reach_the_stream
        (k : string) (old evs : list (string * json)) (s : Session) (w w' : World) :
  well_formed w ->
  client_queue s ∈ queues_of k w ->
  pending w (client_queue s) = envelopes old ->
  broadcast_all k evs w = Returns tt w' ->
  run_loop (length (old ++ evs)) s w'
  = map (fun ev => (clock w', frame ev)) (old ++ evs).
Proof.
  intros Hwf Hq Hold Hb.
  destruct (well_formed_broadcast_all k evs w w' Hwf Hb) as (Hwf' & Hk & _ & Hin & _).
  apply (session_drains_queue (old ++ evs) s w' []).
  - destruct Hwf' as (_ & H2 & _). apply (H2 k). now rewrite Hk.
  - rewrite (Hin _ Hq), Hold, app_nil_r. unfold envelopes. now rewrite map_app.
Qed.

Lemma published_events_reach_the_stream_witness :
  map snd
      (run_loop 2 (mkSession (WatchNamespace "team-a") 0 0)
         (world_of (broadcast_all "ns:team-a"
                      [("ADDED", object_x); ("MODIFIED", object_x)]
                      (run_actions [Open (WatchNamespace "team-a") (inr (JList []))] init))))
  = [frame ("ADDED", object_x); modified_x_bytes].
Proof.
  rewrite (published_events_reach_the_stream "ns:team-a" []
             [("ADDED", object_x); ("MODIFIED", object_x)]
             (mkSession (WatchNamespace "team-a") 0 0)
             (run_actions [Open (WatchNamespace "team-a") (inr (JList []))] init)).
  - vm_compute. reflexivity.
  - apply run_actions_well_formed; [repeat constructor|apply well_formed_init].
  - vm_compute. left.
  - vm_compute. reflexivity.
  - vm_compute. reflexivity.
Defined.

(* ================================================================== *)
(** ** The watcher thread as a relay *)
(* ================================================================== *)

(** While its watcher is not stopped, the [for] loop with the manager's
    callback is the sequence of broadcasts. *)
Lemma for_events_broadcasts (self : nat) (k : string) (evs : list (string * json)) :
  forall w,
    stop_requested self w = false ->
    for_events self (event_callback k) evs w
    = match broadcast_all k evs w with
      | Returns _ w' => Returns false w'
      | Raises e w' => Raises e w'
      | Blocked r w' => Blocked r w'
      end.
Proof.
  induction evs as [|[ty obj] evs IH]; intros w Hs; cbn [for_events broadcast_all];
    [reflexivity|].
  rewrite Hs. unfold event_callback.
  destruct (broadcast_outcome k ty obj w) as [(r & w' & ->)|(w' & -> & H)]; [reflexivity|].
  apply IH. unfold stop_requested.
  destruct H as (_ & _ & _ & _ & _ & -> & _). exact Hs.
Qed.

Lemma reconnect_well_formed (self : nat) (w : World) :
  well_formed w ->
  well_formed (_reconnect_with_backoff self 1 32 w)
  /\ (forall k, queues_of k (_reconnect_with_backoff self 1 32 w) = queues_of k w)
  /\ (forall q, pending (_reconnect_with_backoff self 1 32 w) q = pending w q).
Proof.
  intros Hwf. unfold _reconnect_with_backoff.
  destruct (_ && _); [|auto].
  split; [|split; reflexivity]. now apply (well_formed_same w).
Qed.

(** X7.  A watcher thread loses, repeats and reorders nothing, across
    any number of reconnects.  Started in a well-formed state with the
    manager's callback for key [k], and run through the streams of
    [upstream] without being stopped or blocked, the thread is still in
    its loop, every queue attached under [k] has received the envelopes
    of all the events of all the streams, in order of arrival, and the
    thread has slept one time unit for each stream that ended with an
    exception, and not at all for the streams that just ended. *)
Theorem watcher_forwards_every_event
        (t : thread_target) (self : nat) (k : string) (upstream : list attempt) :
  forall (w w' : World) (b : bool),
    well_formed w ->
    stop_requested self w = false ->
    watch t self (event_callback k) upstream w = Returns b w' ->
    b = false
    /\ (forall q, q ∈ queues_of k w ->
                  pending w' q = pending w q ++ envelopes (upstream_events upstream))
    /\ sleeps (trace w')
       = sleeps (trace w) ++ repeat 1%Z (length (List.filter failed upstream))
    /\ stop_requested self w' = false
    /\ well_formed w'.
Proof.
  induction upstream as [|a later IH]; intros w w' b Hwf Hs; cbn [watch]; rewrite Hs.
  - intros [= <- <-]. cbn [upstream_events flat_map envelopes map List.filter length repeat].
    rewrite app_nil_r. split; [reflexivity|]. split; [intros; symmetry; apply app_nil_r|].
    split; [reflexivity|]. split; [exact Hs|exact Hwf].
  - rewrite for_events_broadcasts by exact Hs.
    set (w0 := emit (LogInfo (starting_message t)) w).
    assert (Hwf0 : well_formed w0) by now apply (well_formed_same w).
    destruct (broadcast_all k (events a) w0) as [[] w1|e w1|r w1] eqn:Hb; try discriminate.
    destruct (well_formed_broadcast_all k (events a) w0 w1 Hwf0 Hb)
      as (Hwf1 & Hk1 & Htr1 & Hin1 & _ & _ & Hws1).
    assert (Hs1 : stop_requested self w1 = false)
      by (unfold stop_requested; rewrite Hws1; exact Hs).
    assert (Hsl1 : sleeps (trace w1) = sleeps (trace w)).
    { rewrite Htr1. unfold w0. cbn [trace emit]. rewrite sleeps_app. apply app_nil_r. }
    assert (Hstep : forall w2,
               well_formed w2 -> stop_requested self w2 = false ->
               (forall k', queues_of k' w2 = queues_of k' w1) ->
               (forall q, pending w2 q = pending w1 q) ->
               forall n, sleeps (trace w2) = sleeps (trace w1) ++ repeat 1%Z n ->
               watch t self (event_callback k) later w2 = Returns b w' ->
               b = false
               /\ (forall q, q ∈ queues_of k w ->
                     pending w' q
                     = pending w q ++ envelopes (events a ++ upstream_events later))
               /\ sleeps (trace w')
                  = sleeps (trace w) ++ repeat 1%Z (n + length (List.filter failed later))
               /\ stop_requested self w' = false
               /\ well_formed w').
    { intros w2 Hwf2 Hs2 Hk2 Hp2 n Hsl2 Hw.
      destruct (IH w2 w' b Hwf2 Hs2 Hw) as (-> & Hin & Hsl & Hs' & Hwf').
      split; [reflexivity|]. split; [|split; [|split; assumption]].
      - intros q Hq. rewrite Hin by (rewrite Hk2, Hk1; exact Hq).
        rewrite Hp2, Hin1 by exact Hq. unfold envelopes. rewrite map_app.
        now rewrite <- app_assoc.
      - rewrite Hsl, Hsl2, Hsl1, repeat_app. now rewrite <- app_assoc. }
    unfold upstream_events. cbn [flat_map List.filter]. unfold failed at 1.
    destruct (ending a) as [|e|e].
    + intros Hw. apply (Hstep w1 Hwf1 Hs1 (fun _ => eq_refl) (fun _ => eq_refl) 0);
        [now rewrite app_nil_r|exact Hw].
    + rewrite Hs1. intros Hw.
      set (w2 := emit (LogError ("Watch stream error: " +:+ e)) w1) in *.
      assert (Hwf2 : well_formed w2) by now apply (well_formed_same w1).
      destruct (reconnect_well_formed self w2 Hwf2) as (Hwf3 & Hk3 & Hp3).
      destruct (reconnect_sleeps_initial_delay self w2 Hs1) as (Hsl3 & Hs3 & _).
      apply (Hstep _ Hwf3 Hs3 Hk3 Hp3 1); [|exact Hw].
      rewrite Hsl3. unfold w2. cbn [trace emit]. rewrite sleeps_app. cbn.
      now rewrite app_nil_r.
    + rewrite Hs1. intros Hw.
      set (w2 := emit (LogError ("Unexpected error in watch stream: " +:+ e)) w1) in *.
      assert (Hwf2 : well_formed w2) by now apply (well_formed_same w1).
      destruct (reconnect_well_formed self w2 Hwf2) as (Hwf3 & Hk3 & Hp3).
      destruct (reconnect_sleeps_initial_delay self w2 Hs1) as (Hsl3 & Hs3 & _).
      apply (Hstep _ Hwf3 Hs3 Hk3 Hp3 1); [|exact Hw].
      rewrite Hsl3. unfold w2. cbn [trace emit]. rewrite sleeps_app. cbn.
      now rewrite app_nil_r.
Qed.

Lemma watcher_forwards_every_event_witness :
  pending (world_of (watch_namespace "team-a" 0 (event_callback "ns:team-a") two_streams
                       (run_actions [Open (WatchNamespace "team-a") (inr (JList []))] init)))
          0
  = [envelope "ADDED" object_x; envelope "MODIFIED" object_x]
  /\ sleeps (trace (world_of (watch_namespace "team-a" 0 (event_callback "ns:team-a")
                                two_streams
                                (run_actions [Open (WatchNamespace "team-a") (inr (JList []))]
                                             init))))
     = [1%Z].
Proof.
  destruct (watcher_forwards_every_event (WatchNamespace "team-a") 0 "ns:team-a"
              two_streams
              (run_actions [Open (WatchNamespace "team-a") (inr (JList []))] init)
              (world_of (watch_namespace "team-a" 0 (event_callback "ns:team-a") two_streams
                           (run_actions [Open (WatchNamespace "team-a") (inr (JList []))] init)))
              false) as (_ & Hin & Hsl & _).
  - apply run_actions_well_formed; [repeat constructor|apply well_formed_init].
  - vm_compute. reflexivity.
  - vm_compute. reflexivity.
  - split.
    + rewrite (Hin 0); [vm_compute; reflexivity|vm_compute; left].
    + rewrite Hsl. vm_compute. reflexivity.
Defined.

(* ================================================================== *)
(** ** A stream that opens and disconnects *)
(* ================================================================== *)

Lemma detach_last_attached (k : string) (q : nat) (l : list nat) (w : World) :
  lock_held k w = false ->
  queues_of k w = l ++ [q] ->
  q ∉ l ->
  exists w',
    unregister_client k q w = Returns tt w'
    /\ forall k', queues_of k' w' = if decide (k = k') then l else queues_of k' w.
Proof.
  intros Hl Hk Hq.
  assert (Hrem : list_remove q (queues_of k w) = Some l).
  { rewrite Hk, (list_remove_middle q l [] Hq). now rewrite app_nil_r. }
  assert (Hin : q ∈ queues_of k w) by (rewrite Hk; set_solver).
  rewrite (unregister_present k q w l Hl Hin Hrem). eexists. split; [reflexivity|].
  intros k'. rewrite queues_of_set_lock.
  destruct (Nat.eqb (length l) 0); [rewrite queues_of_stop_watcher|];
    rewrite queues_of_set, queues_of_touch, queues_of_set_lock; reflexivity.
Qed.

Lemma register_other_keys (t : thread_target) (q : nat) (w w' : World) :
  register t q w = Returns tt w' ->
  forall k', k' <> watch_key_of t -> queues_of k' w' = queues_of k' w.
Proof.
  intros H k' Hne. apply with_lock_returns in H as (_ & w1 & Hb & ->).
  rewrite queues_of_set_lock.
  rewrite <- (queues_of_set_lock (watch_key_of t) k' true w).
  rewrite <- (queues_of_touch (watch_key_of t) k' (set_lock (watch_key_of t) true w)).
  set (w0 := touch (watch_key_of t) (set_lock (watch_key_of t) true w)) in *.
  rewrite <- (queues_of_set_other (watch_key_of t) k'
                (queues_of (watch_key_of t) w0 ++ [q]) w0) by congruence.
  revert Hb. cbv beta zeta.
  match goal with |- context [table ?s ?x !! ?k] => destruct (table s x !! k) end;
    intros [= <-]; [reflexivity|].
  unfold queues_of. now destruct (scope_of t).
Qed.

(** X8.  Opening a stream and disconnecting it is a round trip for the
    manager.  In a well-formed state with the key's lock free, the
    stream opens on a queue that no one holds, yields the snapshot and
    is attached last under its key; the disconnection that follows
    returns and leaves under every key the list of queues that was there
    before the stream opened.  When the key was idle, it is idle again,
    and the one watcher constructed for the stream has been asked to
    stop; when the key had clients and a watcher, no watcher was
    constructed or stopped. *)
Theorem disconnect_undoes_open (t : thread_target) (payload : json) (w : World) :
  well_formed w ->
  lock_held (watch_key_of t) w = false ->
  exists (s : Session) (w1 w2 : World),
    open_stream t (inr payload) w
    = Returns ([_format_sse_message "initial" (initial_event t payload)], Some s) w1
    /\ queues w !! client_queue s = None
    /\ queues_of (watch_key_of t) w1 = queues_of (watch_key_of t) w ++ [client_queue s]
    /\ on_disconnect t (client_queue s) w1 = Returns tt w2
    /\ (forall k, queues_of k w2 = queues_of k w)
    /\ (idle (watch_key_of t) w ->
        idle (watch_key_of t) w2
        /\ stop_requested (length (watchers w)) w2 = true
        /\ length (watchers w2) = S (length (watchers w)))
    /\ (queues_of (watch_key_of t) w <> [] ->
        is_Some (table (scope_of t) w !! watch_key_of t) ->
        watchers w2 = watchers w /\ forall sc, table sc w2 = table sc w).
Proof.
  intros Hwf Hl.
  set (k := watch_key_of t) in *.
  set (q := fresh (dom (queues w))).
  set (w0 := set_queue q (mkQueue 100 [] false) w).
  assert (Hfresh : queues w !! q = None) by (apply not_elem_of_dom, is_fresh).
  assert (Hnew : q ∉ queues_of k w).
  { intros Hin. destruct Hwf as (_ & H2 & _). destruct (H2 k q Hin) as [Q HQ]. congruence. }
  assert (Hreg : exists w1,
             register t q w0 = Returns tt w1
             /\ queues_of k w1 = queues_of k w ++ [q]
             /\ lock_held k w1 = false
             /\ (forall sc, sc <> scope_of t -> table sc w1 = table sc w)
             /\ match table (scope_of t) w !! k with
                | Some self => watchers w1 = watchers w
                               /\ table (scope_of t) w1 = table (scope_of t) w
                               /\ trace w1 = trace w
                | None => watchers w1 = watchers w ++ [mkWatcher (class_of t) false]
                          /\ table (scope_of t) w1 !! k = Some (length (watchers w))
                end).
  { destruct (table (scope_of t) w !! k) as [self|] eqn:E.
    - destruct (register_next t q w0 self Hl) as (w1 & H1 & H2 & H3 & H4 & H5 & H6).
      { rewrite <- E. now destruct (scope_of t). }
      exists w1. split; [exact H1|]. split; [exact H2|]. split; [exact H6|].
      split; [intros sc _; rewrite H3; now destruct sc|].
      split; [exact H4|]. split; [rewrite H3; now destruct (scope_of t)|exact H5].
    - destruct (register_first t q w0 Hl) as (w1 & H1 & H2 & H3 & H4 & H5 & H6 & H7).
      { rewrite <- E. now destruct (scope_of t). }
      exists w1. split; [exact H1|]. split; [exact H2|]. split; [exact H7|].
      split; [intros sc Hsc; rewrite (H4 sc Hsc); now destruct sc|].
      split; [exact H5|exact H3]. }
  destruct Hreg as (w1 & Hr & Hk1 & Hl1 & Hother & Hcase).
  set (w1' := emit (LogInfo (disconnected_message t)) w1).
  destruct (detach_last_attached k q (queues_of k w) w1' Hl1 Hk1 Hnew) as (w2 & Hu & Hk2).
  exists (mkSession t q (clock w1)), w1, w2.
  split.
  { unfold open_stream, new_queue. fold q. fold w0. now rewrite Hr. }
  split; [exact Hfresh|]. split; [exact Hk1|]. split; [exact Hu|].
  assert (Hlists : forall k', queues_of k' w2 = queues_of k' w).
  { intros k'. rewrite Hk2. destruct (decide (k = k')) as [<-|Hne]; [reflexivity|].
    change (queues_of k' w1') with (queues_of k' w1).
    rewrite (register_other_keys t q w0 w1 Hr k'); [reflexivity|].
    intros ->. now apply Hne. }
  split; [exact Hlists|]. split.
  - intros (Hempty & _ & Htab).
    rewrite (Htab (scope_of t)) in Hcase. destruct Hcase as (Hws & Hself).
    destruct (unregister_last t q w1' (length (watchers w)))
      as (w2' & Hu' & _ & Hnone & Hothers & Hstop & Hlen & _ & Hl2).
    + exact Hl1.
    + change (queues_of (watch_key_of t) w1') with (queues_of k w1).
      now rewrite Hk1, Hempty.
    + exact Hself.
    + change (watchers w1') with (watchers w1). rewrite Hws, length_app. cbn. lia.
    + assert (w2' = w2) as -> by (fold k in Hu'; congruence).
      split; [|split; [exact Hstop|]].
      * split; [now rewrite Hlists|]. split; [exact Hl2|].
        intros sc. destruct (decide (sc = scope_of t)) as [->|Hsc]; [exact Hnone|].
        rewrite (Hothers sc Hsc). change (table sc w1') with (table sc w1).
        rewrite (Hother sc Hsc). apply Htab.
      * rewrite Hlen. change (watchers w1') with (watchers w1).
        rewrite Hws, length_app. cbn. lia.
  - intros Hne [self Hself]. rewrite Hself in Hcase. destruct Hcase as (Hws & Htab & _).
    destruct (unregister_not_last t q w1' (queues_of k w))
      as (w2' & Hu' & _ & Htabs & Hws2 & _).
    + exact Hl1.
    + change (queues_of (watch_key_of t) w1') with (queues_of k w1). rewrite Hk1. set_solver.
    + change (queues_of (watch_key_of t) w1') with (queues_of k w1). rewrite Hk1.
      rewrite (list_remove_middle q _ [] Hnew). now rewrite app_nil_r.
    + exact Hne.
    + assert (w2' = w2) as -> by (fold k in Hu'; congruence).
      split; [now rewrite Hws2|].
      intros sc. rewrite Htabs. change (table sc w1') with (table sc w1).
      destruct (decide (sc = scope_of t)) as [->|Hsc]; [exact Htab|now apply Hother].
Qed.

Lemma disconnect_undoes_open_witness :
  exists (s : Session) (w1 w2 : World),
    open_stream (WatchEvents "team-a" "m") (inr (JList [])) init
    = Returns ([_format_sse_message "initial"
                  (initial_event (WatchEvents "team-a" "m") (JList []))], Some s) w1
    /\ on_disconnect (WatchEvents "team-a" "m") (client_queue s) w1 = Returns tt w2
    /\ idle "events:team-a/m" w2
    /\ stop_requested 0 w2 = true.
Proof.
  destruct (disconnect_undoes_open (WatchEvents "team-a" "m") (JList []) init)
    as (s & w1 & w2 & Ho & _ & _ & Hd & _ & Hidle & _).
  - apply well_formed_init.
  - reflexivity.
  - exists s, w1, w2. split; [exact Ho|]. split; [exact Hd|].
    destruct Hidle as (Hi & Hs & _).
    + split; [reflexivity|]. split; [reflexivity|]. intros sc. now destruct sc.
    + split; [exact Hi|exact Hs].
Defined.

(* ================================================================== *)
(** ** get_namespaces: the answer and the allow-list *)
(* ================================================================== *)

(** X9.  [get_namespaces] never shows a namespace that the cluster does
    not have and never hides them all.  When the cluster cannot be
    listed, the answer is the error response with status 500 and the
    failure is logged.  Otherwise the answer is a success whose names all
    exist in the cluster, and it is empty only when the cluster has no
    namespace; with the variable unset or blank it is the cluster's list
    itself and nothing is logged. *)
Theorem namespaces_answer_is_sound (environ : option string) :
  (forall e,
      Get.get_namespaces (inl e) environ
      = (Get.failed_response "message" "Failed to retrieve namespaces" 500,
         [LogErrorFmt "Error retrieving namespaces: %s" [ArgStr e]]))
  /\ forall names, exists visible logged,
      Get.get_namespaces (inr names) environ
      = (Get.success_response "namespaces" visible, logged)
      /\ (forall ns, ns ∈ visible -> ns ∈ names)
      /\ (visible = [] -> names = [])
      /\ (PyStr.strip (default EmptyString environ) = EmptyString ->
          visible = names /\ logged = []).
Proof.
  split; [reflexivity|]. intros names. unfold Get.get_namespaces.
  replace (match environ with Some v => v | None => EmptyString end)
    with (default EmptyString environ) by now destruct environ.
  destruct (PyStr.strip (default EmptyString environ)) as [|c env] eqn:Henv.
  { exists names, []. cbn. repeat split; auto. }
  cbn [PyStr.truthy negb].
  destruct (Get.parse_allowed (String c env)) as [|a allowed] eqn:Hallowed.
  { exists names, []. repeat split; auto. }
  set (valid := List.filter (fun ns => PyStr.mem ns names) (a :: allowed)).
  assert (Hvalid : forall ns, ns ∈ valid -> ns ∈ names).
  { intros ns. unfold valid. rewrite filter_elem, mem_true. tauto. }
  destruct valid as [|v valid'] eqn:Hv.
  - exists names, [none_exist_warning]. repeat split; auto; discriminate.
  - eexists (v :: valid'), _. split; [reflexivity|]. split; [exact Hvalid|].
    split; discriminate.
Qed.

(** *** Trimming and splitting *)

Lemma lstrip_head (s : string) :
  match PyStr.lstrip s with
  | EmptyString => True
  | String c _ => PyStr.is_space c = false
  end.
Proof.
  induction s as [|c r IH]; cbn [PyStr.lstrip]; [exact I|].
  destruct (PyStr.is_space c) eqn:E; [exact IH|exact E].
Qed.

Lemma lstrip_fixed (c : ascii) (r : string) :
  PyStr.is_space c = false -> PyStr.lstrip (String c r) = String c r.
Proof. intros H. cbn [PyStr.lstrip]. now rewrite H. Qed.

Lemma rstrip_idempotent (s : string) : PyStr.rstrip (PyStr.rstrip s) = PyStr.rstrip s.
Proof.
  induction s as [|c r IH]; [reflexivity|]. cbn [PyStr.rstrip].
  destruct (PyStr.rstrip r) as [|c' r'] eqn:E.
  - destruct (PyStr.is_space c) eqn:Hc; [reflexivity|].
    cbn [PyStr.rstrip]. now rewrite Hc.
  - cbn [PyStr.rstrip] in *. now rewrite IH.
Qed.

Lemma rstrip_head (c : ascii) (r : string) :
  PyStr.is_space c = false -> exists r', PyStr.rstrip (String c r) = String c r'.
Proof.
  intros H. cbn [PyStr.rstrip]. destruct (PyStr.rstrip r); [rewrite H|]; eauto.
Qed.

Lemma strip_idempotent (s : string) : PyStr.strip (PyStr.strip s) = PyStr.strip s.
Proof.
  unfold PyStr.strip. pose proof (lstrip_head s) as Hh.
  destruct (PyStr.lstrip s) as [|c r]; [reflexivity|].
  destruct (rstrip_head c r Hh) as (r' & Hr). rewrite Hr.
  rewrite (lstrip_fixed c r' Hh), <- Hr. apply rstrip_idempotent.
Qed.

Lemma contains_lstrip (c : ascii) (s : string) :
  contains c s = false -> contains c (PyStr.lstrip s) = false.
Proof.
  induction s as [|c' r IH]; [auto|]. cbn [PyStr.lstrip].
  destruct (PyStr.is_space c'); [|auto].
  cbn [contains]. intros H. apply orb_false_iff in H as [_ H]. auto.
Qed.

Lemma contains_rstrip (c : ascii) (s : string) :
  contains c s = false -> contains c (PyStr.rstrip s) = false.
Proof.
  induction s as [|c' r IH]; [auto|]. cbn [contains PyStr.rstrip].
  intros H. apply orb_false_iff in H as [H1 H2]. specialize (IH H2).
  destruct (PyStr.rstrip r) as [|c2 r2].
  - destruct (PyStr.is_space c'); [reflexivity|]. cbn [contains]. now rewrite H1.
  - cbn [contains] in *. now rewrite H1, IH.
Qed.

Lemma contains_strip (c : ascii) (s : string) :
  contains c s = false -> contains c (PyStr.strip s) = false.
Proof. intros H. now apply contains_rstrip, contains_lstrip. Qed.

Lemma split_fields (sep : ascii) (s : string) :
  PyStr.split sep s <> [] /\ Forall (fun f => contains sep f = false) (PyStr.split sep s).
Proof.
  induction s as [|c r [IH1 IH2]]; cbn [PyStr.split].
  - split; [discriminate|]. repeat constructor.
  - destruct (Ascii.eqb c sep) eqn:E.
    + split; [discriminate|]. constructor; [reflexivity|exact IH2].
    + destruct (PyStr.split sep r) as [|h t]; [now destruct IH1|].
      split; [discriminate|]. apply Forall_cons in IH2 as [Hh Ht].
      constructor; [|exact Ht]. cbn [contains]. now rewrite E, Hh.
Qed.

Lemma truthy_nonempty (s : string) : PyStr.truthy s = true <-> s <> EmptyString.
Proof. destruct s; cbn; split; congruence. Qed.

(** X10.  Whatever the value of ALLOWED_NAMESPACES, the entries that are
    read from it are clean: none is empty, none contains a comma, and
    none begins or ends with white space (stripping it again changes
    nothing). *)
Theorem allowed_entries_are_clean (allowed_namespaces_env : string) :
  Forall clean (Get.parse_allowed allowed_namespaces_env).
Proof.
  unfold Get.parse_allowed.
  destruct (split_fields "," allowed_namespaces_env) as [_ Hfields].
  induction Hfields as [|f fields Hf _ IH]; cbn [List.filter map]; [constructor|].
  destruct (PyStr.truthy (PyStr.strip f)) eqn:Ht; [|exact IH].
  cbn [map]. constructor; [|exact IH].
  split; [now apply truthy_nonempty|]. split; [now apply contains_strip|].
  apply strip_idempotent.
Qed.

Lemma split_sep_free (sep : ascii) (s : string) :
  contains sep s = false -> PyStr.split sep s = [s].
Proof.
  induction s as [|c r IH]; [reflexivity|]. cbn [contains PyStr.split].
  intros H. apply orb_false_iff in H as [H1 H2]. now rewrite H1, (IH H2).
Qed.

Lemma split_app_sep (sep : ascii) (a b : string) :
  contains sep a = false ->
  PyStr.split sep (a +:+ String sep b) = a :: PyStr.split sep b.
Proof.
  induction a as [|c r IH]; simpl.
  - intros _. now rewrite Ascii.eqb_refl.
  - intros H. apply orb_false_iff in H as [H1 H2]. now rewrite H1, (IH H2).
Qed.

Lemma split_join (sep : ascii) (x : string) (l : list string) :
  Forall (fun f => contains sep f = false) (x :: l) ->
  PyStr.split sep (join (String sep EmptyString) (x :: l)) = x :: l.
Proof.
  revert x. induction l as [|y l IH]; intros x H; apply Forall_cons in H as [Hx Hl].
  - now apply split_sep_free.
  - change (join (String sep EmptyString) (x :: y :: l))
      with (x +:+ String sep EmptyString +:+ join (String sep EmptyString) (y :: l)).
    change (String sep EmptyString +:+ ?s) with (String sep s).
    rewrite (split_app_sep sep x _ Hx). f_equal. now apply IH.
Qed.

(** X11.  Reading an allow-list inverts writing it.  For entries without
    comma, the value made of the entries separated by commas is read back
    as the entries, each stripped of the white space around it, without
    those that are blank; so a list of clean names, written with commas,
    is read back unchanged. *)
Theorem allow_list_round_trip (entries : list string) :
  Forall (fun e => contains "," e = false) entries ->
  Get.parse_allowed (join "," entries)
  = List.filter PyStr.truthy (map PyStr.strip entries)
  /\ (Forall clean entries -> Get.parse_allowed (join "," entries) = entries).
Proof.
  intros Hfree.
  assert (Hgen : Get.parse_allowed (join "," entries)
                 = List.filter PyStr.truthy (map PyStr.strip entries)).
  { unfold Get.parse_allowed. destruct entries as [|x l]; [reflexivity|].
    rewrite (split_join "," x l Hfree).
    generalize (x :: l). intros es. induction es as [|e es IH]; [reflexivity|].
    cbn [List.filter map]. destruct (PyStr.truthy (PyStr.strip e)); cbn [map]; now rewrite IH. }
  split; [exact Hgen|]. rewrite Hgen. clear Hgen Hfree.
  induction 1 as [|e es (Hne & _ & Hs) _ IH]; [reflexivity|].
  cbn [List.filter map]. rewrite Hs, IH.
  apply truthy_nonempty in Hne. now rewrite Hne.
Qed.

Lemma allow_list_round_trip_witness :
  Get.parse_allowed (join "," [" team-a"; ""; "team-b "; "  "]) = ["team-a"; "team-b"].
Proof.
  destruct (allow_list_round_trip [" team-a"; ""; "team-b "; "  "]) as [-> _].
  - repeat constructor.
  - reflexivity.
Defined.

(* ================================================================== *)
(** ** The logs of an InferenceService *)
(* ================================================================== *)

Lemma resp_mem_false (c : string) (resp : resp_dict) :
  resp_mem c resp = false <-> c ∉ map fst resp.
Proof.
  induction resp as [|[c' l] resp IH]; cbn [resp_mem existsb map fst].
  - split; [intros _ H; inversion H|reflexivity].
  - rewrite orb_false_iff, not_elem_of_cons. fold (resp_mem c resp). rewrite IH.
    rewrite String.eqb_neq. tauto.
Qed.

Lemma resp_set_new (c : string) (l : list json) (resp : resp_dict) :
  c ∉ map fst resp -> resp_set c l resp = resp ++ [(c, l)].
Proof.
  induction resp as [|[c' l'] resp IH]; cbn [resp_set map fst app]; [reflexivity|].
  intros H. apply not_elem_of_cons in H as [Hne H].
  apply String.eqb_neq in Hne. now rewrite Hne, IH.
Qed.

Lemma resp_append_last (c : string) (x : json) (l : list json) (resp : resp_dict) :
  c ∉ map fst resp -> resp_append c x (resp ++ [(c, l)]) = resp ++ [(c, l ++ [x])].
Proof.
  induction resp as [|[c' l'] resp IH]; cbn [resp_append map fst app].
  - intros _. now rewrite String.eqb_refl.
  - intros H. apply not_elem_of_cons in H as [Hne H].
    apply String.eqb_neq in Hne. now rewrite Hne, IH.
Qed.

Lemma for_pods_last (B : Backend) (namespace : json) (c : string) (pods : list string) :
  forall (resp : resp_dict) (l : list json) (w : World),
    c ∉ map fst resp ->
    for_pods B namespace c pods (resp ++ [(c, l)]) w
    = (resp ++ [(c, l ++ map (pod_entry B namespace) pods)],
       mkWorld (_namespace_watchers w) (_single_watchers w) (_event_watchers w)
               (_client_queues w) (_locks w) (queues w) (watchers w) (clock w)
               (trace w ++ flat_map (pod_errors B namespace) pods)).
Proof.
  induction pods as [|pod pods IH]; intros resp l w Hc; cbn [for_pods map flat_map].
  - rewrite !app_nil_r. now destruct w.
  - unfold pod_entry at 1, pod_errors at 1.
    destruct (get_pod_logs B namespace pod) as [e|logs];
      rewrite resp_append_last, IH by exact Hc; cbn [app emit trace clock queues watchers
        _locks _client_queues _namespace_watchers _single_watchers _event_watchers];
      rewrite <- !app_assoc; reflexivity.
Qed.

Lemma for_components_spec (B : Backend) (namespace : json)
      (dict : list (string * list string)) :
  forall (resp : resp_dict) (w : World),
    NoDup (map fst dict) ->
    (forall c, c ∈ map fst dict -> c ∉ map fst resp) ->
    for_components B namespace dict resp w
    = (resp ++ map (fun item => (fst item, map (pod_entry B namespace) (snd item))) dict,
       mkWorld (_namespace_watchers w) (_single_watchers w) (_event_watchers w)
               (_client_queues w) (_locks w) (queues w) (watchers w) (clock w)
               (trace w ++ flat_map (fun item => flat_map (pod_errors B namespace) (snd item))
                                    dict)).
Proof.
  induction dict as [|[c pods] dict IH]; intros resp w Hnd Hnew;
    cbn [for_components map flat_map fst snd].
  - rewrite !app_nil_r. now destruct w.
  - apply NoDup_cons in Hnd as [Hc Hnd].
    assert (Hc' : c ∉ map fst resp) by (apply Hnew; left).
    rewrite (proj2 (resp_mem_false c resp) Hc'), (resp_set_new c [] resp Hc').
    rewrite (for_pods_last B namespace c pods resp [] w Hc'). cbn [app].
    rewrite IH.
    + cbn [trace clock queues watchers _locks _client_queues _namespace_watchers
             _single_watchers _event_watchers].
      rewrite <- !app_assoc. reflexivity.
    + exact Hnd.
    + intros c' Hin. rewrite map_app. cbn [map fst]. rewrite elem_of_app, list_elem_of_singleton.
      intros [H| ->]; [|exact (Hc Hin)]. apply (Hnew c'); [now right|exact H].
Qed.

(** X12.  The logs of a service are listed pod by pod, and a pod whose
    logs cannot be read hides nothing.  When the service names its
    namespace and the helpers of [utils] answer with the pods of each
    component (a dict: no component twice), [_get_logs_for_service]
    returns, whatever the reading of the logs of any pod does: the dict
    has the same components in the same order, each with one entry per
    pod in the order of the pods, which holds the lines of the pod's
    logs, or the one line that reports the error when they could not be
    read; one error is logged for each such pod and nothing else is. *)
Theorem logs_are_listed_pod_by_pod
        (B : Backend) (svc metadata namespace : json) (components : list string)
        (deployment_mode : string) (dict : list (string * list string)) (w : World) :
  subscript svc "metadata" = inr metadata ->
  subscript metadata "namespace" = inr namespace ->
  get_deployment_mode B svc = inr deployment_mode ->
  pods_for B deployment_mode svc components = inr dict ->
  NoDup (map fst dict) ->
  exists w',
    _get_logs_for_service B svc components w
    = (inr (JDict (map (fun item =>
                          (fst item, JList (map (pod_entry B namespace) (snd item))))
                       dict)), w')
    /\ trace w' = trace w ++ flat_map (fun item => flat_map (pod_errors B namespace) (snd item))
                                      dict
    /\ clock w' = clock w.
Proof.
  intros Hmd Hns Hmode Hpods Hnd. unfold _get_logs_for_service.
  rewrite Hmd, Hns, Hmode, Hpods.
  destruct dict as [|item dict]; [exists w; cbn; rewrite app_nil_r; auto|].
  rewrite (for_components_spec B namespace (item :: dict) [] w Hnd)
    by (intros c _ H; inversion H).
  unfold resp_json. cbn [app]. rewrite map_map.
  eexists. split; [reflexivity|]. split; reflexivity.
Qed.

Lemma logs_are_listed_pod_by_pod_witness :
  exists w',
    _get_logs_for_service flaky_backend service_x [] init
    = (inr (JDict [("predictor",
                    JList [JDict [("podName", JStr "p-0");
                                  ("logs", JList [JStr "loading"; JStr "ready"])];
                           JDict [("podName", JStr "p-1");
                                  ("logs", JList [JStr "Error retrieving logs: pod not found"])]])]),
       w')
    /\ trace w' = [LogError "Error getting logs for pod p-1: pod not found"].
Proof.
  destruct (logs_are_listed_pod_by_pod flaky_backend service_x
              (JDict [("name", JStr "x"); ("namespace", JStr "team-a")]) (JStr "team-a")
              [] "Standard" [("predictor", ["p-0"; "p-1"])] init)
    as (w' & H & Htr & _); try reflexivity.
  - constructor; [intros H; inversion H|constructor].
  - exists w'. split; [exact H|exact Htr].
Defined.

Lemma join_split (sep : ascii) (s : string) :
  join (String sep EmptyString) (PyStr.split sep s) = s.
Proof.
  induction s as [|c r IH]; [reflexivity|]. cbn [PyStr.split].
  destruct (split_fields sep r) as [Hne _].
  destruct (Ascii.eqb c sep) eqn:E.
  - apply Ascii.eqb_eq in E as ->.
    destruct (PyStr.split sep r) as [|h t]; [now destruct Hne|].
    change (join (String sep EmptyString) (EmptyString :: h :: t))
      with (String sep (join (String sep EmptyString) (h :: t))).
    now rewrite IH.
  - destruct (PyStr.split sep r) as [|h t]; [now destruct Hne|].
    destruct t as [|h' t]; cbn [join] in *; [now rewrite IH|].
    rewrite <- IH. reflexivity.
Qed.

(** X13.  The entry of a pod keeps its logs whole.  The entry made for
    a pod whose logs were read holds the name of the pod and a list of
    lines that is never empty, none of which contains a line break, and
    which joined by line breaks are the text that was read. *)
Theorem log_lines_round_trip (pod logs : string) :
  exists lines,
    logs_entry pod logs = JDict [("podName", JStr pod); ("logs", JList (map JStr lines))]
    /\ lines <> []
    /\ Forall (fun line => contains newline line = false) lines
    /\ join nl lines = logs.
Proof.
  exists (PyStr.split newline logs).
  destruct (split_fields newline logs) as [Hne Hfree].
  split; [reflexivity|]. split; [exact Hne|]. split; [exact Hfree|].
  apply join_split.
Qed.

(** *** The logs stream *)

Lemma logged_nil (w : World) : logged [] w = w.
Proof. unfold logged. rewrite app_nil_r. now destruct w. Qed.

Lemma logged_logged (tr1 tr2 : list effect) (w : World) :
  logged tr2 (logged tr1 w) = logged (tr1 ++ tr2) w.
Proof. unfold logged. cbn. now rewrite app_assoc. Qed.

Lemma for_pods_world (B : Backend) (namespace : json) (c : string) (pods : list string) :
  forall (resp : resp_dict) (w : World),
    for_pods B namespace c pods resp w
    = (fst (for_pods B namespace c pods resp init),
       logged (flat_map (pod_errors B namespace) pods) w).
Proof.
  induction pods as [|pod pods IH]; intros resp w; cbn [for_pods flat_map].
  - now rewrite logged_nil.
  - unfold pod_errors at 1. destruct (get_pod_logs B namespace pod) as [e|logs].
    + rewrite IH. rewrite (IH _ (emit _ init)). cbn [fst app]. f_equal.
      change (emit ?x w) with (logged [x] w). now rewrite logged_logged.
    + rewrite IH. reflexivity.
Qed.

Lemma for_components_world (B : Backend) (namespace : json)
      (dict : list (string * list string)) :
  forall (resp : resp_dict) (w : World),
    for_components B namespace dict resp w
    = (fst (for_components B namespace dict resp init),
       logged (flat_map (fun item => flat_map (pod_errors B namespace) (snd item)) dict) w).
Proof.
  induction dict as [|[c pods] dict IH]; intros resp w; cbn [for_components flat_map snd].
  - now rewrite logged_nil.
  - rewrite for_pods_world. rewrite (for_pods_world B namespace c pods _ init).
    rewrite IH. rewrite (IH _ (logged _ init)). cbn [fst]. now rewrite logged_logged.
Qed.

(** A poll answers the same in every state, and only logs errors. *)
Lemma poll_in_any_world (B : Backend) (svc : json) (components : list string) (w : World) :
  exists tr,
    _get_logs_for_service B svc components w = (poll_result B svc components, logged tr w)
    /\ sleeps tr = [].
Proof.
  unfold poll_result, _get_logs_for_service.
  destruct (subscript svc "metadata") as [e|metadata];
    [exists []; now rewrite logged_nil|].
  destruct (subscript metadata "namespace") as [e|namespace];
    [exists []; now rewrite logged_nil|].
  destruct (get_deployment_mode B svc) as [e|mode]; [exists []; now rewrite logged_nil|].
  destruct (pods_for B mode svc components) as [e|[|item dict]];
    [exists []; now rewrite logged_nil|exists []; now rewrite logged_nil|].
  rewrite for_components_world. rewrite (for_components_world B namespace _ _ init).
  eexists. split; [reflexivity|].
  generalize (item :: dict). intros d. induction d as [|[c pods] d IH]; [reflexivity|].
  cbn [flat_map snd]. rewrite sleeps_app, IH, app_nil_r.
  induction pods as [|pod pods IHp]; [reflexivity|].
  cbn [flat_map]. rewrite sleeps_app, IHp, app_nil_r. unfold pod_errors.
  now destruct (get_pod_logs B namespace pod).
Qed.

Lemma logs_loop_body_cases (B : Backend) (duration : Z) (svc : json)
      (components : list string) (last : Z) (w : World) :
  exists w',
    clock w' = (clock w + duration + 3)%Z
    /\ sleeps (trace w') = sleeps (trace w) ++ [3%Z]
    /\ logs_loop_body B duration svc components last w
       = match poll_result B svc components with
         | inr logs_data => (Some (update_frame logs_data), (clock w + duration)%Z, w')
         | inl _ =>
             if (clock w + duration - last >? 30)%Z
             then (Some _send_heartbeat, (clock w + duration)%Z, w')
             else (None, last, w')
         end.
Proof.
  unfold logs_loop_body.
  destruct (poll_in_any_world B svc components (advance duration w)) as (tr & -> & Htr).
  destruct (poll_result B svc components) as [e|logs_data].
  - eexists. split; [|split; [|destruct (_ >? _)%Z; reflexivity]].
    + reflexivity.
    + cbn [trace advance emit logged]. rewrite !sleeps_app, Htr. cbn. now rewrite !app_nil_r.
  - eexists. split; [|split; [|reflexivity]].
    + reflexivity.
    + cbn [trace advance emit logged]. rewrite !sleeps_app, Htr. cbn. now rewrite !app_nil_r.
Qed.

Lemma update_is_no_heartbeat (logs_data : json) : is_heartbeat (update_frame logs_data) = false.
Proof. reflexivity. Qed.

(** The chunks, the time and the sleeps of any run of the loop. *)
Lemma logs_loop_chunks
      (polls : list (Z * Backend)) (svc : json) (components : list string) :
  forall (last : Z) (w : World),
    List.filter (fun c => negb (is_heartbeat c))
                (map snd (fst (logs_loop polls svc components last w)))
    = updates polls svc components
    /\ length (fst (logs_loop polls svc components last w)) <= length polls
    /\ clock (snd (logs_loop polls svc components last w))
       = (clock w + fetch_time polls + 3 * Z.of_nat (length polls))%Z
    /\ sleeps (trace (snd (logs_loop polls svc components last w)))
       = sleeps (trace w) ++ repeat 3%Z (length polls).
Proof.
  induction polls as [|[duration B] polls IH]; intros last w.
  - split; [reflexivity|]. split; [cbn; lia|]. split; [cbn; lia|].
    cbn. now rewrite app_nil_r.
  - cbn [logs_loop].
    destruct (logs_loop_body_cases B duration svc components last w) as (w' & Hc & Hs & ->).
    unfold updates, fetch_time in *. cbn [flat_map map fold_right fst snd length].
    destruct (poll_result B svc components) as [e|logs_data].
    + destruct (_ >? _)%Z;
        match goal with |- context [logs_loop polls svc components ?l w'] =>
          specialize (IH l w'); destruct (logs_loop polls svc components l w') as [chunks w'']
        end;
        cbn [fst snd map List.filter length app] in *;
        destruct IH as (IH1 & IH2 & IH3 & IH4);
        (split; [exact IH1|]); (split; [lia|]); (split; [lia|]);
        rewrite IH4, Hs, <- app_assoc; reflexivity.
    + specialize (IH (clock w + duration)%Z w').
      destruct (logs_loop polls svc components (clock w + duration)%Z w') as [chunks w''].
      cbn [fst snd map List.filter length app] in *.
      rewrite update_is_no_heartbeat. cbn [negb].
      destruct IH as (IH1 & IH2 & IH3 & IH4).
      split; [now rewrite IH1|]. split; [lia|]. split; [lia|].
      rewrite IH4, Hs, <- app_assoc. reflexivity.
Qed.

Lemma heartbeats_follow_silence (polls : list (Z * Backend)) (svc : json)
      (components : list string) :
  forall (last : Z) (w : World),
    Forall (fun entry => is_heartbeat (snd (snd entry)) = true ->
                         (fst (snd entry) - fst entry > 30)%Z)
           (with_previous last (fst (logs_loop polls svc components last w))).
Proof.
  induction polls as [|[duration B] polls IH]; intros last w; [constructor|].
  cbn [logs_loop].
  destruct (logs_loop_body_cases B duration svc components last w) as (w' & _ & _ & ->).
  destruct (poll_result B svc components) as [e|logs_data].
  - destruct (clock w + duration - last >? 30)%Z eqn:E.
    + specialize (IH (clock w + duration)%Z w').
      destruct (logs_loop polls svc components (clock w + duration)%Z w') as [chunks w''].
      cbn [fst snd with_previous] in *. constructor; [|exact IH].
      cbn [fst snd]. intros _. rewrite Z.gtb_ltb in E. apply Z.ltb_lt in E. lia.
    + specialize (IH last w').
      destruct (logs_loop polls svc components last w') as [chunks w'']. exact IH.
  - specialize (IH (clock w + duration)%Z w').
    destruct (logs_loop polls svc components (clock w + duration)%Z w') as [chunks w''].
    cbn [fst snd with_previous] in *. constructor; [|exact IH].
    cbn [fst snd]. rewrite update_is_no_heartbeat. discriminate.
Qed.

Lemma silent_polls (B : Backend) (svc : json) (components : list string) (e : string)
      (rest : list (Z * Backend)) (n : nat) :
  poll_result B svc components = inl e ->
  forall (last : Z) (w : World),
    (clock w + 3 * (Z.of_nat n - 1) - last <= 30)%Z ->
    exists w',
      clock w' = (clock w + 3 * Z.of_nat n)%Z
      /\ logs_loop (repeat (0%Z, B) n ++ rest) svc components last w
         = logs_loop rest svc components last w'.
Proof.
  intros Hfail. induction n as [|n IH]; intros last w Hn.
  - exists w. split; [lia|reflexivity].
  - cbn [repeat app logs_loop].
    destruct (logs_loop_body_cases B 0 svc components last w) as (w1 & Hc & _ & ->).
    rewrite Hfail.
    replace (clock w + 0 - last >? 30)%Z with false by (symmetry; rewrite Z.gtb_ltb; apply Z.ltb_ge; lia).
    destruct (IH last w1) as (w' & Hc' & ->); [lia|].
    exists w'. split; [lia|]. now destruct (logs_loop rest svc components last w').
Qed.



(* ================================================================== *)
(** ** get_manager: one manager for all threads *)
(* ================================================================== *)

Lemma lookup_moved (i j : nat) (p p' q : position) (ts : list position) :
  ts !! i = Some p ->
  <[i := p']> ts !! j = Some q ->
  (j = i /\ q = p') \/ (j <> i /\ ts !! j = Some q).
Proof.
  intros Hi Hj. destruct (decide (j = i)) as [->|Hne].
  - rewrite list_lookup_insert_eq in Hj by (eapply lookup_lt_Some; eassumption).
    left. split; congruence.
  - rewrite list_lookup_insert_ne in Hj by congruence. now right.
Qed.

Lemma lookup_kept (i k : nat) (p p' q : position) (ts : list position) :
  ts !! i = Some p -> ts !! k = Some q -> p <> q -> <[i := p']> ts !! k = Some q.
Proof.
  intros Hi Hk Hne. rewrite list_lookup_insert_ne; [exact Hk|]. intros ->. congruence.
Qed.

Lemma start_invariant (n : nat) : singleton_invariant (start n).
Proof.
  unfold singleton_invariant, start. cbn [threads _manager_lock _manager_instance constructed].
  assert (H : forall i p, repeat AtOuterCheck n !! i = Some p -> p = AtOuterCheck).
  { intros i p Hp. apply list_elem_of_lookup_2, list_elem_of_In, repeat_spec in Hp. exact Hp. }
  split; [|split; [|split]].
  - intros i p Hp. now rewrite (H i p Hp).
  - discriminate.
  - now left.
  - intros i p Hp. now rewrite (H i p Hp).
Qed.

Lemma step_invariant (i : nat) (g g' : Process) :
  singleton_invariant g -> step i g = Some g' -> singleton_invariant g'.
Proof.
  intros (HA & HB & HC & HD). unfold step.
  destruct (threads g !! i) as [p|] eqn:Hi; [|discriminate].
  pose proof (HA i p Hi) as HAi. pose proof (HD i p Hi) as HDi.
  assert (Hlock : forall k q, threads g !! k = Some q -> in_lock q = true ->
                              _manager_lock g = Some k).
  { exact HA. }
  assert (Hsole : forall k q, in_lock p = true -> threads g !! k = Some q ->
                              in_lock q = true -> k = i).
  { intros k q Hp Hk Hq. specialize (HA k q Hk Hq). specialize (HAi Hp). congruence. }
  destruct p as [| | | |m| | |r]; cbn [in_lock] in *.
  - (* outer check *)
    intros [= <-]. unfold goto, singleton_invariant.
    cbn [threads _manager_lock _manager_instance constructed].
    split; [|split; [|split]].
    + intros j q Hj Hq. destruct (lookup_moved i j _ _ q _ Hi Hj) as [[-> ->]|[_ Hj']];
        [destruct (_manager_instance g); discriminate|eauto].
    + intros k Hk. destruct (HB k Hk) as (q & Hq & Hc). exists q. split; [|exact Hc].
      eapply lookup_kept; [exact Hi|exact Hq|]. intros <-. discriminate.
    + destruct (_manager_instance g); [exact HC|].
      destruct HC as [HC|[HC (k & Hk)]]; [now left|right]. split; [exact HC|].
      exists k. eapply lookup_kept; [exact Hi|exact Hk|discriminate].
    + intros j q Hj. destruct (lookup_moved i j _ _ q _ Hi Hj) as [[-> ->]|[_ Hj']];
        [|now apply (HD j)].
      destruct (_manager_instance g) as [m|]; [|exact I]. now destruct HC as [-> _].
  - (* acquire *)
    destruct (_manager_lock g) as [holder|] eqn:Hl; [discriminate|].
    intros [= <-]. unfold singleton_invariant.
    cbn [threads _manager_lock _manager_instance constructed].
    split; [|split; [|split]].
    + intros j q Hj Hq. destruct (lookup_moved i j _ _ q _ Hi Hj) as [[-> ->]|[_ Hj']];
        [reflexivity|]. specialize (HA j q Hj' Hq). discriminate.
    + intros k [= <-]. exists AtInnerCheck. split; [|reflexivity].
      apply list_lookup_insert_eq. eapply lookup_lt_Some; eassumption.
    + destruct (_manager_instance g); [exact HC|].
      destruct HC as [HC|[HC (k & Hk)]]; [now left|].
      specialize (HA k _ Hk eq_refl). discriminate.
    + intros j q Hj. destruct (lookup_moved i j _ _ q _ Hi Hj) as [[-> ->]|[_ Hj']];
        [exact I|now apply (HD j)].
  - (* inner check *)
    intros [= <-]. unfold goto, singleton_invariant.
    cbn [threads _manager_lock _manager_instance constructed].
    assert (Hnone : _manager_instance g = None -> constructed g = 0).
    { intros Hn. rewrite Hn in HC. destruct HC as [HC|[_ (k & Hk)]]; [exact HC|].
      pose proof (Hsole k _ eq_refl Hk eq_refl) as ->. congruence. }
    split; [|split; [|split]].
    + intros j q Hj Hq. destruct (lookup_moved i j _ _ q _ Hi Hj) as [[-> ->]|[_ Hj']];
        [now apply HAi|eauto].
    + intros k Hk. rewrite (HAi eq_refl) in Hk. injection Hk as <-.
      eexists. split; [apply list_lookup_insert_eq; eapply lookup_lt_Some; eassumption|].
      now destruct (_manager_instance g).
    + destruct (_manager_instance g); [exact HC|]. left. now apply Hnone.
    + intros j q Hj. destruct (lookup_moved i j _ _ q _ Hi Hj) as [[-> ->]|[_ Hj']];
        [|now apply (HD j)].
      destruct (_manager_instance g) as [m|]; [now destruct HC as [-> _]|].
      split; [reflexivity|now apply Hnone].
  - (* construct *)
    intros [= <-]. unfold singleton_invariant.
    cbn [threads _manager_lock _manager_instance constructed].
    destruct HDi as [Hnone Hzero]. rewrite Hnone, Hzero in *.
    assert (Hat : <[i := AtAssign 0]> (threads g) !! i = Some (AtAssign 0))
      by (apply list_lookup_insert_eq; eapply lookup_lt_Some; eassumption).
    split; [|split; [|split]].
    + intros j q Hj Hq. destruct (lookup_moved i j _ _ q _ Hi Hj) as [[-> ->]|[_ Hj']];
        [now apply HAi|eauto].
    + intros k Hk. rewrite (HAi eq_refl) in Hk. injection Hk as <-. eauto.
    + right. eauto.
    + intros j q Hj. destruct (lookup_moved i j _ _ q _ Hi Hj) as [[-> ->]|[Hne Hj']];
        [auto|].
      specialize (HD j q Hj').
      destruct q; try exact HD; try discriminate; try (destruct HD; discriminate);
        exfalso; apply Hne; exact (Hsole j _ eq_refl Hj' eq_refl).
  - (* assign *)
    intros [= <-]. unfold singleton_invariant.
    cbn [threads _manager_lock _manager_instance constructed].
    destruct HDi as (-> & Hnone & Hone). rewrite Hnone in *.
    split; [|split; [|split]].
    + intros j q Hj Hq. destruct (lookup_moved i j _ _ q _ Hi Hj) as [[-> ->]|[_ Hj']];
        [now apply HAi|eauto].
    + intros k Hk. rewrite (HAi eq_refl) in Hk. injection Hk as <-.
      eexists. split; [apply list_lookup_insert_eq; eapply lookup_lt_Some; eassumption|].
      reflexivity.
    + auto.
    + intros j q Hj. destruct (lookup_moved i j _ _ q _ Hi Hj) as [[-> ->]|[Hne Hj']];
        [reflexivity|].
      specialize (HD j q Hj').
      destruct q; try exact HD; try discriminate; try reflexivity;
        try (destruct HD; discriminate);
        exfalso; apply Hne; exact (Hsole j _ eq_refl Hj' eq_refl).
  - (* release *)
    intros [= <-]. unfold singleton_invariant.
    cbn [threads _manager_lock _manager_instance constructed].
    split; [|split; [|split]].
    + intros j q Hj Hq. destruct (lookup_moved i j _ _ q _ Hi Hj) as [[-> ->]|[Hne Hj']];
        [discriminate|]. exfalso. apply Hne. exact (Hsole j q eq_refl Hj' Hq).
    + discriminate.
    + now rewrite HDi in *.
    + intros j q Hj. destruct (lookup_moved i j _ _ q _ Hi Hj) as [[-> ->]|[_ Hj']];
        [exact HDi|now apply (HD j)].
  - (* return *)
    intros [= <-]. unfold goto, singleton_invariant.
    cbn [threads _manager_lock _manager_instance constructed].
    split; [|split; [|split]].
    + intros j q Hj Hq. destruct (lookup_moved i j _ _ q _ Hi Hj) as [[-> ->]|[_ Hj']];
        [discriminate|eauto].
    + intros k Hk. destruct (HB k Hk) as (q & Hq & Hc). exists q. split; [|exact Hc].
      eapply lookup_kept; [exact Hi|exact Hq|]. intros <-. discriminate.
    + rewrite HDi in *. exact HC.
    + intros j q Hj. destruct (lookup_moved i j _ _ q _ Hi Hj) as [[-> ->]|[_ Hj']];
        [split; exact HDi|now apply (HD j)].
  - discriminate.
Qed.

Lemma run_invariant (schedule : list nat) :
  forall g, singleton_invariant g -> singleton_invariant (run schedule g).
Proof.
  induction schedule as [|i later IH]; intros g Hg; [exact Hg|].
  cbn [run]. apply IH. destruct (step i g) as [g'|] eqn:E; [|exact Hg].
  exact (step_invariant i g g' Hg E).
Qed.

(** X16.  [get_manager] gives one manager to all its callers, however
    their calls interleave.  For any number of threads that call it at
    once and any order in which they move, statement by statement: at
    most one SSEConnectionManager is ever constructed; every thread that
    has returned holds that one manager (never [None], never a second
    object); at most one thread is inside the lock; and as long as some
    thread has not returned, some thread can move, so the calls cannot
    lock each other out. *)
Theorem get_manager_is_a_singleton (n : nat) (schedule : list nat) :
  constructed (run schedule (start n)) <= 1
  /\ (forall i r, threads (run schedule (start n)) !! i = Some (Done r) ->
                  r = Some 0 /\ constructed (run schedule (start n)) = 1)
  /\ (forall i j p q,
         threads (run schedule (start n)) !! i = Some p ->
         threads (run schedule (start n)) !! j = Some q ->
         in_lock p = true -> in_lock q = true -> i = j)
  /\ ((exists i p, threads (run schedule (start n)) !! i = Some p /\ returned p = false) ->
      exists i g', step i (run schedule (start n)) = Some g').
Proof.
  pose proof (run_invariant schedule (start n) (start_invariant n)) as (HA & HB & HC & HD).
  set (g := run schedule (start n)) in *.
  split; [|split; [|split]].
  - destruct (_manager_instance g); [lia|]. destruct HC as [->|[-> _]]; lia.
  - intros i r Hi. destruct (HD i _ Hi) as [-> Hinst]. split; [reflexivity|].
    rewrite Hinst in HC. apply HC.
  - intros i j p q Hi Hj Hp Hq.
    pose proof (HA i p Hi Hp) as H1. pose proof (HA j q Hj Hq) as H2. congruence.
  - intros (i & p & Hi & Hp).
    destruct (_manager_lock g) as [k|] eqn:Hl.
    + destruct (HB k eq_refl) as (q & Hk & Hq). exists k. unfold step. rewrite Hk.
      destruct q; try discriminate; eauto.
    + exists i. unfold step. rewrite Hi, ?Hl.
      destruct p; try discriminate; eauto;
        specialize (HA i _ Hi eq_refl); congruence.
Qed.

(* ================================================================== *)
(** ** The wire format: one event, three lines *)
(* ================================================================== *)

Lemma append_cons (x : ascii) (a b : string) : String x a +:+ b = String x (a +:+ b).
Proof. reflexivity. Qed.

Lemma append_assoc (a b c : string) : (a +:+ b) +:+ c = a +:+ (b +:+ c).
Proof. induction a as [|x a IH]; [reflexivity|]. rewrite !append_cons. now rewrite IH. Qed.

Lemma all_chars_app (p : ascii -> bool) (a b : string) :
  all_chars p (a +:+ b) = all_chars p a && all_chars p b.
Proof.
  induction a as [|x a IH]; [reflexivity|]. rewrite append_cons. cbn [all_chars].
  rewrite IH. now rewrite andb_assoc.
Qed.

Lemma contains_app (c : ascii) (a b : string) :
  contains c (a +:+ b) = contains c a || contains c b.
Proof.
  induction a as [|x a IH]; [reflexivity|]. rewrite append_cons. cbn [contains].
  rewrite IH. now rewrite orb_assoc.
Qed.

Lemma printable_no_newline (s : string) :
  all_chars printable s = true -> contains newline s = false.
Proof.
  induction s as [|c s IH]; [reflexivity|]. cbn [all_chars contains].
  intros H. apply andb_true_iff in H as [Hc Hs]. rewrite (IH Hs), orb_false_r.
  destruct (Ascii.eqb c newline) eqn:E; [|reflexivity].
  apply Ascii.eqb_eq in E. subst c. discriminate.
Qed.

Lemma escape_char_printable (c : ascii) : all_chars printable (Json.escape_char c) = true.
Proof. destruct c as [[] [] [] [] [] [] [] []]; reflexivity. Qed.

Lemma escape_printable (s : string) : all_chars printable (Json.escape s) = true.
Proof.
  induction s as [|c s IH]; [reflexivity|]. cbn [Json.escape].
  now rewrite all_chars_app, escape_char_printable, IH.
Qed.

Lemma encode_str_printable (s : string) : all_chars printable (Json.encode_str s) = true.
Proof.
  unfold Json.encode_str. now rewrite !all_chars_app, escape_printable.
Qed.

Lemma pretty_N_go_printable (x : N) :
  forall s, all_chars printable s = true -> all_chars printable (pretty_N_go x s) = true.
Proof.
  induction (N.lt_wf_0 x) as [x _ IH]; intros s Hs.
  destruct (N.eq_dec x 0%N) as [->|Hx]; [now rewrite pretty_N_go_0|].
  rewrite pretty_N_go_step by lia. apply IH; [apply N.div_lt; lia|].
  cbn [all_chars]. rewrite Hs, andb_true_r.
  unfold pretty_N_char. now repeat case_match.
Qed.

Lemma pretty_Z_printable (z : Z) : all_chars printable (pretty z) = true.
Proof.
  assert (H : forall p : positive, all_chars printable (pretty p) = true).
  { intros p. unfold pretty, pretty_positive, pretty, pretty_N.
    destruct (decide (N.pos p = 0%N)); [reflexivity|]. now apply pretty_N_go_printable. }
  destruct z as [|p|p]; [reflexivity|apply H|].
  unfold pretty, pretty_Z. rewrite all_chars_app. now rewrite (H p).
Qed.

Lemma json_nested_ind (P : json -> Prop) :
  P JNull ->
  (forall b, P (JBool b)) ->
  (forall z, P (JInt z)) ->
  (forall s, P (JStr s)) ->
  (forall l, Forall P l -> P (JList l)) ->
  (forall kv, Forall (fun member => P (snd member)) kv -> P (JDict kv)) ->
  forall v, P v.
Proof.
  intros Hnull Hbool Hint Hstr Hlist Hdict. fix IH 1. intros [|b|z|s|l|kv].
  - exact Hnull.
  - apply Hbool.
  - apply Hint.
  - apply Hstr.
  - apply Hlist. revert l. fix IHl 1. intros [|x l]; constructor; [apply IH|apply IHl].
  - apply Hdict. revert kv. fix IHkv 1. intros [|[k x] kv]; constructor; [apply IH|apply IHkv].
Qed.

Lemma dumps_printable (v : json) : all_chars printable (Json.dumps v) = true.
Proof.
  induction v as [|b|z|s|l Hl|kv Hkv] using json_nested_ind.
  - reflexivity.
  - now destruct b.
  - apply pretty_Z_printable.
  - apply encode_str_printable.
  - cbn [Json.dumps]. rewrite !all_chars_app.
    match goal with |- _ && (all_chars printable ?body && _) = true =>
      assert (Hbody : all_chars printable body = true) end.
    { induction Hl as [|x l Hx Hl IH]; [reflexivity|].
      destruct l as [|y l]; [exact Hx|].
      rewrite !all_chars_app, Hx, IH. reflexivity. }
    rewrite Hbody. reflexivity.
  - cbn [Json.dumps]. rewrite !all_chars_app.
    match goal with |- _ && (all_chars printable ?body && _) = true =>
      assert (Hbody : all_chars printable body = true) end.
    { induction Hkv as [|[k x] kv Hx Hkv IH]; [reflexivity|]. cbn [snd] in Hx.
      destruct kv as [|y kv].
      - now rewrite !all_chars_app, encode_str_printable, Hx.
      - rewrite !all_chars_app, encode_str_printable, Hx, IH. reflexivity. }
    rewrite Hbody. reflexivity.
Qed.

Lemma lower_char_newline (c : ascii) :
  Ascii.eqb (PyStr.lower_char c) newline = Ascii.eqb c newline.
Proof. destruct c as [[] [] [] [] [] [] [] []]; reflexivity. Qed.

Lemma lower_newline (s : string) : contains newline (PyStr.lower s) = contains newline s.
Proof.
  induction s as [|c s IH]; [reflexivity|]. cbn [PyStr.lower contains].
  now rewrite lower_char_newline, IH.
Qed.

(** X17.  On the wire an event is three lines, whatever its payload.
    For an event type without line break and any JSON payload, the
    message splits at the line breaks into the event line with the type
    in lower case, the data line with the serialised payload, and the
    empty line that ends the event (and the empty rest); and the
    serialised payload is made of printable ASCII characters only, line
    breaks and other control or non-ASCII characters inside its strings
    being escaped. *)
Theorem frames_are_three_lines (event_type : string) (data : json) :
  contains newline event_type = false ->
  PyStr.split newline (_format_sse_message event_type data)
  = ["event: " +:+ PyStr.lower event_type; "data: " +:+ Json.dumps data; ""; ""]
  /\ all_chars printable (Json.dumps data) = true.
Proof.
  intros Hty. split; [|apply dumps_printable].
  unfold _format_sse_message.
  rewrite <- (append_assoc "event: " (PyStr.lower event_type)).
  change (nl +:+ ?s) with (String newline s).
  rewrite split_app_sep
    by (rewrite contains_app, lower_newline, Hty; reflexivity).
  f_equal.
  rewrite <- (append_assoc "data: " (Json.dumps data)).
  change (nl +:+ nl) with (String newline nl).
  rewrite split_app_sep
    by (rewrite contains_app, (printable_no_newline _ (dumps_printable data)); reflexivity).
  reflexivity.
Qed.

Lemma frames_are_three_lines_witness :
  PyStr.split newline
    (_format_sse_message "MODIFIED" (JDict [("note", JStr ("one" +:+ nl +:+ "two"))]))
  = ["event: modified"; "data: {" +:+ quoted "note" +:+ ": " +:+ quoted "one\ntwo" +:+ "}";
     ""; ""].
Proof.
  destruct (frames_are_three_lines "MODIFIED" (JDict [("note", JStr ("one" +:+ nl +:+ "two"))]))
    as [-> _]; reflexivity.
Defined.

(** X14.  A poll that fails never ends the logs stream and never shows
    in it.  When the InferenceService cannot be fetched, the stream is
    the one error event, and no poll is made.  Otherwise, whatever the
    polls do, the loop goes through all of them, sleeping three time
    units after each; the chunks it yields are the updates of the polls
    that succeeded, one each and in order, and apart from them only
    heartbeats, at most one chunk per poll. *)
Theorem failed_polls_do_not_end_the_logs_stream
        (polls : list (Z * Backend)) (components : list string) (w : World) :
  (forall e,
      fst (logs_event_stream (inl e) components polls w) = [(clock w, error_message e)]
      /\ sleeps (trace (snd (logs_event_stream (inl e) components polls w)))
         = sleeps (trace w))
  /\ forall svc,
      List.filter (fun c => negb (is_heartbeat c))
                  (map snd (fst (logs_event_stream (inr svc) components polls w)))
      = updates polls svc components
      /\ length (fst (logs_event_stream (inr svc) components polls w)) <= length polls
      /\ clock (snd (logs_event_stream (inr svc) components polls w))
         = (clock w + fetch_time polls + 3 * Z.of_nat (length polls))%Z
      /\ sleeps (trace (snd (logs_event_stream (inr svc) components polls w)))
         = sleeps (trace w) ++ repeat 3%Z (length polls).
Proof.
  split.
  - intros e. split; [reflexivity|].
    cbn [logs_event_stream snd trace emit]. rewrite sleeps_app. apply app_nil_r.
  - intros svc. apply logs_loop_chunks.
Qed.

(* ================================================================== *)
(** ** Keys do not interfere *)
(* ================================================================== *)

Lemma deliver_outside (event_data : json) (qs : list nat) :
  forall (dead : list nat) (w : World),
    (forall q, q ∉ qs ->
               queues (world_of (deliver event_data qs dead w)) !! q = queues w !! q)
    /\ _client_queues (world_of (deliver event_data qs dead w)) = _client_queues w
    /\ watchers (world_of (deliver event_data qs dead w)) = watchers w
    /\ (forall s, table s (world_of (deliver event_data qs dead w)) = table s w).
Proof.
  induction qs as [|x qs IH]; intros dead w; cbn [deliver]; [now cbn|].
  unfold queue_put. destruct (queues w !! x) as [Q|] eqn:HQ.
  - destruct (is_shutdown Q).
    + destruct (IH (dead ++ [x])
                  (emit (LogError ("Error sending event to client: " +:+ "ShutDown")) w))
        as (H1 & H2 & H3 & H4).
      split; [|split; [|split]]; [|exact H2|exact H3|exact H4].
      intros q Hq. apply not_elem_of_cons in Hq as [_ Hq]. now rewrite H1.
    + destruct (is_full Q); [now cbn|].
      destruct (IH dead (set_queue x (mkQueue (maxsize Q) (items Q ++ [event_data]) false) w))
        as (H1 & H2 & H3 & H4).
      split; [|split; [|split]]; [|exact H2|exact H3|].
      * intros q Hq. apply not_elem_of_cons in Hq as [Hne Hq]. rewrite H1 by exact Hq.
        cbn [queues set_queue]. now rewrite lookup_insert_ne by congruence.
      * intros s. rewrite H4. now destruct s.
  - destruct (IH (dead ++ [x])
                (emit (LogError ("Error sending event to client: "
                                 +:+ "object has no attribute 'put'")) w))
      as (H1 & H2 & H3 & H4).
    split; [|split; [|split]]; [|exact H2|exact H3|exact H4].
    intros q Hq. apply not_elem_of_cons in Hq as [_ Hq]. now rewrite H1.
Qed.

Lemma evict_outside (k : string) (dead : list nat) :
  forall w,
    queues (world_of (evict k dead w)) = queues w
    /\ (forall k', k' <> k -> queues_of k' (world_of (evict k dead w)) = queues_of k' w)
    /\ watchers (world_of (evict k dead w)) = watchers w
    /\ (forall s, table s (world_of (evict k dead w)) = table s w).
Proof.
  induction dead as [|d dead IH]; intros w; cbn [evict]; [now cbn|].
  destruct (list_remove d (queues_of k w)) as [l|]; [|now cbn].
  destruct (IH (set_client_queues k l w)) as (H1 & H2 & H3 & H4).
  split; [exact H1|]. split; [|split; [exact H3|]].
  - intros k' Hne. rewrite (H2 k' Hne). apply queues_of_set_other. congruence.
  - intros s. rewrite H4. now destruct s.
Qed.

Lemma broadcast_outside (k ty : string) (obj : json) (w : World) :
  (forall q, q ∉ queues_of k w ->
             queues (world_of (_broadcast_event k ty obj w)) !! q = queues w !! q)
  /\ (forall k', k' <> k ->
                 queues_of k' (world_of (_broadcast_event k ty obj w)) = queues_of k' w)
  /\ watchers (world_of (_broadcast_event k ty obj w)) = watchers w
  /\ (forall s, table s (world_of (_broadcast_event k ty obj w)) = table s w).
Proof.
  unfold _broadcast_event, with_lock. destruct (lock_held k w); [now cbn|].
  set (w0 := touch k (set_lock k true w)).
  assert (H0 : queues w0 = queues w /\ (forall k', queues_of k' w0 = queues_of k' w)
               /\ watchers w0 = watchers w /\ forall s, table s w0 = table s w).
  { destruct (touch_fields k (set_lock k true w)) as (Hq & Hws & _ & _ & _ & Ht).
    split; [exact Hq|]. split; [|split; [exact Hws|]].
    - intros k'. unfold w0. now rewrite queues_of_touch, queues_of_set_lock.
    - intros s. unfold w0. now rewrite Ht, table_set_lock. }
  destruct H0 as (Hq0 & Hk0 & Hws0 & Ht0).
  destruct (deliver_outside (envelope ty obj) (queues_of k w0) [] w0) as (D1 & D2 & D3 & D4).
  destruct (deliver (envelope ty obj) (queues_of k w0) [] w0) as [dead w1|e w1|r w1];
    cbn [world_of] in *.
  - destruct (evict_outside k dead w1) as (E1 & E2 & E3 & E4).
    assert (Hfinal : forall X : World -> Prop,
               (forall w2 b, X w2 -> X (set_lock k b w2)) ->
               X (world_of (evict k dead w1)) ->
               X (world_of match evict k dead w1 with
                           | Returns a w' => Returns a (set_lock k false w')
                           | Raises e w' => Raises e (set_lock k false w')
                           | Blocked r w' => Blocked r w'
                           end)).
    { intros X HX. destruct (evict k dead w1); cbn [world_of]; auto. }
    apply (Hfinal (fun w2 =>
             (forall q, q ∉ queues_of k w -> queues w2 !! q = queues w !! q)
             /\ (forall k', k' <> k -> queues_of k' w2 = queues_of k' w)
             /\ watchers w2 = watchers w
             /\ (forall s, table s w2 = table s w))).
    + intros w2 b (X1 & X2 & X3 & X4). split; [exact X1|]. split; [|split; [exact X3|]].
      * intros k' Hne. rewrite queues_of_set_lock. now apply X2.
      * intros s. rewrite table_set_lock. apply X4.
    + split; [|split; [|split]].
      * intros q Hq. rewrite E1, D1 by (rewrite Hk0; exact Hq). now rewrite Hq0.
      * intros k' Hne. rewrite (E2 k' Hne). unfold queues_of. rewrite D2.
        apply (Hk0 k').
      * congruence.
      * intros s. now rewrite E4, D4.
  - split; [|split; [|split]].
    + intros q Hq. cbn [queues set_lock]. rewrite D1 by (rewrite Hk0; exact Hq). now rewrite Hq0.
    + intros k' Hne. rewrite queues_of_set_lock. unfold queues_of. rewrite D2. apply (Hk0 k').
    + cbn [watchers set_lock]. congruence.
    + intros s. rewrite table_set_lock. now rewrite D4.
  - split; [|split; [|split]].
    + intros q Hq. rewrite D1 by (rewrite Hk0; exact Hq). now rewrite Hq0.
    + intros k' Hne. unfold queues_of. rewrite D2. apply (Hk0 k').
    + congruence.
    + intros s. now rewrite D4.
Qed.

(** X18.  A broadcast stays within its key.  In a well-formed state a
    broadcast under one key, whether it returns or is left waiting
    midway, puts nothing on the queue of a client of another key, and
    leaves the list of clients of every other key, the watcher tables
    and the watchers as they were. *)
Theorem broadcast_stays_within_its_key (k ty : string) (obj : json) (w : World) :
  well_formed w ->
  (forall k' q, k' <> k -> q ∈ queues_of k' w ->
                pending (world_of (_broadcast_event k ty obj w)) q = pending w q)
  /\ (forall k', k' <> k ->
                 queues_of k' (world_of (_broadcast_event k ty obj w)) = queues_of k' w)
  /\ watchers (world_of (_broadcast_event k ty obj w)) = watchers w
  /\ (forall s, table s (world_of (_broadcast_event k ty obj w)) = table s w).
Proof.
  intros (_ & _ & _ & Honce).
  destruct (broadcast_outside k ty obj w) as (H1 & H2 & H3 & H4).
  split; [|split; [exact H2|split; [exact H3|exact H4]]].
  intros k' q Hne Hq. unfold pending. rewrite H1; [reflexivity|].
  intros Hin. apply Hne. exact (Honce k' k q Hq Hin).
Qed.

Lemma broadcast_stays_within_its_key_witness :
  pending (world_of (_broadcast_event "ns:team-a" "ADDED" object_x
                       (run_actions [Open (WatchNamespace "team-a") (inr (JList []));
                                     Open (WatchNamespace "team-b") (inr (JList []))] init)))
          1
  = [].
Proof.
  destruct (broadcast_stays_within_its_key "ns:team-a" "ADDED" object_x
              (run_actions [Open (WatchNamespace "team-a") (inr (JList []));
                            Open (WatchNamespace "team-b") (inr (JList []))] init))
    as (H & _).
  - apply run_actions_well_formed; [repeat constructor|apply well_formed_init].
  - rewrite (H "ns:team-b" 1); [reflexivity|discriminate|vm_compute; left].
Defined.

Lemma cut_at_separator (c : ascii) (a a' b b' : string) :
  contains c a = false -> contains c a' = false ->
  a +:+ String c b = a' +:+ String c b' -> a = a' /\ b = b'.
Proof.
  revert a'. induction a as [|x a IH]; intros [|x' a']; cbn [contains];
    rewrite ?append_cons; change (EmptyString +:+ ?s) with s.
  - intros _ _ [= ->]. auto.
  - intros _ H [= <- _]. now rewrite Ascii.eqb_refl in H.
  - intros H _ [= -> _]. now rewrite Ascii.eqb_refl in H.
  - intros H H' [= -> Heq].
    apply orb_false_iff in H as [_ H]. apply orb_false_iff in H' as [_ H'].
    destruct (IH a' H H' Heq) as [-> ->]. auto.
Qed.

(** X19.  A watch key names one subscription.  Keys of different kinds
    never coincide, so that [_stop_watcher], which goes by the prefix of
    the key, looks into the table that the registration used; and two
    subscriptions whose namespaces contain no slash have the same key
    only when they are the same subscription, so that clients of
    different resources never share a list of queues or a watcher. *)
Theorem watch_keys_identify_subscriptions (t1 t2 : thread_target) :
  watch_key_of t1 = watch_key_of t2 ->
  scope_of t1 = scope_of t2
  /\ (contains "/" (namespace_of t1) = false ->
      contains "/" (namespace_of t2) = false ->
      t1 = t2).
Proof.
  destruct t1 as [ns1|ns1 n1|ns1 n1], t2 as [ns2|ns2 n2|ns2 n2];
    cbn [watch_key_of scope_of namespace_of]; rewrite ?append_cons;
    change (EmptyString +:+ ?s) with s; intros H; try discriminate H;
    injection H as H; (split; [reflexivity|]); intros H1 H2.
  - now rewrite H.
  - destruct (cut_at_separator "/" ns1 ns2 n1 n2 H1 H2 H) as [-> ->]. reflexivity.
  - destruct (cut_at_separator "/" ns1 ns2 n1 n2 H1 H2 H) as [-> ->]. reflexivity.
Qed.

Lemma watch_keys_identify_subscriptions_witness :
  scope_of (WatchSingle "team-a" "m") = scope_of (WatchSingle "team-a" "m")
  /\ (contains "/" "team-a" = false -> contains "/" "team-a" = false ->
      WatchSingle "team-a" "m" = WatchSingle "team-a" "m").
Proof.
  exact (watch_keys_identify_subscriptions (WatchSingle "team-a" "m")
           (WatchSingle "team-a" "m") eq_refl).
Defined.

Lemma table_keys_are_never_removed_witness :
  "ns:team-a" ∈ dom (_locks (world_of (run_request (Attach (WatchNamespace "team-a") 0) init)))
  /\ "ns:team-a" ∈ dom (_client_queues
                         (world_of (run_request (Attach (WatchNamespace "team-a") 0) init))).
Proof.
  destruct table_keys_are_never_removed as [_ H].
  apply (H (Attach (WatchNamespace "team-a") 0) init). reflexivity.
Defined.

Lemma get_manager_is_a_singleton_witness :
  threads (run racing_schedule (start 2)) = [Done (Some 0); Done (Some 0)]
  /\ constructed (run racing_schedule (start 2)) = 1.
Proof.
  split; [reflexivity|].
  destruct (get_manager_is_a_singleton 2 racing_schedule) as (_ & H & _).
  apply (H 1 (Some 0)). reflexivity.
Defined.
